(** * dmi-scheduler: a database-backed job queue, its workers and its dispatcher

    A shallow embedding of [scheduler/queue.py], [scheduler/database.py],
    [dmi_scheduler/worker.py], [dmi_scheduler/manager.py] and
    [dmi_scheduler/scheduler.py], and of [reconnect] of
    [dmi_scheduler/database.py].

    Python dictionaries are finite maps from strings to values, the [jobs]
    table is a list of typed rows next to the counter of its identity column,
    stateful code runs in a state-and-exception monad, and the dispatcher
    thread is a small transition system whose steps interleave with those of
    the other threads. *)

From stdpp Require Import base option list gmap strings pretty sorting.
From Stdlib Require Import ZArith Lia Ascii.

Local Open Scope Z_scope.

(** ** Python values, exceptions and effects *)

Module Py.

(** The values stored in the dictionaries of this program: integers and
    strings.  [False] is the integer 0 and [True] the integer 1, as Python
    compares them. *)
Inductive val :=
| VInt (n : Z)
| VStr (s : string).

#[global] Instance val_eq_dec : EqDecision val.
Proof. solve_decision. Defined.

(** One entry of a traceback, as [traceback.extract_tb] returns it. *)
Record frame := Frame { filename : string; lineno : Z }.

#[global] Instance frame_eq_dec : EqDecision frame.
Proof. solve_decision. Defined.

(** The exception classes this program raises or catches.  [UserError]
    stands for any other class deriving from [Exception] that a worker's
    code may raise, and [BaseError] for a class that derives from
    [BaseException] and not from [Exception], as [SystemExit] (raised by
    [sys.exit()]), [KeyboardInterrupt] and [GeneratorExit] do.  The other
    classes all derive from [Exception]. *)
Inductive exc_class :=
| WorkerInterruptedException
| JobClaimedException
| JobNotFoundException
| KeyError
| TypeError
| IntegrityError
| ProgrammingError
| UserError (name : string)
| BaseError (name : string).

#[global] Instance exc_class_eq_dec : EqDecision exc_class.
Proof. solve_decision. Defined.

Definition class_name (c : exc_class) : string :=
  match c with
  | WorkerInterruptedException => "WorkerInterruptedException"
  | JobClaimedException => "JobClaimedException"
  | JobNotFoundException => "JobNotFoundException"
  | KeyError => "KeyError"
  | TypeError => "TypeError"
  | IntegrityError => "IntegrityError"
  | ProgrammingError => "ProgrammingError"
  | UserError name => name
  | BaseError name => name
  end.

(** A raised exception: its class, [str(e)] and [e.__traceback__]. *)
Record exc := Exc { e_class : exc_class; e_str : string; e_tb : list frame }.

#[global] Instance exc_eq_dec : EqDecision exc.
Proof. solve_decision. Defined.

Definition mk_exc (c : exc_class) (msg : string) : exc := Exc c msg [].

(** What [except Exception] catches. *)
Definition derives_from_exception (e : exc) : bool :=
  match e_class e with
  | BaseError _ => false
  | _ => true
  end.

(** The outcome of a call: a value or a raised exception. *)
Inductive res (A : Type) :=
| Ok (a : A)
| Raise (e : exc).
Arguments Ok {A} a.
Arguments Raise {A} e.

(** Code with effects on a state of type [S].  A raised exception keeps the
    state reached so far: nothing is rolled back. *)
Definition M (S A : Type) : Type := S → res A * S.

Definition ret {S A} (a : A) : M S A := λ s, (Ok a, s).

Definition bind {S A B} (m : M S A) (k : A → M S B) : M S B :=
  λ s, match m s with
       | (Ok a, s') => k a s'
       | (Raise e, s') => (Raise e, s')
       end.

#[global] Instance M_ret {S} : MRet (M S) := @ret S.
#[global] Instance M_bind {S} : MBind (M S) := λ A B k m, bind m k.

Definition raise {S A} (e : exc) : M S A := λ s, (Raise e, s).

(** [try: m except <classes matched by handles>: h e].  An exception that
    the handler raises is not caught again. *)
Definition try_except {S A} (m : M S A) (handles : exc → bool)
    (h : exc → M S A) : M S A :=
  λ s, match m s with
       | (Ok a, s') => (Ok a, s')
       | (Raise e, s') => if handles e then h e s' else (Raise e, s')
       end.

Definition gets {S A} (f : S → A) : M S A := λ s, (Ok (f s), s).
Definition modify {S} (f : S → S) : M S unit := λ s, (Ok tt, f s).

(** Running code written for a component [T] of the state [S]. *)
Definition lift {S T A} (proj : S → T) (upd : T → S → S) (m : M T A) : M S A :=
  λ s, let '(r, t) := m (proj s) in (r, upd t s).

(** [for x in l: body x] *)
Fixpoint for_each {S A} (l : list A) (body : A → M S unit) : M S unit :=
  match l with
  | [] => ret tt
  | x :: l' => body x;; for_each l' body
  end.

(** [[x for x in l if p x]] *)
Fixpoint filter_m {S A} (p : A → M S bool) (l : list A) : M S (list A) :=
  match l with
  | [] => ret []
  | x :: l' => b ← p x; xs ← filter_m p l'; ret (if (b : bool) then x :: xs else xs)
  end.

(** [d[k]] *)
Definition getitem {S} (d : gmap string val) (k : string) : M S val :=
  match d !! k with
  | Some v => ret v
  | None => raise (mk_exc KeyError k)
  end.

(** [d[k]] where the code goes on to use the value as a number *)
Definition getint {S} (d : gmap string val) (k : string) : M S Z :=
  v ← getitem d k;
  match v with
  | VInt n => ret n
  | VStr _ => raise (mk_exc TypeError k)
  end.

(** [d[k]] where the code goes on to use the value as a string *)
Definition getstr {S} (d : gmap string val) (k : string) : M S string :=
  v ← getitem d k;
  match v with
  | VStr s => ret s
  | VInt _ => raise (mk_exc TypeError k)
  end.

(** A triple in the style of Hoare: from a state that satisfies [P], the
    outcome of [m] and the state it leaves satisfy [Q]. *)
Definition hoare {S A} (P : S → Prop) (m : M S A) (Q : res A → S → Prop) : Prop :=
  ∀ s, P s → Q (m s).1 (m s).2.

End Py.

Export Py.

Abbreviation dict := (gmap string val).

(** ** The [jobs] table and the SQL statements the program sends

    The database server is outside the program.  What is modelled of it is
    the meaning of the statements that the program builds: the conditions of
    their WHERE clauses, ORDER BY timestamp, LIMIT 1, the assignments of an
    UPDATE, and INSERT with its ON CONFLICT clause against the two unique
    constraints of the table. *)

Module Database.

(** One row of [jobs]. *)
Record row := Row {
  row_id : Z;                  (* id, identity primary key *)
  pythonfile : string;
  remote_id : string;
  details : string;
  timestamp : Z;
  timestamp_after : Z;
  timestamp_claimed : Z;
  timestamp_lastclaimed : Z;
  interval : Z;
  attempts : Z;
  status : string
}.

#[global] Instance row_eq_dec : EqDecision row.
Proof. solve_decision. Defined.

(** The table: its rows in storage order and the last value that the
    sequence behind [id] handed out. *)
Record table := Table { rows : list row; seq : Z }.

Definition columns : list string :=
  ["id"; "pythonfile"; "remote_id"; "details"; "timestamp"; "timestamp_after";
   "timestamp_claimed"; "timestamp_lastclaimed"; "interval"; "attempts";
   "status"].

(** A fetched row, as the [RealDictCursor] hands it to Python. *)
Definition row_dict (r : row) : dict :=
  <["id" := VInt (row_id r)]> (
  <["pythonfile" := VStr (pythonfile r)]> (
  <["remote_id" := VStr (remote_id r)]> (
  <["details" := VStr (details r)]> (
  <["timestamp" := VInt (timestamp r)]> (
  <["timestamp_after" := VInt (timestamp_after r)]> (
  <["timestamp_claimed" := VInt (timestamp_claimed r)]> (
  <["timestamp_lastclaimed" := VInt (timestamp_lastclaimed r)]> (
  <["interval" := VInt (interval r)]> (
  <["attempts" := VInt (attempts r)]> (
  <["status" := VStr (status r)]> ∅)))))))))).

(** The value of column [c] in row [r]. *)
Definition col (c : string) (r : row) : option val := row_dict r !! c.

(** [r] with column [c] set to [v]; a value of the wrong kind or an unknown
    column leaves the row as it is. *)
Definition set_col (c : string) (v : val) (r : row) : row :=
  let 'Row i pf rid det ts ta tc tl iv att st := r in
  match v with
  | VInt n =>
      if decide (c = "id") then Row n pf rid det ts ta tc tl iv att st
      else if decide (c = "timestamp") then Row i pf rid det n ta tc tl iv att st
      else if decide (c = "timestamp_after") then Row i pf rid det ts n tc tl iv att st
      else if decide (c = "timestamp_claimed") then Row i pf rid det ts ta n tl iv att st
      else if decide (c = "timestamp_lastclaimed") then Row i pf rid det ts ta tc n iv att st
      else if decide (c = "interval") then Row i pf rid det ts ta tc tl n att st
      else if decide (c = "attempts") then Row i pf rid det ts ta tc tl iv n st
      else r
  | VStr s =>
      if decide (c = "pythonfile") then Row i s rid det ts ta tc tl iv att st
      else if decide (c = "remote_id") then Row i pf s det ts ta tc tl iv att st
      else if decide (c = "details") then Row i pf rid s ts ta tc tl iv att st
      else if decide (c = "status") then Row i pf rid det ts ta tc tl iv att s
      else r
  end.

(** *** Expressions and conditions *)

Inductive sql_expr :=
| Col (c : string)             (* a column *)
| Lit (v : val)                (* a literal or a [%s] with its replacement *)
| Plus (a b : sql_expr)        (* a + b *)
| Concat (a b : sql_expr).     (* a || b *)

Inductive sql_cond :=
| Eq (a b : sql_expr)          (* a = b *)
| Ne (a b : sql_expr)          (* a != b *)
| Lt (a b : sql_expr)          (* a < b *)
| And (p q : sql_cond)
| Or (p q : sql_cond).

Fixpoint eval_expr (r : row) (e : sql_expr) : option val :=
  match e with
  | Col c => col c r
  | Lit v => Some v
  | Plus a b =>
      match eval_expr r a, eval_expr r b with
      | Some (VInt x), Some (VInt y) => Some (VInt (x + y))
      | _, _ => None
      end
  | Concat a b =>
      match eval_expr r a, eval_expr r b with
      | Some (VStr x), Some (VStr y) => Some (VStr (x +:+ y))
      | _, _ => None
      end
  end.

(** The statements of this program compare numbers with numbers and text
    with text; any other comparison counts as not satisfied. *)
Fixpoint eval_cond (r : row) (c : sql_cond) : bool :=
  match c with
  | Eq a b =>
      match eval_expr r a, eval_expr r b with
      | Some x, Some y => bool_decide (x = y)
      | _, _ => false
      end
  | Ne a b =>
      match eval_expr r a, eval_expr r b with
      | Some (VInt x), Some (VInt y) => bool_decide (x ≠ y)
      | Some (VStr x), Some (VStr y) => bool_decide (x ≠ y)
      | _, _ => false
      end
  | Lt a b =>
      match eval_expr r a, eval_expr r b with
      | Some (VInt x), Some (VInt y) => bool_decide (x < y)
      | _, _ => false
      end
  | And p q => eval_cond r p && eval_cond r q
  | Or p q => eval_cond r p || eval_cond r q
  end.

(** A WHERE clause that may be absent. *)
Definition matches (w : option sql_cond) (r : row) : bool :=
  match w with
  | Some c => eval_cond r c
  | None => true
  end.

(** *** SELECT * FROM jobs [WHERE ...] [ORDER BY timestamp ASC] [LIMIT 1] *)

Record select := Select {
  sel_where : option sql_cond;
  sel_order_by_timestamp : bool;
  sel_limit_1 : bool
}.

Definition by_timestamp (r1 r2 : row) : Prop := timestamp r1 ≤ timestamp r2.

#[global] Instance by_timestamp_dec : RelDecision by_timestamp.
Proof. intros r1 r2. unfold by_timestamp. apply _. Defined.

#[global] Instance by_timestamp_total : Total by_timestamp.
Proof. intros r1 r2. unfold by_timestamp. lia. Qed.

#[global] Instance by_timestamp_trans : Transitive by_timestamp.
Proof. intros r1 r2 r3. unfold by_timestamp. lia. Qed.

(** Rows with equal timestamps come out in an order that the server
    chooses; here the one of the merge sort below. *)
Definition order_by_timestamp (l : list row) : list row :=
  merge_sort by_timestamp l.

Definition sql_select (q : select) (t : table) : list row :=
  let found := filter (λ r, matches (sel_where q) r) (rows t) in
  let sorted := if sel_order_by_timestamp q then order_by_timestamp found else found in
  if sel_limit_1 q then take 1 sorted else sorted.

(** *** UPDATE jobs SET c = e, ... [WHERE ...] *)

Definition assign (old : row) (r : row) (a : string * sql_expr) : row :=
  match eval_expr old a.2 with
  | Some v => set_col a.1 v r
  | None => r
  end.

(** Every right-hand side is evaluated on the row as it was. *)
Definition apply_set (sets : list (string * sql_expr)) (r : row) : row :=
  foldl (assign r) r sets.

(** The new table and the number of affected rows. *)
Definition sql_update (sets : list (string * sql_expr)) (w : option sql_cond)
    (t : table) : table * Z :=
  (Table (map (λ r, if matches w r then apply_set sets r else r) (rows t)) (seq t),
   Z.of_nat (length (filter (λ r, matches w r) (rows t)))).

(** *** DELETE FROM jobs WHERE ... *)

Definition sql_delete (w : option sql_cond) (t : table) : table * Z :=
  (Table (filter (λ r, ¬ matches w r) (rows t)) (seq t),
   Z.of_nat (length (filter (λ r, matches w r) (rows t)))).

(** *** INSERT INTO jobs (...) VALUES (...) [ON CONFLICT [(...)] DO NOTHING] *)

Definition field_int (data : dict) (c : string) (default : option Z) : option Z :=
  match data !! c with
  | Some (VInt n) => Some n
  | Some (VStr _) => None
  | None => default
  end.

Definition field_str (data : dict) (c : string) (default : option string)
    : option string :=
  match data !! c with
  | Some (VStr s) => Some s
  | Some (VInt _) => None
  | None => default
  end.

(** The row that the values of [data] make.  A column that [data] leaves
    out takes its default; [pythonfile], [remote_id] and [timestamp] are
    NOT NULL and have none; [id] defaults to the next value of the
    sequence. *)
Definition new_row (next : Z) (data : dict) : option row :=
  if bool_decide (dom data ⊆ list_to_set columns) then
    i ← field_int data "id" (Some next);
    pf ← field_str data "pythonfile" None;
    rid ← field_str data "remote_id" None;
    det ← field_str data "details" (Some "");
    ts ← field_int data "timestamp" None;
    ta ← field_int data "timestamp_after" (Some 0);
    tc ← field_int data "timestamp_claimed" (Some 0);
    tl ← field_int data "timestamp_lastclaimed" (Some 0);
    iv ← field_int data "interval" (Some 0);
    att ← field_int data "attempts" (Some 0);
    st ← field_str data "status" (Some "");
    Some (Row i pf rid det ts ta tc tl iv att st)
  else None.

(** The unique constraints of the table: the primary key [id] and
    [unique (pythonfile, remote_id)]. *)
Definition same_pair (r1 r2 : row) : Prop :=
  pythonfile r1 = pythonfile r2 ∧ remote_id r1 = remote_id r2.

Definition same_id (r1 r2 : row) : Prop := row_id r1 = row_id r2.

#[global] Instance same_pair_dec : RelDecision same_pair.
Proof. intros r1 r2. unfold same_pair. apply _. Defined.

#[global] Instance same_id_dec : RelDecision same_id.
Proof. intros r1 r2. unfold same_id. apply _. Defined.

(** The constraint that the column list of an ON CONFLICT clause names. *)
Inductive arbiter :=
| AnyConstraint                (* ON CONFLICT DO NOTHING *)
| PairConstraint               (* ON CONFLICT (pythonfile, remote_id) *)
| IdConstraint.                (* ON CONFLICT (id) *)

Definition infer_arbiter (cols : list string) : option arbiter :=
  if decide (cols = []) then Some AnyConstraint
  else if decide (cols = ["pythonfile"; "remote_id"]) then Some PairConstraint
  else if decide (cols = ["remote_id"; "pythonfile"]) then Some PairConstraint
  else if decide (cols = ["id"]) then Some IdConstraint
  else None.

Definition integrity_error : exc :=
  mk_exc IntegrityError "duplicate key value violates unique constraint".

(** The insert proper: the affected-row count, or the error of the server.
    The sequence value taken for a defaulted [id] is not given back. *)
Definition sql_insert (data : dict) (on_conflict : option (list string))
    : M table Z := λ t,
  let next := seq t + 1 in
  let t1 := if decide ("id" ∈ dom data) then t else Table (rows t) next in
  match new_row next data with
  | None => (Raise (mk_exc ProgrammingError "bad column or value"), t)
  | Some r =>
      let pair_clash := bool_decide (Exists (same_pair r) (rows t)) in
      let id_clash := bool_decide (Exists (same_id r) (rows t)) in
      let stored := (Ok 1, Table (rows t ++ [r]) (seq t1)) in
      match on_conflict with
      | None =>
          if pair_clash || id_clash then (Raise integrity_error, t1) else stored
      | Some cols =>
          match infer_arbiter cols with
          | None =>
              (Raise (mk_exc ProgrammingError
                 "no unique constraint matching the ON CONFLICT specification"), t)
          | Some AnyConstraint =>
              if pair_clash || id_clash then (Ok 0, t1) else stored
          | Some PairConstraint =>
              if pair_clash then (Ok 0, t1)
              else if id_clash then (Raise integrity_error, t1)
              else stored
          | Some IdConstraint =>
              if id_clash then (Ok 0, t1)
              else if pair_clash then (Raise integrity_error, t1)
              else stored
          end
      end
  end.

(** *** The state that the program's code runs in *)

(** A call of a method of a job handle, with the [id] its data carries. *)
Inductive call :=
| CallClaim (id : option val)
| CallRelease (id : option val) (delay : Z)
| CallFinish (id : option val)
| CallAddStatus (id : option val) (text : string).

#[global] Instance call_eq_dec : EqDecision call.
Proof. solve_decision. Defined.

Inductive level := DEBUG | INFO | WARNING | ERROR.

#[global] Instance level_eq_dec : EqDecision level.
Proof. solve_decision. Defined.

Record world := World {
  db : table;                      (* the jobs table behind the connection *)
  clock : Z;                       (* what int(time.time()) returns *)
  uuid_src : nat → string;         (* the values uuid4() will return *)
  uuid_pos : nat;                  (* how many it has returned *)
  log : list (level * string);     (* what was sent to the logger *)
  journal : list call              (* the calls made on job handles *)
}.

Definition set_db (t : table) (w : world) : world :=
  World t (clock w) (uuid_src w) (uuid_pos w) (log w) (journal w).

(** [int(time.time())] *)
Definition time_time : M world Z := gets clock.

(** [str(uuid4())] *)
Definition uuid4 : M world string := λ w,
  (Ok (uuid_src w (uuid_pos w)),
   World (db w) (clock w) (uuid_src w) (S (uuid_pos w)) (log w) (journal w)).

Definition log_msg (l : level) (msg : string) : M world unit :=
  modify (λ w, World (db w) (clock w) (uuid_src w) (uuid_pos w)
                 (log w ++ [(l, msg)]) (journal w)).

Definition record (c : call) : M world unit :=
  modify (λ w, World (db w) (clock w) (uuid_src w) (uuid_pos w)
                 (log w) (journal w ++ [c])).

(** *** The methods of the [Database] class *)

Definition relation_error (table : string) : exc :=
  mk_exc ProgrammingError ("relation " +:+ table +:+ " does not exist").

(** [fetchall(query, replacements)] *)
Definition fetchall (q : select) : M world (list dict) :=
  gets (λ w, row_dict <$> sql_select q (db w)).

(** [fetchone(query, replacements)]: the first row, or [None]. *)
Definition fetchone (q : select) : M world (option dict) :=
  gets (λ w, head (row_dict <$> sql_select q (db w))).

(** The statements that [execute] is called with. *)
Inductive statement :=
| Update (sets : list (string * sql_expr)) (w : option sql_cond)
| Delete (w : option sql_cond).

(** [execute(query, replacements)], with the affected-row count that the
    cursor reports.  The methods of the class also send the text of each
    statement to the logger at DEBUG level, as the cursor renders it; that
    trace is left out: [log] holds the lines of the queue, the workers and
    the dispatcher. *)
Definition execute (q : statement) : M world Z := λ w,
  let '(t, n) := match q with
                 | Update sets c => sql_update sets c (db w)
                 | Delete c => sql_delete c (db w)
                 end in
  (Ok n, set_db t w).

(** [insert(table, data, safe=safe, constraints=constraints)]: with [safe]
    the statement ends in ON CONFLICT, followed by the columns of
    [constraints] in brackets when there are any, and DO NOTHING. *)
Definition insert (table : string) (data : dict) (safe : bool)
    (constraints : list string) : M world Z :=
  let safe_bit := if safe then Some constraints else None in
  if decide (table = "jobs") then lift db set_db (sql_insert data safe_bit)
  else raise (relation_error table).

(** *** [update] and [delete], which take their columns from dictionaries *)

Definition int_columns : list string :=
  ["id"; "timestamp"; "timestamp_after"; "timestamp_claimed"; "timestamp_lastclaimed";
   "interval"; "attempts"].

Definition text_columns : list string :=
  ["pythonfile"; "remote_id"; "details"; "status"].

(** The value [v] is of the kind of the column [c], which exists. *)
Definition fits_column (c : string) (v : val) : Prop :=
  match v with
  | VInt _ => c ∈ int_columns
  | VStr _ => c ∈ text_columns
  end.

#[global] Instance fits_column_dec c v : Decision (fits_column c v).
Proof. destruct v; simpl; apply _. Defined.

(** Every key of the dictionary is a column and holds a value of its kind.
    A statement with another column or with a value of the other kind is
    taken to be refused by the server. *)
Definition fits (d : dict) : Prop := map_Forall fits_column d.

#[global] Instance fits_dec d : Decision (fits d).
Proof. unfold fits. apply _. Defined.

(** [["{} = %s" for column in d]] with its identifiers and replacements, as
    the assignments of a SET clause and as the tests of a WHERE clause. *)
Definition assignments (d : dict) : list (string * sql_expr) :=
  (λ kv : string * val, (kv.1, Lit kv.2)) <$> map_to_list d.

Definition equalities (d : dict) : list sql_cond :=
  (λ kv : string * val, Eq (Col kv.1) (Lit kv.2)) <$> map_to_list d.

(** [" AND ".join(conds)]; there is none of an empty list. *)
Definition conjunction (conds : list sql_cond) : option sql_cond :=
  match conds with
  | [] => None
  | c :: conds' => Some (foldl And c conds')
  end.

Definition syntax_error : exc := mk_exc ProgrammingError "syntax error at end of input".

Definition data_error : exc := mk_exc (UserError "DataError") "bad column or value".

(** The two unique constraints hold of the rows. *)
Definition unique_keys (l : list row) : Prop :=
  NoDup (row_id <$> l) ∧ NoDup ((λ r, (pythonfile r, remote_id r)) <$> l).

#[global] Instance unique_keys_dec l : Decision (unique_keys l).
Proof. unfold unique_keys. apply _. Defined.

(** [update(table, data, where=where)]: [where] is [None] when the caller
    leaves it out.  The statement is UPDATE ... SET with one assignment per
    key of [data], followed by WHERE and the tests only when [where] has a
    key.  Without any assignment the statement ends after SET and does not
    parse.  As every assignment is of a literal, the server finds a unique
    constraint violated exactly when the rows as they would be violate it;
    it then changes nothing. *)
Definition update (table : string) (data : dict) (where_ : option dict) : M world Z :=
  let where_ := default ∅ where_ in
  if decide (data = ∅) then raise syntax_error
  else if decide (table = "jobs") then
    if decide (fits data ∧ fits where_) then
      λ w, let '(t, n) := sql_update (assignments data)
                            (conjunction (equalities where_)) (db w) in
           if decide (unique_keys (rows t)) then (Ok n, set_db t w)
           else (Raise integrity_error, w)
    else raise data_error
  else raise (relation_error table).

(** [delete(table, where)]: the statement is DELETE FROM ... WHERE followed
    by the tests; with an empty [where] it ends after WHERE and does not
    parse. *)
Definition delete (table : string) (where_ : dict) : M world Z :=
  if decide (where_ = ∅) then raise syntax_error
  else if decide (table = "jobs") then
    if decide (fits where_) then execute (Delete (conjunction (equalities where_)))
    else raise data_error
  else raise (relation_error table).

End Database.

Export Database.

(** ** Job handles ([job.py]) *)

Module Job.

(** A job handle: the in-memory copy of a row. *)
Record t := Make { data : dict }.

#[global] Instance t_eq_dec : EqDecision t.
Proof. solve_decision. Defined.

(** Modelled from the spec: [Job.get_by_data] of [job.py], which is not in
    the sources at hand.  A handle is made of the data it is given, the way
    [get_job] and [get_all_jobs] make one of each fetched row. *)
Definition get_by_data (d : dict) : t := Make d.

Definition where_id (id : val) : option sql_cond := Some (Eq (Col "id") (Lit id)).

(** Modelled from the spec: [Job.claim] of [job.py].  Atomic update
    [timestamp_claimed = now, timestamp_lastclaimed = now, attempts += 1
    WHERE id = self.id AND timestamp_claimed = 0]; if zero rows are
    affected, raise JobClaimed; on success, the in-memory copy is
    refreshed. *)
Definition claim (j : t) : M world t :=
  record (CallClaim (data j !! "id"));;
  id ← getitem (data j) "id";
  now ← time_time;
  n ← execute (Update [("timestamp_claimed", Lit (VInt now));
                       ("timestamp_lastclaimed", Lit (VInt now));
                       ("attempts", Plus (Col "attempts") (Lit (VInt 1)))]
                 (Some (And (Eq (Col "id") (Lit id))
                            (Eq (Col "timestamp_claimed") (Lit (VInt 0))))));
  if decide (n = 0) then raise (mk_exc JobClaimedException "")
  else
    fresh ← fetchone (Select (where_id id) false true);
    ret (Make (default (data j) fresh)).

(** Modelled from the spec: [Job.finish] of [job.py].  For [interval == 0],
    delete the row; for [interval > 0], set [timestamp_claimed = 0,
    timestamp_lastclaimed = now]. *)
Definition finish (j : t) : M world unit :=
  record (CallFinish (data j !! "id"));;
  id ← getitem (data j) "id";
  iv ← getint (data j) "interval";
  now ← time_time;
  (if decide (iv = 0) then execute (Delete (where_id id))
   else execute (Update [("timestamp_claimed", Lit (VInt 0));
                         ("timestamp_lastclaimed", Lit (VInt now))]
                   (where_id id)));;
  ret tt.

(** Modelled from the spec: [Job.release] of [job.py].  Set
    [timestamp_claimed = 0, timestamp_after = now + delay]. *)
Definition release (j : t) (delay : Z) : M world unit :=
  record (CallRelease (data j !! "id") delay);;
  id ← getitem (data j) "id";
  now ← time_time;
  execute (Update [("timestamp_claimed", Lit (VInt 0));
                   ("timestamp_after", Lit (VInt (now + delay)))]
             (where_id id));;
  ret tt.

Definition newline : string := String (Ascii.ascii_of_nat 10) "".

(** Modelled from the spec: [Job.add_status] of [job.py].  Append a line
    (with timestamp) to [status]. *)
Definition add_status (j : t) (text : string) : M world unit :=
  record (CallAddStatus (data j !! "id") text);;
  id ← getitem (data j) "id";
  now ← time_time;
  execute (Update [("status",
                    Concat (Col "status")
                      (Lit (VStr (pretty now +:+ " " +:+ text +:+ newline))))]
             (where_id id));;
  ret tt.

End Job.

(** ** The job queue ([queue.py]) *)

Module JobQueue.

Definition int (n : Z) : sql_expr := Lit (VInt n).
Definition str (s : string) : sql_expr := Lit (VStr s).

(** [timestamp_claimed = 0 AND timestamp_after < %s
     AND (interval = 0 OR timestamp_lastclaimed + interval < %s)],
    both [%s] replaced by [now]. *)
Definition claimable (now : Z) : sql_cond :=
  And (And (Eq (Col "timestamp_claimed") (int 0))
           (Lt (Col "timestamp_after") (int now)))
      (Or (Eq (Col "interval") (int 0))
          (Lt (Plus (Col "timestamp_lastclaimed") (Col "interval")) (int now))).

(** A dictionary counts as true when it has a key. *)
Definition truthy (d : dict) : bool := bool_decide (d ≠ ∅).

Definition get_job (pythonfile : string) (timestamp : Z)
    : M world (option Job.t) :=
  timestamp ← (if decide (timestamp < 0) then time_time else ret timestamp);
  job ← fetchone (Select (Some (And (Eq (Col "pythonfile") (str pythonfile))
                                    (claimable timestamp)))
                    true true);
  ret (match job with
       | Some d => if truthy d then Some (Job.get_by_data d) else None
       | None => None
       end).

Definition is_programming_error (e : exc) : bool :=
  bool_decide (e_class e = ProgrammingError).

(** What [if remote_id] and [if not remote_id] test: an argument that was
    left out ([None] here, for the defaults [False] and [None]) and an
    empty string both count as false. *)
Definition given (remote_id : option string) : option string :=
  match remote_id with
  | Some rid => if decide (rid = "") then None else Some rid
  | None => None
  end.

(** The [filter] of [get_all_jobs]: [WHERE remote_id = %s],
    [WHERE pythonfile = %s] or [WHERE pythonfile != '']. *)
Definition selection (pythonfile : string) (remote_id : option string) : sql_cond :=
  match given remote_id with
  | Some rid => Eq (Col "remote_id") (str rid)
  | None =>
      if decide (pythonfile ≠ "*") then Eq (Col "pythonfile") (str pythonfile)
      else Ne (Col "pythonfile") (str "")
  end.

Definition get_all_jobs (pythonfile : string) (remote_id : option string)
    (restrict_claimable : bool) : M world (list Job.t) :=
  let filter_ := selection pythonfile remote_id in
  query ← (if restrict_claimable then now ← time_time; ret (And filter_ (claimable now))
           else ret filter_);
  jobs ← try_except (fetchall (Select (Some query) true false))
            is_programming_error (λ _, ret []);
  ret (Job.get_by_data <$> filter (λ job, truthy job) jobs).

Definition get_job_count (pythonfile : string) : M world Z :=
  let w := if decide (pythonfile = "*") then None
           else Some (Eq (Col "pythonfile") (str pythonfile)) in
  gets (λ s, Z.of_nat (length (sql_select (Select w false false) (db s)))).

(** The dictionary [data] of [add_job]. *)
Definition job_data (pythonfile details : string) (now : Z) (remote_id : string)
    (claim_after interval : Z) : dict :=
  <["pythonfile" := VStr pythonfile]> (
  <["details" := VStr details]> (
  <["timestamp" := VInt now]> (
  <["timestamp_claimed" := VInt 0]> (
  <["timestamp_lastclaimed" := VInt 0]> (
  <["remote_id" := VStr remote_id]> (
  <["timestamp_after" := VInt claim_after]> (
  <["interval" := VInt interval]> (
  <["attempts" := VInt 0]> ∅)))))))).

(** [details] is the text that [json.dumps(details)] returns; [remote_id]
    is [None] when the caller leaves it out. *)
Definition add_job (pythonfile : string) (details : string)
    (remote_id : option string) (claim_after interval : Z) : M world Job.t :=
  remote_id ← (match given remote_id with
               | Some rid => ret rid
               | None => uuid4
               end);
  now ← time_time;
  let data := job_data pythonfile details now remote_id claim_after interval in
  insert "jobs" data true ["pythonfile"; "remote_id"];;
  ret (Job.get_by_data data).

Definition release_all : M world unit :=
  execute (Update [("timestamp_claimed", int 0)] None);;
  ret tt.

Definition get_place_in_queue (job : Job.t) : M world Z :=
  claimed ← getint (Job.data job) "timestamp_claimed";
  if decide (claimed > 0) then ret 0
  else
    pythonfile ← getstr (Job.data job) "pythonfile";
    all_queued ← get_all_jobs pythonfile None true;
    our_timestamp ← getint (Job.data job) "timestamp";
    ahead ← filter_m (λ queued_job,
               ts ← getint (Job.data queued_job) "timestamp";
               if decide (ts < our_timestamp) then ret true
               else
                 tc ← getint (Job.data queued_job) "timestamp_claimed";
                 ret (bool_decide (tc > 0)))
             all_queued;
    ret (Z.of_nat (length ahead)).

End JobQueue.

(** ** The facade ([scheduler.py]) *)

Module Scheduler.

Definition has_jobs : M world bool :=
  jobs ← JobQueue.get_all_jobs "*" None true;
  ret (bool_decide (Z.of_nat (length jobs) > 0)).

End Scheduler.

(** ** String operations of Python that the program uses *)

Module Str.

(** [sep.join(l)] *)
Definition join (sep : string) (l : list string) : string := String.concat sep l.

(** [s.split("/")] *)
Fixpoint split_slash (cur : string) (s : string) : list string :=
  match s with
  | EmptyString => [cur]
  | String c s' =>
      if Ascii.eqb c "/"%char then cur :: split_slash EmptyString s'
      else split_slash (cur +:+ String c EmptyString) s'
  end.

(** [s.split("/").pop()] *)
Definition last_of_path (s : string) : string :=
  default EmptyString (last (split_slash EmptyString s)).

(** [s.replace("-", "_")] *)
Fixpoint dash_to_underscore (s : string) : string :=
  match s with
  | EmptyString => EmptyString
  | String c s' => String (if Ascii.eqb c "-"%char then "_"%char else c) (dash_to_underscore s')
  end.

Definition between (lo hi c : Ascii.ascii) : bool :=
  (Ascii.nat_of_ascii lo <=? Ascii.nat_of_ascii c)%nat
  && (Ascii.nat_of_ascii c <=? Ascii.nat_of_ascii hi)%nat.

(** The characters of the class [[0-9a-zA-Z._]] *)
Definition word_char (c : Ascii.ascii) : bool :=
  between "0"%char "9"%char c || between "a"%char "z"%char c
  || between "A"%char "Z"%char c
  || Ascii.eqb c "."%char || Ascii.eqb c "_"%char.

(** [re.sub(r"[^0-9a-zA-Z._]", "", s)] *)
Fixpoint keep_word_chars (s : string) : string :=
  match s with
  | EmptyString => EmptyString
  | String c s' =>
      if word_char c then String c (keep_word_chars s') else keep_word_chars s'
  end.

(** [re.sub(r"\.+", ".", s)] *)
Fixpoint squeeze_dots (s : string) : string :=
  match s with
  | EmptyString => EmptyString
  | String c s' =>
      match s' with
      | String c' _ =>
          if Ascii.eqb c "."%char && Ascii.eqb c' "."%char then squeeze_dots s'
          else String c (squeeze_dots s')
      | EmptyString => String c EmptyString
      end
  end.

(** [re.sub(r"^\.+", "", s)] *)
Fixpoint strip_leading_dots (s : string) : string :=
  match s with
  | EmptyString => EmptyString
  | String c s' => if Ascii.eqb c "."%char then strip_leading_dots s' else s
  end.

Definition lower_char (c : Ascii.ascii) : Ascii.ascii :=
  if between "A"%char "Z"%char c then Ascii.ascii_of_nat (Ascii.nat_of_ascii c + 32) else c.

(** [s.lower()], on the ASCII letters *)
Fixpoint lower (s : string) : string :=
  match s with
  | EmptyString => EmptyString
  | String c s' => String (lower_char c) (lower s')
  end.

(** [Path(s).parts] for an absolute path: the root, then the names. *)
Definition parts (s : string) : list string :=
  let names := filter (λ n, n ≠ EmptyString) (split_slash EmptyString s) in
  match s with
  | String c _ => if Ascii.eqb c "/"%char then "/" :: names else names
  | EmptyString => names
  end.

End Str.

(** ** Workers ([worker.py]) *)

Module Worker.

Definition INTERRUPT_NONE : Z := 0.
Definition INTERRUPT_RETRY : Z := 1.
Definition INTERRUPT_CANCEL : Z := 2.

(** What a worker class fixes: its [type], its [max_workers], and whether
    its instances have a [request_abort] method (those of every class
    deriving from [BasicWorker] do). *)
Record class := Class {
  type : string;
  max_workers : Z;
  has_request_abort : bool
}.

#[global] Instance class_eq_dec : EqDecision class.
Proof. solve_decision. Defined.

(** The attributes of a worker object that the scaffold uses. *)
Record obj := Obj {
  cls : class;
  job : Job.t;
  interrupted : Z
}.

(** The state that the thread of one worker runs in: the world it shares
    with the other threads, and the worker object, which other threads
    reach as well. *)
Record state := State {
  env : world;
  self : obj
}.

Definition set_env (w : world) (s : state) : state := State w (self s).

Definition on_job {A} (f : Job.t → M world A) : M state A :=
  j ← gets (λ s, job (self s)); lift env set_env (f j).

Definition log_info (msg : string) : M state unit :=
  lift env set_env (log_msg INFO msg).

Definition log_error (msg : string) : M state unit :=
  lift env set_env (log_msg ERROR msg).

(** [request_abort(level=1)]; [level] is [None] when the caller leaves it
    out. *)
Definition request_abort (level : option Z) (o : obj) : obj :=
  Obj (cls o) (job o) (default 1 level).

(** [abort()], which a worker class may override; by default it does
    nothing. *)
Definition abort : M state unit := ret tt.

(** [after_work()] *)
Definition after_work : M state unit := on_job Job.finish.

Definition is_interrupt (e : exc) : bool :=
  bool_decide (e_class e = WorkerInterruptedException).

(** [frame.filename.split("/").pop() + ":" + str(frame.lineno)] *)
Definition frame_label (f : frame) : string :=
  Str.last_of_path (filename f) +:+ ":" +:+ pretty (lineno f).

Definition crash_message (type : string) (e : exc) : string :=
  let frames := frame_label <$> e_tb e in
  let location := Str.join "->" frames in
  "Worker " +:+ type +:+ " raised exception " +:+ class_name (e_class e)
    +:+ " and will abort: " +:+ e_str e +:+ " at " +:+ location.

(** [run()], for a worker whose [work()] is [work].  The first handler is
    that of [except WorkerInterruptedException], the second that of
    [except Exception].  An exception that neither catches leaves [run()]
    there and then: [after_work()] is not reached. *)
Definition run (work : M state unit) : M state unit :=
  try_except work derives_from_exception (λ e,
    if is_interrupt e then
      type ← gets (λ s, type (cls (self s)));
      log_info ("Worker " +:+ type +:+ " interrupted");;
      flag ← gets (λ s, interrupted (self s));
      (if decide (flag = INTERRUPT_RETRY) then on_job (λ j, Job.release j 10)
       else if decide (flag = INTERRUPT_CANCEL) then on_job Job.finish
       else ret tt);;
      abort
    else
      type ← gets (λ s, type (cls (self s)));
      log_error (crash_message type e);;
      on_job (λ j, Job.add_status j "Crash during execution"));;
  after_work.

End Worker.

(** ** The dispatcher ([manager.py]) *)

Module Manager.

(** A worker thread as the dispatcher sees it: the worker object, which
    thread it is, and what [is_alive()] returns. *)
Record worker := Worker {
  ident : nat;
  alive : bool;
  object : Worker.obj
}.

(** What the dispatcher does to worker threads. *)
Inductive event :=
| Started (id : nat)                     (* worker.start() *)
| Joined (id : nat)                      (* worker.join() *)
| AbortRequested (id : nat) (level : Z)  (* worker.request_abort(...) *)
| AbortCalled (id : nat).                (* worker.abort() *)

#[global] Instance event_eq_dec : EqDecision event.
Proof. solve_decision. Defined.

(** A member of a loaded module, as [inspect] describes it. *)
Record member := Member {
  name : string;
  isclass : bool;
  is_worker : bool;            (* issubclass(member, BasicWorker) *)
  isabstract : bool;
  as_class : Worker.class
}.

(** A module: its members in the order of [inspect.getmembers]. *)
Abbreviation module := (list member).

(** The pool: a dictionary, in the order in which its keys were added. *)
Abbreviation pool := (list (string * list worker)).

Record state := State {
  env : world;
  looping : bool;
  worker_map : gmap string Worker.class;    (* _worker_map *)
  worker_pool : pool;                       (* _worker_pool *)
  sys_modules : gmap string module;         (* sys.modules *)
  files : gmap string module;               (* the files that exist, and what they define *)
  events : list event;
  threads : nat                             (* worker threads created so far *)
}.

Definition set_env (w : world) (s : state) : state :=
  State w (looping s) (worker_map s) (worker_pool s) (sys_modules s) (files s)
    (events s) (threads s).

Definition set_looping (b : bool) (s : state) : state :=
  State (env s) b (worker_map s) (worker_pool s) (sys_modules s) (files s)
    (events s) (threads s).

Definition set_worker_map (m : gmap string Worker.class) (s : state) : state :=
  State (env s) (looping s) m (worker_pool s) (sys_modules s) (files s)
    (events s) (threads s).

Definition set_worker_pool (p : pool) (s : state) : state :=
  State (env s) (looping s) (worker_map s) p (sys_modules s) (files s)
    (events s) (threads s).

Definition set_sys_modules (m : gmap string module) (s : state) : state :=
  State (env s) (looping s) (worker_map s) (worker_pool s) m (files s)
    (events s) (threads s).

Definition emit (evs : list event) (s : state) : state :=
  State (env s) (looping s) (worker_map s) (worker_pool s) (sys_modules s) (files s)
    (events s ++ evs) (threads s).

Definition set_threads (n : nat) (s : state) : state :=
  State (env s) (looping s) (worker_map s) (worker_pool s) (sys_modules s) (files s)
    (events s) n.

Definition on_env {A} (m : M world A) : M state A := lift env set_env m.

(** [pool[t]] and [pool[t] = ws] *)
Fixpoint pool_get (t : string) (p : pool) : option (list worker) :=
  match p with
  | [] => None
  | (k, ws) :: p' => if decide (k = t) then Some ws else pool_get t p'
  end.

Fixpoint pool_set (t : string) (ws : list worker) (p : pool) : pool :=
  match p with
  | [] => [(t, ws)]
  | (k, v) :: p' => if decide (k = t) then (k, ws) :: p' else (k, v) :: pool_set t ws p'
  end.

(** [time.sleep(seconds)]: the clock is moved by the passing of time, which
    is a step of its own below. *)
Definition sleep : M state unit := ret tt.

(** The path is taken to be absolute and free of links already, so that
    [resolve()] returns it as it is. *)
Definition get_worker_type_for_file (pythonfile : string) : string :=
  let worker_type :=
    Str.keep_word_chars (Str.dash_to_underscore (Str.join "." (Str.parts pythonfile))) in
  let worker_type := Str.squeeze_dots worker_type in
  Str.lower (Str.strip_leading_dots worker_type).

(** The test of the loop over the members of the module. *)
Definition instantiable (m : member) : bool :=
  bool_decide (String.substring 0 2 (name m) ≠ "__")
  && isclass m && is_worker m && negb (isabstract m).

Definition file_not_found (path : string) : exc :=
  mk_exc (UserError "FileNotFoundError") path.

(** [get_worker_for_file(pythonfile)].  A file that exists is taken to load:
    executing it raises nothing and yields the members that [files] gives
    for it. *)
Definition get_worker_for_file (pythonfile : string)
    : M state (option Worker.class) :=
  let worker_type := get_worker_type_for_file pythonfile in
  cached ← gets (λ s, worker_map s !! worker_type);
  match cached with
  | Some c => ret (Some c)
  | None =>
      loaded ← gets (λ s, sys_modules s !! worker_type);
      (match loaded with
       | Some _ => ret tt
       | None =>
           file ← gets (λ s, files s !! pythonfile);
           match file with
           | Some worker_module =>
               modify (λ s, set_sys_modules (<[worker_type := worker_module]> (sys_modules s)) s)
           | None => raise (file_not_found pythonfile)
           end
       end);;
      members ← gets (λ s, default [] (sys_modules s !! worker_type));
      match find instantiable members with
      | Some component =>
          modify (λ s, set_worker_map (<[worker_type := as_class component]> (worker_map s)) s);;
          ret (Some (as_class component))
      | None => ret None
      end
  end.

(** [l.remove(w)]: the first element that is [w] goes; two worker objects
    are the same when they are the same thread. *)
Fixpoint remove_first (id : nat) (l : list worker) : list worker :=
  match l with
  | [] => []
  | w :: l' => if decide (ident w = id) then l' else w :: remove_first id l'
  end.

(** [for worker in all_workers: if not worker.is_alive(): worker.join();
    all_workers.remove(worker)], from position [i] on.  The list is
    changed while the loop walks it by position, so the worker that follows
    a removed one is passed over.  [fuel] bounds the number of rounds. *)
Fixpoint reap_from (fuel i : nat) (l : list worker) : list worker * list event :=
  match fuel with
  | O => (l, [])
  | S fuel' =>
      match l !! i with
      | None => (l, [])
      | Some w =>
          if alive w then reap_from fuel' (S i) l
          else
            let '(l', evs) := reap_from fuel' (S i) (remove_first (ident w) l) in
            (l', Joined (ident w) :: evs)
      end
  end.

Definition reap_list (l : list worker) : list worker * list event :=
  reap_from (length l) 0 l.

(** The clean-up loop of [delegate] over the keys of the pool. *)
Fixpoint reap_pool (p : pool) : pool * list event :=
  match p with
  | [] => ([], [])
  | (pythonfile, all_workers) :: p' =>
      let '(ws, evs) := reap_list all_workers in
      let '(p'', evs') := reap_pool p' in
      ((pythonfile, ws) :: p'', evs ++ evs')
  end.

Definition is_job_claimed (e : exc) : bool :=
  bool_decide (e_class e = JobClaimedException).

(** [worker = worker_class(logger=..., manager=self, job=job);
    worker.start(); self._worker_pool[worker_type].append(worker)] *)
Definition start_worker (worker_type : string) (worker_class : Worker.class)
    (job : Job.t) : M state unit :=
  modify (λ s,
    let worker := Worker (threads s) true (Worker.Obj worker_class job 0) in
    let running := default [] (pool_get worker_type (worker_pool s)) in
    set_worker_pool (pool_set worker_type (running ++ [worker]) (worker_pool s))
      (emit [Started (threads s)] (set_threads (S (threads s)) s))).

(** The body of the loop of [delegate] over the fetched jobs. *)
Definition dispatch (job : Job.t) : M state unit :=
  pythonfile ← getstr (Job.data job) "pythonfile";
  file ← gets (λ s, files s !! pythonfile);
  if bool_decide (file = None) then
    on_env (Job.add_status job "Job script does not exist. Cancelling.");;
    on_env (Job.finish job)
  else
    worker_class ← get_worker_for_file pythonfile;
    let worker_type := get_worker_type_for_file pythonfile in
    match worker_class with
    | None => ret tt
    | Some worker_class =>
        modify (λ s, match pool_get worker_type (worker_pool s) with
                     | None => set_worker_pool (pool_set worker_type [] (worker_pool s)) s
                     | Some _ => s
                     end);;
        running ← gets (λ s, default [] (pool_get worker_type (worker_pool s)));
        if decide (Z.of_nat (length running) >= Worker.max_workers worker_class)
        then ret tt
        else
          try_except
            (claimed ← on_env (Job.claim job);
             start_worker worker_type worker_class claimed)
            is_job_claimed (λ _, ret tt)
    end.

Definition num_active (p : pool) : Z :=
  foldr Z.add 0 ((λ kv : string * list worker, Z.of_nat (length kv.2)) <$> p).

Definition delegate : M state unit :=
  jobs ← on_env (JobQueue.get_all_jobs "*" None true);
  active ← gets (λ s, num_active (worker_pool s));
  on_env (log_msg DEBUG ("Running workers: " +:+ pretty active));;
  modify (λ s, let '(p, evs) := reap_pool (worker_pool s) in
               emit evs (set_worker_pool p s));;
  for_each jobs dispatch;;
  sleep.

(** [if hasattr(worker, "request_abort"): worker.request_abort()
    else: worker.abort()] *)
Definition stop_worker (w : worker) : worker * event :=
  if Worker.has_request_abort (Worker.cls (object w)) then
    let o := Worker.request_abort None (object w) in
    (Worker (ident w) (alive w) o, AbortRequested (ident w) (Worker.interrupted o))
  else (w, AbortCalled (ident w)).

(** [worker.join()]: it returns once the thread has ended. *)
Definition join_worker (w : worker) : worker * event := (w, Joined (ident w)).

(** A loop over every worker of every key of the pool. *)
Definition for_workers (f : worker → worker * event) (p : pool) : pool * list event :=
  ((λ kv : string * list worker, (kv.1, (λ w, (f w).1) <$> kv.2)) <$> p,
   mjoin ((λ kv : string * list worker, (λ w, (f w).2) <$> kv.2) <$> p)).

Definition waiting_messages (p : pool) : list (level * string) :=
  mjoin ((λ kv : string * list worker,
            (λ _, (INFO, "Waiting for worker " +:+ kv.1 +:+ "...")) <$> kv.2) <$> p).

(** The first loop of [run] after [while self.looping]. *)
Definition stop_workers : M state unit :=
  on_env (log_msg INFO "Telling all workers to stop doing whatever they're doing...");;
  modify (λ s, let '(p, evs) := for_workers stop_worker (worker_pool s) in
               emit evs (set_worker_pool p s)).

(** The second loop, and the end of [run]. *)
Definition join_workers : M state unit :=
  on_env (log_msg INFO "Waiting for all workers to finish...");;
  p ← gets worker_pool;
  on_env (for_each (waiting_messages p) (λ m, log_msg m.1 m.2));;
  modify (λ s, let '(p, evs) := for_workers join_worker (worker_pool s) in
               emit evs (set_worker_pool p s));;
  sleep;;
  on_env (log_msg INFO "Bye!").

(** Whether a worker thread is still running. *)
Definition any_alive (p : pool) : bool :=
  existsb (λ kv : string * list worker, existsb alive kv.2) p.

(** [abort()] *)
Definition abort : M state unit :=
  on_env (log_msg INFO "Ending main loop");;
  modify (set_looping false).

(** [for worker in ws: if worker.job.data["id"] == id:
    worker.request_abort(level); return] *)
Fixpoint interrupt_first (id : val) (level : Z) (ws : list worker)
    : M state (list worker) :=
  match ws with
  | [] => ret []
  | w :: ws' =>
      wid ← getitem (Job.data (Worker.job (object w))) "id";
      if decide (wid = id) then
        ret (Worker (ident w) (alive w) (Worker.request_abort (Some level) (object w)) :: ws')
      else
        rest ← interrupt_first id level ws';
        ret (w :: rest)
  end.

Definition request_interrupt (job : Job.t) (interrupt_level : Z) : M state unit :=
  pythonfile ← getstr (Job.data job) "pythonfile";
  found ← gets (λ s, pool_get pythonfile (worker_pool s));
  match found with
  | None => ret tt
  | Some ws =>
      match ws with
      | [] => ret tt
      | _ :: _ =>
          id ← getitem (Job.data job) "id";
          ws' ← interrupt_first id interrupt_level ws;
          modify (λ s, set_worker_pool (pool_set pythonfile ws' (worker_pool s)) s)
      end
  end.

(** *** The dispatcher thread among the other threads

    [run] is [while self.looping: self.delegate()] followed by the stopping
    of the workers.  The thread is at one of the places below, and the
    other threads act between its steps. *)

Inductive place :=
| LoopTest                     (* about to evaluate [self.looping] *)
| Delegate                     (* about to call [self.delegate()] *)
| Stopping                     (* the loop has ended *)
| Joining                      (* the workers were told to stop *)
| Returned                     (* [run] has returned *)
| Died (e : exc).              (* an exception has left [run] *)

#[global] Instance place_eq_dec : EqDecision place.
Proof. solve_decision. Defined.

Record config := Config { at_ : place; st : state }.

Definition after {A} (next : place) (x : res A * state) : config :=
  match x.1 with
  | Ok _ => Config next x.2
  | Raise e => Config (Died e) x.2
  end.

(** One step of [run].  The joins wait: the thread stays where it is
    while a worker is running. *)
Definition run_step (c : config) : config :=
  match at_ c with
  | LoopTest => Config (if looping (st c) then Delegate else Stopping) (st c)
  | Delegate => after LoopTest (delegate (st c))
  | Stopping => after Joining (stop_workers (st c))
  | Joining =>
      if any_alive (worker_pool (st c)) then c
      else after Returned (join_workers (st c))
  | Returned => c
  | Died _ => c
  end.

(** What a worker thread does from [start()] to its end: [Worker.run],
    on the world that all threads share. *)
Fixpoint run_worker (id : nat) (work : M Worker.state unit) (ws : list worker)
    (w : world) : list worker * world :=
  match ws with
  | [] => ([], w)
  | x :: ws' =>
      if decide (ident x = id) then
        let s := (Worker.run work (Worker.State w (object x))).2 in
        (Worker (ident x) false (Worker.self s) :: ws', Worker.env s)
      else
        let '(ws'', w') := run_worker id work ws' w in (x :: ws'', w')
  end.

Fixpoint run_worker_in (id : nat) (work : M Worker.state unit) (p : pool)
    (w : world) : pool * world :=
  match p with
  | [] => ([], w)
  | (k, ws) :: p' =>
      if bool_decide (Exists (λ x, ident x = id) ws) then
        let '(ws', w') := run_worker id work ws w in ((k, ws') :: p', w')
      else
        let '(p'', w') := run_worker_in id work p' w in ((k, ws) :: p'', w')
  end.

(** The steps of the threads. *)
Inductive action :=
| Run                                          (* the dispatcher: one step of [run] *)
| Abort                                        (* a thread calls [abort()] *)
| AddJob (pythonfile details : string) (remote_id : option string)
    (claim_after interval : Z)                 (* a thread calls [queue.add_job] *)
| RequestInterrupt (job : Job.t) (level : Z)   (* a thread calls [request_interrupt] *)
| WorkerRuns (id : nat) (work : M Worker.state unit)
                                               (* a started worker runs to its end *)
| Tick (dt : Z).                               (* time passes *)

Definition advance (dt : Z) (w : world) : world :=
  World (db w) (clock w + dt) (uuid_src w) (uuid_pos w) (log w) (journal w).

Definition exec (a : action) (c : config) : config :=
  match a with
  | Run => run_step c
  | Abort => Config (at_ c) (abort (st c)).2
  | AddJob pythonfile details remote_id claim_after interval =>
      Config (at_ c)
        (on_env (JobQueue.add_job pythonfile details remote_id claim_after interval)
           (st c)).2
  | RequestInterrupt job level => Config (at_ c) (request_interrupt job level (st c)).2
  | WorkerRuns id work =>
      let '(p, w) := run_worker_in id work (worker_pool (st c)) (env (st c)) in
      Config (at_ c) (set_env w (set_worker_pool p (st c)))
  | Tick dt => Config (at_ c) (set_env (advance dt (env (st c))) (st c))
  end.

Definition exec_all (sched : list action) (c : config) : config :=
  foldl (λ c a, exec a c) c sched.

(** A manager that has just been made, on the world [w] with the files
    [fs]. *)
Definition init (w : world) (fs : gmap string module) : config :=
  Config LoopTest (State w true ∅ [] ∅ fs [] 0).

End Manager.

(** ** Reconnecting to the database ([dmi_scheduler/database.py]) *)

Module Reconnect.

(** What one attempt of [reconnect] does, the body of its [try]:
    [psycopg2.connect] and then [cursor] on the connection it returned.  The
    two go through, or one of them raises. *)
Inductive attempt :=
| Connects
| Fails (e : exc).

(** The server and the network are outside the program: [outcome n] is what
    the [n]-th call of [connect] does.  [calls] counts the calls so far,
    [slept] the seconds spent in [time.sleep], and [connections] the
    connections made. *)
Record state := State {
  outcome : nat → attempt;
  calls : nat;
  slept : Z;
  connections : nat;
  log : list (level * string)
}.

Definition interface_error (msg : string) : exc := mk_exc (UserError "InterfaceError") msg.
Definition operational_error (msg : string) : exc :=
  mk_exc (UserError "OperationalError") msg.

(** [except (psycopg2.InterfaceError, psycopg2.OperationalError)] *)
Definition is_connection_error (e : exc) : bool :=
  bool_decide (e_class e = UserError "InterfaceError"
               ∨ e_class e = UserError "OperationalError").

(** [self.connection = psycopg2.connect(...)] and the cursor made of it *)
Definition connect : M state unit := λ s,
  match outcome s (calls s) with
  | Connects =>
      (Ok tt, State (outcome s) (S (calls s)) (slept s) (S (connections s)) (log s))
  | Fails e =>
      (Raise e, State (outcome s) (S (calls s)) (slept s) (connections s) (log s))
  end.

(** [time.sleep(seconds)], which refuses a negative length *)
Definition sleep (seconds : Z) : M state unit :=
  if decide (seconds < 0) then
    raise (mk_exc (UserError "ValueError") "sleep length must be non-negative")
  else
    modify (λ s, State (outcome s) (calls s) (slept s + seconds) (connections s) (log s)).

Definition log_msg (l : level) (msg : string) : M state unit :=
  modify (λ s, State (outcome s) (calls s) (slept s) (connections s) (log s ++ [(l, msg)])).

(** [raise error], where [error] may still be [None] *)
Definition raise_error (error : option exc) : M state unit :=
  match error with
  | Some e => raise e
  | None => raise (mk_exc TypeError "exceptions must derive from BaseException")
  end.

(** The loop of [reconnect] with [n] rounds to go, and what follows it.  A
    round that connects returns from [reconnect]. *)
Fixpoint rounds (n : nat) (tries wait : Z) (error : option exc) : M state unit :=
  match n with
  | O =>
      log_msg ERROR ("Failed to reconnect to database after " +:+ pretty tries +:+ " tries");;
      raise_error error
  | S n' =>
      failed ← try_except (connect;; ret None) is_connection_error (λ e,
                 log_msg WARNING ("Database connection closed. Reconnecting..."
                                  +:+ Job.newline +:+ e_str e);;
                 sleep wait;;
                 ret (Some e));
      match failed with
      | None => ret tt
      | Some e => rounds n' tries wait (Some e)
      end
  end.

(** [reconnect(tries=tries, wait=wait)] *)
Definition reconnect (tries wait : Z) : M state unit :=
  rounds (Z.to_nat tries) tries wait None.

End Reconnect.

(** ** Getting a cursor ([dmi_scheduler/database.py]) *)

Module Cursor.

(** What a call of [self.connection.cursor(...)] does: it returns a cursor
    or raises. *)
Inductive made :=
| Made
| NotMade (e : exc).

(** [get_cursor] calls [cursor] at two places of its own, before and after
    it reconnects.  [cursor_calls] counts these calls, and [cursor_outcome n]
    is what the [n]-th of them does, on whichever connection it is made.
    The call of [cursor] inside [reconnect] belongs to the attempt it is
    made in: an attempt calls it once or, when [psycopg2.connect] raises,
    not at all. *)
Record state := State {
  conn : Reconnect.state;
  cursor_outcome : nat → made;
  cursor_calls : nat
}.

Definition set_conn (c : Reconnect.state) (s : state) : state :=
  State c (cursor_outcome s) (cursor_calls s).

(** [self.connection.cursor(cursor_factory=psycopg2.extras.RealDictCursor)] *)
Definition cursor : M state unit := λ s,
  let s' := State (conn s) (cursor_outcome s) (S (cursor_calls s)) in
  match cursor_outcome s (cursor_calls s) with
  | Made => (Ok tt, s')
  | NotMade e => (Raise e, s')
  end.

(** [get_cursor()] *)
Definition get_cursor : M state unit :=
  try_except cursor Reconnect.is_connection_error (λ e,
    lift conn set_conn
      (Reconnect.log_msg WARNING
         ("Database Exception: " +:+ e_str e +:+ Job.newline
          +:+ "Reconnecting and retrying query..."));;
    lift conn set_conn (Reconnect.reconnect 3 10);;
    cursor).

End Cursor.

(** ** What the specification says, in its own words *)

Module Spec.

(** A job is eligible iff [timestamp_claimed == 0] AND
    [timestamp_after < now] AND ([interval == 0] OR
    [timestamp_lastclaimed + interval < now]). *)
Definition eligible (now : Z) (r : row) : Prop :=
  timestamp_claimed r = 0
  ∧ timestamp_after r < now
  ∧ (interval r = 0 ∨ timestamp_lastclaimed r + interval r < now).

#[global] Instance eligible_dec now r : Decision (eligible now r).
Proof. unfold eligible. apply _. Defined.

(** The rows that the arguments of [get_all_jobs] select: those of a remote
    id when one is given, else those of a type, else, for the type ["*"],
    those of any type but the empty one. *)
Definition selects (pf : string) (rid : option string) (r : row) : Prop :=
  match JobQueue.given rid with
  | Some x => remote_id r = x
  | None => if decide (pf ≠ "*") then pythonfile r = pf else pythonfile r ≠ ""
  end.

(** The WHERE clause of [get_all_jobs]. *)
Definition where_of (pf : string) (rid : option string) (restrict : bool) (now : Z)
    : sql_cond :=
  if restrict then And (JobQueue.selection pf rid) (JobQueue.claimable now)
  else JobQueue.selection pf rid.

(** The time that [get_job] compares with: its argument, or the current
    time when the argument is negative. *)
Definition time_of (timestamp : Z) (w : world) : Z :=
  if decide (timestamp < 0) then clock w else timestamp.

(** The eligible jobs of the type [pf] at the time [now], in storage
    order. *)
Definition eligible_of (pf : string) (now : Z) (t : table) : list row :=
  filter (λ r, pythonfile r = pf ∧ eligible now r) (rows t).

(** Ascending in [timestamp], without ties. *)
Definition earlier (r1 r2 : row) : Prop := timestamp r1 < timestamp r2.

(** The handle made of a fetched row. *)
Definition handle (r : row) : Job.t := Job.get_by_data (row_dict r).

(** The pair that identifies a job. *)
Definition pair_of (r : row) : string * string := (pythonfile r, remote_id r).

(** The rows of the table that carry the pair [(pythonfile, remote_id)]. *)
Definition with_pair (pf rid : string) (t : table) : list row :=
  filter (λ r, pair_of r = (pf, rid)) (rows t).

(** The table obeys its schema: [(pythonfile, remote_id)] is unique, and
    no [id] is ahead of the sequence that hands them out. *)
Definition well_formed (t : table) : Prop :=
  NoDup (pair_of <$> rows t) ∧ Forall (λ r, row_id r ≤ seq t) (rows t).

(** The handle reflects the row [r]: what it holds of a column is what the
    row holds. *)
Definition reflects (j : Job.t) (r : row) : Prop := Job.data j ⊆ row_dict r.

(** The row that [add_job] asks the table to store. *)
Definition row_to_add (id : Z) (pf det : string) (now : Z) (rid : string)
    (claim_after interval : Z) : row :=
  Row id pf rid det now claim_after 0 0 interval 0 "".

(** The table after [add_job]: as it was when the pair is there already,
    with one more row otherwise; the sequence has moved on in both cases. *)
Definition after_add (t : table) (pf det : string) (now : Z) (rid : string)
    (claim_after interval : Z) : table :=
  if bool_decide (Exists (λ r, pair_of r = (pf, rid)) (rows t))
  then Table (rows t) (seq t + 1)
  else Table (rows t ++ [row_to_add (seq t + 1) pf det now rid claim_after interval])
         (seq t + 1).

(** The table after [release(delay)], [finish()] and [add_status(text)] on
    the job with the id [id], whose handle holds the interval [iv], at the
    time [now]. *)
Definition after_release (id : val) (now delay : Z) (t : table) : table :=
  (sql_update [("timestamp_claimed", Lit (VInt 0));
               ("timestamp_after", Lit (VInt (now + delay)))] (Job.where_id id) t).1.

Definition after_finish (id : val) (iv now : Z) (t : table) : table :=
  if decide (iv = 0) then (sql_delete (Job.where_id id) t).1
  else (sql_update [("timestamp_claimed", Lit (VInt 0));
                    ("timestamp_lastclaimed", Lit (VInt now))] (Job.where_id id) t).1.

Definition after_status (id : val) (now : Z) (text : string) (t : table) : table :=
  (sql_update [("status",
                Concat (Col "status")
                  (Lit (VStr (pretty now +:+ " " +:+ text +:+ Job.newline))))]
     (Job.where_id id) t).1.

(** The row of a job after a crash at the time [now], when the job has an
    interval: the note is appended to its status, its claim is cleared and
    [timestamp_lastclaimed] is [now]. *)
Definition crashed (now : Z) (r : row) : row :=
  Row (row_id r) (pythonfile r) (remote_id r) (details r) (timestamp r)
    (timestamp_after r) 0 now (interval r) (attempts r)
    (status r +:+ pretty now +:+ " " +:+ "Crash during execution" +:+ Job.newline).

(** The world with another table, more in its log and more in its journal. *)
Definition moved (w : world) (t : table) (msgs : list (level * string))
    (calls : list call) : world :=
  World t (clock w) (uuid_src w) (uuid_pos w) (log w ++ msgs) (journal w ++ calls).

(** The clock reads [now]. *)
Definition at_time (now : Z) (w : world) : world :=
  World (db w) now (uuid_src w) (uuid_pos w) (log w) (journal w).

(** [add_job(pf, ..., remote_id=rid)] called once for each element of
    [calls]: the time of the call and its other arguments [details],
    [claim_after] and [interval]. *)
Fixpoint add_jobs (pf rid : string) (calls : list (Z * string * Z * Z))
    : M world unit :=
  match calls with
  | [] => ret tt
  | (now, det, claim_after, interval) :: calls' =>
      modify (at_time now);;
      JobQueue.add_job pf det (Some rid) claim_after interval;;
      add_jobs pf rid calls'
  end.

(** The jobs of the type of [r] that are ahead of it in the queue: those
    whose [timestamp] is earlier or which are currently claimed. *)
Definition ahead_of (r : row) (t : table) : list row :=
  filter (λ q, pythonfile q = pythonfile r
               ∧ (timestamp q < timestamp r ∨ timestamp_claimed q > 0)) (rows t).

(** The 1-based position of [r] among them: position 1 is the front. *)
Definition place_in_queue (r : row) (t : table) : Z :=
  if decide (timestamp_claimed r > 0) then 0
  else 1 + Z.of_nat (length (ahead_of r t)).

(** No type has more workers in the pool than its worker class allows: every
    key of the pool has a worker class, and the list under the key is no
    longer than the [max_workers] of that class. *)
Definition within_caps (s : Manager.state) : Prop :=
  ∀ t ws, Manager.pool_get t (Manager.worker_pool s) = Some ws →
    ∃ c, Manager.worker_map s !! t = Some c
         ∧ Z.of_nat (length ws) ≤ Worker.max_workers c.

(** The [max_workers] of the worker classes are amounts: none of those that
    the manager has resolved, has loaded or can load is negative. *)
Definition caps_not_negative (s : Manager.state) : Prop :=
  (∀ t c, Manager.worker_map s !! t = Some c → 0 ≤ Worker.max_workers c)
  ∧ (∀ t m x, Manager.sys_modules s !! t = Some m → x ∈ m →
              0 ≤ Worker.max_workers (Manager.as_class x))
  ∧ (∀ p m x, Manager.files s !! p = Some m → x ∈ m →
              0 ≤ Worker.max_workers (Manager.as_class x)).

(** No list of the pool [p'] is longer than the list of [p] under the same
    key. *)
Definition pool_le (p' p : Manager.pool) : Prop :=
  ∀ t ws', Manager.pool_get t p' = Some ws' →
    ∃ ws, Manager.pool_get t p = Some ws ∧ (length ws' ≤ length ws)%nat.

(** The two states know the same worker classes, modules and files. *)
Definition same_classes (s s' : Manager.state) : Prop :=
  Manager.worker_map s' = Manager.worker_map s
  ∧ Manager.sys_modules s' = Manager.sys_modules s
  ∧ Manager.files s' = Manager.files s.

(** Both together: what the dispatcher maintains. *)
Definition capped (s : Manager.state) : Prop := within_caps s ∧ caps_not_negative s.

Definition is_start (ev : Manager.event) : bool :=
  match ev with
  | Manager.Started _ => true
  | _ => false
  end.

(** The workers of the pool, key after key. *)
Definition workers (p : Manager.pool) : list Manager.worker :=
  mjoin ((λ kv : string * list Manager.worker, kv.2) <$> p).

(** What the dispatcher does to a worker when its loop has ended: it calls
    [request_abort()], which leaves the flag at [INTERRUPT_RETRY], or
    [abort()] on a worker without [request_abort]. *)
Definition stop_event (w : Manager.worker) : Manager.event :=
  if Worker.has_request_abort (Worker.cls (Manager.object w))
  then Manager.AbortRequested (Manager.ident w) Worker.INTERRUPT_RETRY
  else Manager.AbortCalled (Manager.ident w).

Definition told_to_stop (w : Manager.worker) : Manager.worker :=
  if Worker.has_request_abort (Worker.cls (Manager.object w))
  then Manager.Worker (Manager.ident w) (Manager.alive w)
         (Worker.Obj (Worker.cls (Manager.object w)) (Worker.job (Manager.object w))
            Worker.INTERRUPT_RETRY)
  else w.

Definition join_event (w : Manager.worker) : Manager.event :=
  Manager.Joined (Manager.ident w).

(** [looping] is [False]; [evs] are the starts of workers so far and [n] is
    the number of worker threads. *)
Definition quiet (evs : list Manager.event) (n : nat) (s : Manager.state) : Prop :=
  Manager.looping s = false
  ∧ filter (λ ev, is_start ev) (Manager.events s) = evs
  ∧ Manager.threads s = n.

(** The dispatcher thread is not inside [delegate()], and [looping] is
    [False]. *)
Definition winding_down (evs : list Manager.event) (n : nat) (c : Manager.config) : Prop :=
  Manager.at_ c ≠ Manager.Delegate ∧ quiet evs n (Manager.st c).

(** The worker threads that the dispatcher has started. *)
Definition started (s : Manager.state) : list Manager.event :=
  filter (λ ev, is_start ev) (Manager.events s).

End Spec.

(** ** What the code does, told of rows, keys and attempts *)

Module Effects.

(** The row [r] with its claim cleared. *)
Definition released (r : row) : row :=
  Row (row_id r) (pythonfile r) (remote_id r) (details r) (timestamp r)
    (timestamp_after r) 0 (timestamp_lastclaimed r) (interval r) (attempts r) (status r).

(** The rows that [get_job_count] counts for its argument. *)
Definition counted (pf : string) (r : row) : Prop := pf = "*" ∨ pythonfile r = pf.

#[global] Instance counted_dec pf r : Decision (counted pf r).
Proof. unfold counted. apply _. Defined.

#[global] Instance selects_dec pf rid r : Decision (Spec.selects pf rid r).
Proof.
  unfold Spec.selects. destruct (JobQueue.given rid); [apply _|].
  destruct (decide (pf ≠ "*")); apply _.
Defined.

End Effects.

Module Shape.

(** The characters of the class [[0-9a-z._]]. *)
Definition type_char (c : Ascii.ascii) : bool :=
  Str.between "0"%char "9"%char c || Str.between "a"%char "z"%char c
  || Ascii.eqb c "."%char || Ascii.eqb c "_"%char.

(** Every character of [s] satisfies [p]. *)
Fixpoint all_chars (p : Ascii.ascii → bool) (s : string) : bool :=
  match s with
  | EmptyString => true
  | String c s' => p c && all_chars p s'
  end.

(** No two dots of [s] follow each other. *)
Fixpoint no_double_dot (s : string) : bool :=
  match s with
  | EmptyString => true
  | String c s' =>
      match s' with
      | String c' _ => negb (Ascii.eqb c "."%char && Ascii.eqb c' "."%char) && no_double_dot s'
      | EmptyString => true
      end
  end.

Definition no_leading_dot (s : string) : bool :=
  match s with
  | String c _ => negb (Ascii.eqb c "."%char)
  | EmptyString => true
  end.

(** Every key of the pool is made of the characters of a worker type. *)
Definition typed_pool (p : Manager.pool) : Prop :=
  Forall (λ kv : string * list Manager.worker, all_chars type_char kv.1 = true) p.

Definition typed (s : Manager.state) : Prop := typed_pool (Manager.worker_pool s).

(** The part of the state that resolving a worker class leaves alone. *)
Definition same_but_caches (s s' : Manager.state) : Prop :=
  Manager.env s' = Manager.env s
  ∧ Manager.looping s' = Manager.looping s
  ∧ Manager.worker_pool s' = Manager.worker_pool s
  ∧ Manager.files s' = Manager.files s
  ∧ Manager.events s' = Manager.events s
  ∧ Manager.threads s' = Manager.threads s.

(** What the dispatcher has joined of the workers [l]. *)
Definition joins (l : list Manager.worker) : list Manager.event :=
  (λ w, Manager.Joined (Manager.ident w)) <$> l.

(** The worker that [start_worker] makes in the state [s]. *)
Definition new_worker (s : Manager.state) (c : Worker.class) (j : Job.t) : Manager.worker :=
  Manager.Worker (Manager.threads s) true (Worker.Obj c j 0).

(** The list under the key [t] of the pool, empty when there is no such
    key. *)
Definition running (t : string) (s : Manager.state) : list Manager.worker :=
  default [] (Manager.pool_get t (Manager.worker_pool s)).

(** The caches of the two states are the same. *)
Definition same_caches (s s' : Manager.state) : Prop :=
  Manager.worker_map s' = Manager.worker_map s
  ∧ Manager.sys_modules s' = Manager.sys_modules s.

End Shape.

Module Rows.

(** The row has the values of [where_] in its columns: what the tests of a
    WHERE clause made of [where_] ask of it. *)
Definition agrees (where_ : dict) (r : row) : Prop :=
  map_Forall (λ c v, col c r = Some v) where_.

#[global] Instance agrees_dec where_ r : Decision (agrees where_ r).
Proof. unfold agrees. apply _. Defined.

(** The columns of the two unique constraints. *)
Definition key_columns : list string := ["id"; "pythonfile"; "remote_id"].

End Rows.

Module Attempts.

Import Reconnect.

(** The line that [reconnect] logs when an attempt has failed with [e]. *)
Definition warning (e : exc) : level * string :=
  (WARNING, "Database connection closed. Reconnecting..." +:+ Job.newline +:+ e_str e).

(** The line that it logs when it gives up. *)
Definition failure (tries : Z) : level * string :=
  (ERROR, "Failed to reconnect to database after " +:+ pretty tries +:+ " tries").

(** The attempt fails with [e], which is an error of the connection. *)
Definition fails_with (e : exc) (a : attempt) : Prop :=
  a = Fails e ∧ is_connection_error e = true.

(** The [n] attempts that follow the [from]-th fail with the errors [es],
    one after the other. *)
Fixpoint fail_with (es : list exc) (outcome : nat → attempt) (from : nat) : Prop :=
  match es with
  | [] => True
  | e :: es' => fails_with e (outcome from) ∧ fail_with es' outcome (S from)
  end.

(** The state after these attempts: each was made, logged and slept on. *)
Definition after_failures (es : list exc) (wait : Z) (s : state) : state :=
  State (outcome s) (calls s + length es) (slept s + Z.of_nat (length es) * wait)
    (connections s) (log s ++ (warning <$> es)).

Definition logged (msg : level * string) (s : state) : state :=
  State (outcome s) (calls s) (slept s) (connections s) (log s ++ [msg]).

Definition connected (s : state) : state :=
  State (outcome s) (S (calls s)) (slept s) (S (connections s)) (log s).

End Attempts.

(** ** Concrete tables, worlds and workers *)

Module Examples.

(** A world on the table [t] at the time [now]; nothing was logged and no
    job method was called. *)
Definition world_of (t : table) (now : Z) : world :=
  World t now (λ n, "uuid-" +:+ pretty n) 0 [] [].

(** An empty table. *)
Definition no_rows : table := Table [] 0.

(** A job of type [w] for the remote id [x], queued at time 100. *)
Definition queued : row := Row 1 "w" "x" "a" 100 0 0 0 0 0 "".

Definition one_row : table := Table [queued] 1.

(** A one-shot job that was claimed at time 100 and whose claim was then
    cleared, as [release_all] does. *)
Definition cleared : row := Row 1 "w" "x" "a" 50 0 0 100 0 1 "".

(** A job whose [claim_after] is negative. *)
Definition early : row := Row 1 "w" "x" "a" 50 (-3) 0 0 0 0 "".

(** A job that a worker holds since time 150, and one that waits. *)
Definition processing : row := Row 1 "w" "a" "a" 10 0 150 150 0 1 "".
Definition waiting : row := Row 2 "w" "b" "b" 20 0 0 0 0 0 "".
Definition two_rows : table := Table [processing; waiting] 2.

(** A job that may be claimed from time 500 on. *)
Definition deferred : row := Row 3 "w" "c" "c" 30 500 0 0 0 0 "".

(** A one-shot job that a worker holds since time 150, the same job with
    an interval of 60 seconds, and the worker object in both cases, with its
    interrupt flag at [level]. *)
Definition held : row := Row 1 "w" "x" "a" 100 0 150 150 0 1 "".
Definition held_recurring : row := Row 1 "w" "x" "a" 100 0 150 150 60 1 "".

Definition w_class : Worker.class := Worker.Class "w" 1 true.

Definition worker_on (r : row) (level : Z) (now : Z) : Worker.state :=
  Worker.State (world_of (Table [r] 1) now)
    (Worker.Obj w_class (Job.get_by_data (row_dict r)) level).

(** A [work()] that notices the interrupt flag and unwinds, and one that
    crashes. *)
Definition interrupted_work : M Worker.state unit :=
  raise (mk_exc WorkerInterruptedException "").

Definition boom : exc :=
  Exc (UserError "RuntimeError") "boom" [Frame "/srv/jobs/w.py" 12; Frame "util.py" 3].

Definition crashing_work : M Worker.state unit := raise boom.

(** The file of a worker class [W] of which one worker may run at a time;
    the module also holds the abstract class it derives from. *)
Definition path_w : string := "/srv/jobs/w.py".

Definition files_w : gmap string Manager.module :=
  {[ path_w := [Manager.Member "BasicWorker" true true true (Worker.Class "worker" 1 true);
                Manager.Member "W" true true false w_class] ]}.

(** A manager that has just been made, on an empty table at time 100. *)
Definition fresh : Manager.config := Manager.init (world_of no_rows 100) files_w.

(** Two jobs for [W] are queued, and the dispatcher goes twice through its
    loop. *)
Definition two_jobs_two_rounds : list Manager.action :=
  [Manager.AddJob path_w "a" (Some "x") 0 0; Manager.AddJob path_w "b" (Some "y") 0 0;
   Manager.Tick 1; Manager.Run; Manager.Run; Manager.Run; Manager.Run].

(** A job is queued and dispatched; then [abort()] is called, and the
    dispatcher goes on until it has told the workers to stop. *)
Definition abort_with_a_worker : list Manager.action :=
  [Manager.AddJob path_w "a" (Some "x") 0 0; Manager.Run; Manager.Run;
   Manager.Abort; Manager.Run; Manager.Run].

(** A job is queued and dispatched, and [abort()] is called: the
    dispatcher is about to test [looping]. *)
Definition aborted : Manager.config :=
  Manager.exec_all
    [Manager.AddJob path_w "a" (Some "x") 0 0; Manager.Run; Manager.Run; Manager.Abort]
    fresh.

(** From there: the dispatcher leaves its loop and tells the worker to stop,
    another job is queued, the worker unwinds, and the dispatcher joins
    it. *)
Definition winding_up : list Manager.action :=
  [Manager.Run; Manager.Run; Manager.AddJob path_w "b" (Some "y") 0 0; Manager.Run;
   Manager.WorkerRuns 0 interrupted_work; Manager.Run; Manager.Run].

(** [abort()] is called when the dispatcher has just tested [looping]; a job
    is queued after that. *)
Definition abort_after_the_test : list Manager.action :=
  [Manager.Run; Manager.Abort; Manager.AddJob path_w "a" (Some "x") 0 0; Manager.Run].

(** A [work()] that calls [sys.exit()]. *)
Definition exit_ : exc := mk_exc (BaseError "SystemExit") "".

Definition exiting_work : M Worker.state unit := raise exit_.

(** A job whose type is the empty string, as [add_job("")] stores one. *)
Definition untyped : row := Row 1 "" "x" "a" 100 0 0 0 0 0 "".

End Examples.

(** ** More of them *)

Module Cases.

(** Four worker threads of one type; the second and the third have ended. *)
Definition worker_object : Worker.obj :=
  Worker.Obj Examples.w_class (Spec.handle Examples.queued) 0.

Definition crowd : list Manager.worker :=
  [Manager.Worker 0 true worker_object; Manager.Worker 1 false worker_object;
   Manager.Worker 2 false worker_object; Manager.Worker 3 true worker_object].

(** A job whose script is not among the files. *)
Definition orphan : row := Row 1 "/srv/jobs/gone.py" "x" "a" 100 0 0 0 0 0 "".

Definition with_orphan : Manager.state :=
  Manager.st (Manager.init (Examples.world_of (Table [orphan] 1) 200) Examples.files_w).

(** The job that the first call of [add_job] of [two_jobs_two_rounds]
    stores. *)
Definition first_job : row := Row 1 Examples.path_w "x" "a" 100 0 0 0 0 0 "".

(** A server that is down for good, and one that is back at the third
    attempt. *)
Definition down : exc := Reconnect.operational_error "connection refused".

Definition never_up : Reconnect.state := Reconnect.State (λ _, Reconnect.Fails down) 0 0 0 [].

Definition up_at_third : Reconnect.state :=
  Reconnect.State (λ n, if (n <? 2)%nat then Reconnect.Fails down else Reconnect.Connects)
    0 0 0 [].

End Cases.

(** ** Reasoning about monadic code *)

Ltac unfold_m :=
  cbv beta iota delta
    [mbind M_bind bind mret M_ret ret gets modify raise try_except lift
     getitem getint getstr time_time fetchall fetchone execute record log_msg].

Lemma bind_ok {S A B} (m : M S A) (k : A → M S B) s a s' :
  m s = (Ok a, s') → (m ≫= k) s = k a s'.
Proof. intros H. unfold mbind, M_bind, bind. by rewrite H. Qed.

Lemma bind_raise {S A B} (m : M S A) (k : A → M S B) s e s' :
  m s = (Raise e, s') → (m ≫= k) s = (Raise e, s').
Proof. intros H. unfold mbind, M_bind, bind. by rewrite H. Qed.

Lemma lift_eq {S T A} (proj : S → T) (upd : T → S → S) (m : M T A) s r t :
  m (proj s) = (r, t) → lift proj upd m s = (r, upd t s).
Proof. intros H. unfold lift. by rewrite H. Qed.

(** ** Triples *)

Section hoare_rules.

Context {S : Type}.
Implicit Types P : S → Prop.

Lemma hoare_weaken {A} P P' (m : M S A) (Q Q' : res A → S → Prop) :
  hoare P' m Q' → (∀ s, P s → P' s) → (∀ r s, Q' r s → Q r s) → hoare P m Q.
Proof. intros H HP HQ s Hs. apply HQ, H, HP, Hs. Qed.

Lemma hoare_ret {A} P (a : A) : hoare P (ret a) (λ r s, r = Ok a ∧ P s).
Proof. intros s Hs. by split. Qed.

Lemma hoare_raise {A} P e : hoare P (raise (A:=A) e) (λ r s, r = Raise e ∧ P s).
Proof. intros s Hs. by split. Qed.

Lemma hoare_gets {A} P (f : S → A) : hoare P (gets f) (λ r s, r = Ok (f s) ∧ P s).
Proof. intros s Hs. by split. Qed.

Lemma hoare_modify P (f : S → S) (Q : S → Prop) :
  (∀ s, P s → Q (f s)) → hoare P (modify f) (λ r s, r = Ok tt ∧ Q s).
Proof. intros H s Hs. split; [done|]. by apply H. Qed.

Lemma hoare_bind {A B} P (m : M S A) (k : A → M S B) (Q1 : res A → S → Prop)
    (Q : res B → S → Prop) :
  hoare P m Q1 →
  (∀ a, hoare (Q1 (Ok a)) (k a) Q) →
  (∀ e s, Q1 (Raise e) s → Q (Raise e) s) →
  hoare P (m ≫= k) Q.
Proof.
  intros Hm Hk He s Hs. specialize (Hm s Hs).
  unfold mbind, M_bind, bind. destruct (m s) as [[a|e] s1]; simpl in *.
  - by apply Hk.
  - by apply He.
Qed.

Lemma hoare_try_except {A} P (m : M S A) handles h (Q1 Q : res A → S → Prop) :
  hoare P m Q1 →
  (∀ a s, Q1 (Ok a) s → Q (Ok a) s) →
  (∀ e, handles e = true → hoare (Q1 (Raise e)) (h e) Q) →
  (∀ e s, handles e = false → Q1 (Raise e) s → Q (Raise e) s) →
  hoare P (try_except m handles h) Q.
Proof.
  intros Hm Hok Hh Hno s Hs. specialize (Hm s Hs).
  unfold try_except. destruct (m s) as [[a|e] s1]; simpl in *.
  - by apply Hok.
  - destruct (handles e) eqn:Hhandles.
    + by apply Hh.
    + by apply Hno.
Qed.

(** The rules for a property that every step keeps. *)
Lemma hoare_bind_inv {A B} P (m : M S A) (k : A → M S B) :
  hoare P m (λ _ s, P s) → (∀ a, hoare P (k a) (λ _ s, P s)) →
  hoare P (m ≫= k) (λ _ s, P s).
Proof. intros Hm Hk. eapply hoare_bind; [exact Hm|exact Hk|done]. Qed.

Lemma hoare_gets_inv {A} P (f : S → A) : hoare P (gets f) (λ _ s, P s).
Proof. intros s Hs. done. Qed.

Lemma hoare_modify_inv P (f : S → S) :
  (∀ s, P s → P (f s)) → hoare P (modify f) (λ _ s, P s).
Proof. intros H s Hs. by apply H. Qed.

Lemma hoare_ret_inv {A} P (a : A) : hoare P (ret a) (λ _ s, P s).
Proof. intros s Hs. done. Qed.

(** A loop keeps what each of its rounds keeps. *)
Lemma hoare_for_each {A} P (l : list A) (body : A → M S unit) :
  (∀ x, hoare P (body x) (λ _ s, P s)) → hoare P (for_each l body) (λ _ s, P s).
Proof.
  intros Hbody. induction l as [|x l IH]; cbn [for_each].
  - intros s Hs. done.
  - eapply hoare_bind; [apply Hbody| |done]. intros []. exact IH.
Qed.

(** Code that only reads a dictionary leaves the state as it is. *)
Lemma hoare_getitem P (d : dict) k :
  hoare P (getitem d k) (λ _ s, P s).
Proof. intros s Hs. unfold getitem. by destruct (d !! k). Qed.

Lemma hoare_getstr P (d : dict) k : hoare P (getstr d k) (λ _ s, P s).
Proof.
  intros s Hs. unfold getstr, getitem, mbind, M_bind, bind.
  destruct (d !! k) as [[]|]; done.
Qed.

End hoare_rules.

(** ** Lists *)

Section list_facts.

Context {A : Type} (P : A → Prop) `{!∀ x, Decision (P x)}.

Lemma filter_none (l : list A) : Forall (λ x, ¬ P x) l → filter P l = [].
Proof.
  induction 1 as [|x l Hx _ IH]; [done|]. by rewrite filter_cons_False.
Qed.

Lemma filter_nil_not_exists (l : list A) : filter P l = [] ↔ ¬ Exists P l.
Proof.
  split.
  - intros Hnil [x [Hin Hx]]%Exists_exists.
    by apply (filter_nil_not_elem_of P l x).
  - intros Hno. apply filter_none, Forall_forall. intros x Hin Hx.
    apply Hno, Exists_exists. eauto.
Qed.

End list_facts.

Lemma mjoin_cons {A} (x : list A) (l : list (list A)) : mjoin (x :: l) = x ++ mjoin l.
Proof. done. Qed.

(** ** The table and its statements *)

Module DatabaseFacts.

Import Spec.

Lemma col_id r : col "id" r = Some (VInt (row_id r)).
Proof. reflexivity. Qed.
Lemma col_pythonfile r : col "pythonfile" r = Some (VStr (pythonfile r)).
Proof. reflexivity. Qed.
Lemma col_remote_id r : col "remote_id" r = Some (VStr (remote_id r)).
Proof. reflexivity. Qed.
Lemma col_timestamp r : col "timestamp" r = Some (VInt (timestamp r)).
Proof. reflexivity. Qed.
Lemma col_timestamp_after r : col "timestamp_after" r = Some (VInt (timestamp_after r)).
Proof. reflexivity. Qed.
Lemma col_timestamp_claimed r :
  col "timestamp_claimed" r = Some (VInt (timestamp_claimed r)).
Proof. reflexivity. Qed.
Lemma col_timestamp_lastclaimed r :
  col "timestamp_lastclaimed" r = Some (VInt (timestamp_lastclaimed r)).
Proof. reflexivity. Qed.
Lemma col_interval r : col "interval" r = Some (VInt (interval r)).
Proof. reflexivity. Qed.

Lemma row_dict_nonempty r : row_dict r ≠ ∅.
Proof.
  intros H. apply (f_equal (λ m : dict, m !! "id")) in H. discriminate H.
Qed.

Lemma row_dict_truthy r : JobQueue.truthy (row_dict r) = true.
Proof. unfold JobQueue.truthy. apply bool_decide_eq_true, row_dict_nonempty. Qed.

Lemma col_details r : col "details" r = Some (VStr (details r)).
Proof. reflexivity. Qed.
Lemma col_attempts r : col "attempts" r = Some (VInt (attempts r)).
Proof. reflexivity. Qed.
Lemma col_status r : col "status" r = Some (VStr (status r)).
Proof. reflexivity. Qed.

(** A fetched row determines the stored one. *)
Lemma row_dict_inj r1 r2 : row_dict r1 = row_dict r2 → r1 = r2.
Proof.
  intros H.
  assert (Hc : ∀ c, col c r1 = col c r2) by (intros c; unfold col; by rewrite H).
  pose proof (Hc "id") as H1. rewrite !col_id in H1.
  pose proof (Hc "pythonfile") as H2. rewrite !col_pythonfile in H2.
  pose proof (Hc "remote_id") as H3. rewrite !col_remote_id in H3.
  pose proof (Hc "details") as H4. rewrite !col_details in H4.
  pose proof (Hc "timestamp") as H5. rewrite !col_timestamp in H5.
  pose proof (Hc "timestamp_after") as H6. rewrite !col_timestamp_after in H6.
  pose proof (Hc "timestamp_claimed") as H7. rewrite !col_timestamp_claimed in H7.
  pose proof (Hc "timestamp_lastclaimed") as H8.
  rewrite !col_timestamp_lastclaimed in H8.
  pose proof (Hc "interval") as H9. rewrite !col_interval in H9.
  pose proof (Hc "attempts") as H10. rewrite !col_attempts in H10.
  pose proof (Hc "status") as H11. rewrite !col_status in H11.
  clear H Hc. destruct r1, r2. simpl in *. congruence.
Qed.

Lemma order_by_timestamp_perm l : order_by_timestamp l ≡ₚ l.
Proof. apply merge_sort_Permutation. Qed.

Lemma order_by_timestamp_sorted l : StronglySorted by_timestamp (order_by_timestamp l).
Proof. apply StronglySorted_merge_sort; apply _. Qed.

Lemma elem_of_order_by_timestamp r l : r ∈ order_by_timestamp l ↔ r ∈ l.
Proof. by rewrite order_by_timestamp_perm. Qed.

(** What an ordered SELECT without LIMIT returns. *)
Lemma elem_of_select r c t :
  r ∈ sql_select (Select (Some c) true false) t ↔ r ∈ rows t ∧ eval_cond r c = true.
Proof.
  unfold sql_select. simpl. rewrite elem_of_order_by_timestamp, list_elem_of_filter.
  rewrite Is_true_true. tauto.
Qed.

(** The condition of the queries is the eligibility of the specification. *)
Lemma eval_claimable now r :
  eval_cond r (JobQueue.claimable now) = true ↔ eligible now r.
Proof.
  unfold JobQueue.claimable, JobQueue.int, eligible. cbn [eval_cond eval_expr].
  rewrite col_timestamp_claimed, col_timestamp_after, col_interval,
    col_timestamp_lastclaimed.
  rewrite !andb_true_iff, orb_true_iff, !bool_decide_eq_true.
  split.
  - intros [[H1 H2] [H3|H3]]; (split; [congruence|]); split; auto.
    left. congruence.
  - intros [H1 [H2 [H3|H3]]]; repeat split; auto; try congruence.
    left. congruence.
Qed.

End DatabaseFacts.

(** ** The queue *)

Module QueueFacts.

Import Spec DatabaseFacts.

Lemma filter_truthy (l : list row) :
  filter (λ job, JobQueue.truthy job) (row_dict <$> l) = row_dict <$> l.
Proof.
  induction l as [|r l IH]; [done|].
  rewrite fmap_cons, filter_cons_True by (rewrite row_dict_truthy; done).
  by rewrite IH.
Qed.

Lemma get_all_jobs_eq pf rid restrict w :
  JobQueue.get_all_jobs pf rid restrict w =
  (Ok (handle <$> sql_select (Select (Some (where_of pf rid restrict (clock w))) true false)
                    (db w)), w).
Proof.
  unfold JobQueue.get_all_jobs, where_of. destruct restrict; unfold_m; simpl;
    by rewrite filter_truthy, <- list_fmap_compose.
Qed.

Lemma eval_selection pf rid r :
  eval_cond r (JobQueue.selection pf rid) = true ↔ selects pf rid r.
Proof.
  unfold JobQueue.selection, selects, JobQueue.str.
  destruct (JobQueue.given rid) as [x|]; [|destruct (decide (pf ≠ "*"))];
    cbn [eval_cond eval_expr];
    rewrite ?col_remote_id, ?col_pythonfile, bool_decide_eq_true;
    split; congruence.
Qed.

Lemma get_job_eq pf ts w :
  JobQueue.get_job pf ts w =
  (Ok (handle <$> head (sql_select
         (Select (Some (And (Eq (Col "pythonfile") (JobQueue.str pf))
                            (JobQueue.claimable (time_of ts w)))) true false) (db w))), w).
Proof.
  unfold JobQueue.get_job, time_of.
  destruct (decide (ts < 0)); unfold_m; unfold sql_select;
    cbn [sel_where sel_order_by_timestamp sel_limit_1];
    (match goal with |- context [order_by_timestamp ?l] =>
       destruct (order_by_timestamp l) as [|r l'] end);
    cbn [take fmap list_fmap head option_fmap option_map]; try done;
    by rewrite row_dict_truthy.
Qed.

(** The rows that an ordered SELECT of [get_all_jobs] returns. *)
Lemma elem_of_get_all_jobs pf rid w r :
  r ∈ sql_select (Select (Some (where_of pf rid true (clock w))) true false) (db w)
  ↔ r ∈ rows (db w) ∧ selects pf rid r ∧ eligible (clock w) r.
Proof.
  rewrite elem_of_select. unfold where_of. cbn [eval_cond].
  rewrite andb_true_iff, eval_selection, eval_claimable. tauto.
Qed.

Lemma elem_of_get_job_rows pf t tbl r :
  r ∈ sql_select (Select (Some (And (Eq (Col "pythonfile") (JobQueue.str pf))
                                    (JobQueue.claimable t))) true false) tbl
  ↔ r ∈ rows tbl ∧ pythonfile r = pf ∧ eligible t r.
Proof.
  rewrite elem_of_select. cbn [eval_cond]. unfold JobQueue.str.
  rewrite andb_true_iff, eval_claimable. cbn [eval_expr].
  rewrite col_pythonfile. cbn beta iota. rewrite bool_decide_eq_true.
  split; intros (Hin & Hpf & Hel); (split; [|split]); auto; congruence.
Qed.

Lemma handle_inj r1 r2 : handle r1 = handle r2 → r1 = r2.
Proof. intros H. apply row_dict_inj. exact (f_equal Job.data H). Qed.

Lemma elem_of_handles r (l : list row) : handle r ∈ handle <$> l ↔ r ∈ l.
Proof.
  rewrite list_elem_of_fmap. split.
  - intros (r' & Heq & Hin). by rewrite (handle_inj _ _ Heq).
  - intros Hin. by exists r.
Qed.

(** A job whose deferral or whose interval gap ends at [T] is not
    eligible while [now ≤ T]. *)
Lemma not_eligible_before now T r :
  timestamp_after r = T ∨ (interval r ≠ 0 ∧ timestamp_lastclaimed r + interval r = T) →
  now ≤ T → ¬ eligible now r.
Proof. unfold eligible. intros [H|[H1 H2]] Hle (Hc & Ha & [Hi|Hi]); lia. Qed.

Lemma strictly_sorted (l : list row) :
  StronglySorted by_timestamp l → NoDup (timestamp <$> l) → StronglySorted earlier l.
Proof.
  induction 1 as [|r l Hl IH Hr]; [constructor|].
  rewrite fmap_cons, NoDup_cons. intros [Hnot Hnd].
  constructor; [auto|].
  rewrite Forall_forall in Hr |- *. intros r' Hin.
  specialize (Hr r' Hin). unfold by_timestamp in Hr. unfold earlier.
  assert (timestamp r ≠ timestamp r'); [|lia].
  intros Heq. apply Hnot. rewrite Heq. by apply list_elem_of_fmap_2.
Qed.

(** The rows that [get_all_jobs] and [get_job] select for a type, before
    they are ordered. *)
Lemma select_eligible_of pf now t :
  filter (λ r, matches (Some (And (Eq (Col "pythonfile") (JobQueue.str pf))
                                  (JobQueue.claimable now))) r) (rows t)
  = eligible_of pf now t.
Proof.
  unfold eligible_of. apply list_filter_iff. intros r.
  unfold matches. rewrite Is_true_true. cbn [eval_cond]. unfold JobQueue.str.
  rewrite andb_true_iff, eval_claimable. cbn [eval_expr].
  rewrite col_pythonfile. cbn beta iota. rewrite bool_decide_eq_true.
  split; intros [Hpf Hel]; split; auto; congruence.
Qed.

Lemma selection_of_type pf : pf ≠ "*" →
  JobQueue.selection pf None = Eq (Col "pythonfile") (JobQueue.str pf).
Proof. intros Hpf. unfold JobQueue.selection. simpl. by destruct (decide (pf ≠ "*")). Qed.

(** The first of a sorted list is the least. *)
Lemma head_least (l : list row) r :
  StronglySorted earlier l → head l = Some r →
  ∀ r', r' ∈ l → r' ≠ r → earlier r r'.
Proof.
  intros Hs [l' ->]%head_Some r' [->|Hin]%elem_of_cons Hne; [done|].
  apply StronglySorted_inv in Hs as [_ Hall].
  rewrite Forall_forall in Hall. auto.
Qed.

(** C8.  For one type whose eligible jobs have distinct timestamps,
    [get_all_jobs] returns exactly these jobs in strictly ascending
    [timestamp] order, and [get_job] returns the one with the smallest
    [timestamp], or [None] when there is none; neither changes anything,
    so the job is not claimed. *)
Theorem fifo_within_type (w : world) (pf : string) (ts : Z) :
  pf ≠ "*" →
  NoDup (timestamp <$> eligible_of pf (clock w) (db w)) →
  NoDup (timestamp <$> eligible_of pf (time_of ts w) (db w)) →
  (∃ l, JobQueue.get_all_jobs pf None true w = (Ok (handle <$> l), w)
        ∧ l ≡ₚ eligible_of pf (clock w) (db w)
        ∧ StronglySorted earlier l)
  ∧ (∃ o, JobQueue.get_job pf ts w = (Ok (handle <$> o), w)
        ∧ match o with
          | Some r =>
              r ∈ eligible_of pf (time_of ts w) (db w)
              ∧ ∀ r', r' ∈ eligible_of pf (time_of ts w) (db w) → r' ≠ r →
                      earlier r r'
          | None => eligible_of pf (time_of ts w) (db w) = []
          end).
Proof.
  intros Hpf Hnow Hts. split.
  - eexists. split; [apply get_all_jobs_eq|].
    unfold where_of. rewrite (selection_of_type pf Hpf).
    unfold sql_select. cbn [sel_where sel_order_by_timestamp sel_limit_1].
    rewrite select_eligible_of. split; [apply order_by_timestamp_perm|].
    apply strictly_sorted; [apply order_by_timestamp_sorted|].
    by rewrite order_by_timestamp_perm.
  - eexists. split; [apply get_job_eq|].
    unfold sql_select. cbn [sel_where sel_order_by_timestamp sel_limit_1].
    rewrite select_eligible_of.
    set (l := eligible_of pf (time_of ts w) (db w)) in *.
    assert (Hs : StronglySorted earlier (order_by_timestamp l)).
    { apply strictly_sorted; [apply order_by_timestamp_sorted|].
      by rewrite order_by_timestamp_perm. }
    destruct (head (order_by_timestamp l)) as [r|] eqn:Hhead.
    + split.
      * apply elem_of_order_by_timestamp. by eapply head_Some_elem_of.
      * intros r' Hin Hne. eapply head_least; eauto.
        by apply elem_of_order_by_timestamp.
    + apply head_None in Hhead. apply Permutation_nil_r.
      rewrite <- Hhead. symmetry. apply order_by_timestamp_perm.
Qed.

(** C3, as stated, fails.  A one-shot job ([interval = 0]) with
    [timestamp_lastclaimed + interval = 100] is returned by [get_all_jobs]
    and by [get_job] at the time 100; and [get_job] with the negative time
    [-5] compares with the current time, so that it returns a job whose
    [timestamp_after] is [-3]. *)
Lemma eligibility_counterexample :
  let w := Examples.world_of (Table [Examples.cleared] 1) 100 in
  let w' := Examples.world_of (Table [Examples.early] 1) 100 in
  timestamp_lastclaimed Examples.cleared + interval Examples.cleared = 100
  ∧ clock w ≤ 100
  ∧ JobQueue.get_all_jobs "w" None true w = (Ok [handle Examples.cleared], w)
  ∧ JobQueue.get_job "w" 100 w = (Ok (Some (handle Examples.cleared)), w)
  ∧ timestamp_after Examples.early = -3
  ∧ -5 ≤ -3
  ∧ JobQueue.get_job "w" (-5) w' = (Ok (Some (handle Examples.early)), w').
Proof. cbv zeta. split_and!; vm_compute; (reflexivity || discriminate). Qed.

(** C3, amended.  [get_all_jobs(restrict_claimable=True)] returns exactly
    the jobs that its arguments select and that are eligible at the current
    time, and [get_job(type, now)] returns a job of the type that is
    eligible at the time [now] (the current time when [now] is negative),
    and [None] only when there is none.  In particular a job with
    [timestamp_after = T], or with [interval ≠ 0] and
    [timestamp_lastclaimed + interval = T], is not returned while that time
    is at most [T]. *)
Theorem eligibility_exact (w : world) (pf : string) (rid : option string) (ts : Z) :
  (∃ jobs, JobQueue.get_all_jobs pf rid true w = (Ok jobs, w)
     ∧ (∀ j, j ∈ jobs ↔ ∃ r, r ∈ rows (db w) ∧ selects pf rid r
                             ∧ eligible (clock w) r ∧ j = handle r)
     ∧ (∀ r T, timestamp_after r = T
               ∨ (interval r ≠ 0 ∧ timestamp_lastclaimed r + interval r = T) →
               clock w ≤ T → handle r ∉ jobs))
  ∧ (∃ o, JobQueue.get_job pf ts w = (Ok o, w)
     ∧ (∀ j, o = Some j → ∃ r, r ∈ rows (db w) ∧ pythonfile r = pf
                               ∧ eligible (time_of ts w) r ∧ j = handle r)
     ∧ (o = None ↔ ∀ r, r ∈ rows (db w) → pythonfile r = pf →
                        ¬ eligible (time_of ts w) r)
     ∧ (∀ r T, timestamp_after r = T
               ∨ (interval r ≠ 0 ∧ timestamp_lastclaimed r + interval r = T) →
               time_of ts w ≤ T → o ≠ Some (handle r))).
Proof.
  split.
  - eexists. split; [apply get_all_jobs_eq|]. split.
    + intros j. rewrite list_elem_of_fmap. split.
      * intros (r & -> & Hin). apply elem_of_get_all_jobs in Hin.
        exists r. tauto.
      * intros (r & Hin & Hsel & Hel & ->). exists r. split; [done|].
        apply elem_of_get_all_jobs. tauto.
    + intros r T HT Hle Hin. apply elem_of_handles, elem_of_get_all_jobs in Hin.
      destruct Hin as (_ & _ & Hel). by eapply not_eligible_before.
  - eexists. split; [apply get_job_eq|].
    set (l := sql_select _ (db w)).
    assert (Hl : ∀ r, r ∈ l ↔ r ∈ rows (db w) ∧ pythonfile r = pf
                               ∧ eligible (time_of ts w) r)
      by (intros r; apply elem_of_get_job_rows).
    split; [|split].
    + intros j Hj. destruct (head l) as [r|] eqn:Hhead; [|done].
      cbn [fmap option_fmap option_map] in Hj.
      assert (j = handle r) as -> by congruence. exists r.
      apply head_Some_elem_of, Hl in Hhead. tauto.
    + destruct (head l) as [r|] eqn:Hhead; cbn [fmap option_fmap option_map].
      * split; [done|]. intros Hnone. exfalso.
        apply head_Some_elem_of, Hl in Hhead as (Hin & Hpf & Hel).
        by apply (Hnone r).
      * split; [|done]. intros _ r Hin Hpf Hel.
        apply head_None in Hhead. assert (r ∈ l) as Hr by (apply Hl; tauto).
        rewrite Hhead in Hr. by apply elem_of_nil in Hr.
    + intros r T HT Hle Heq. destruct (head l) as [r'|] eqn:Hhead; [|done].
      cbn [fmap option_fmap option_map] in Heq.
      assert (r' = r) as -> by (apply handle_inj; congruence).
      apply head_Some_elem_of, Hl in Hhead as (_ & _ & Hel).
      by eapply not_eligible_before.
Qed.

(** [has_jobs], whatever the types of the stored jobs are. *)
Lemma has_jobs_eq w :
  Scheduler.has_jobs w
  = (Ok (bool_decide (Exists (λ r, pythonfile r ≠ "" ∧ eligible (clock w) r)
                        (rows (db w)))), w).
Proof.
  unfold Scheduler.has_jobs. erewrite bind_ok; [|apply get_all_jobs_eq].
  unfold ret. f_equal. f_equal. apply bool_decide_ext.
  rewrite length_fmap, Exists_exists.
  set (l := sql_select _ (db w)).
  assert (Hl : ∀ r, r ∈ l ↔ r ∈ rows (db w) ∧ pythonfile r ≠ "" ∧ eligible (clock w) r).
  { intros r. unfold l. rewrite elem_of_get_all_jobs. unfold selects. simpl.
    destruct (decide ("*" ≠ "*")); [done|]. tauto. }
  split.
  - intros Hlen. destruct l as [|r l']; [simpl in Hlen; lia|].
    exists r. apply Hl. by left.
  - intros (r & Hr). apply Hl in Hr. destruct l; [by apply elem_of_nil in Hr|].
    simpl. lia.
Qed.

(** C10 at a failing input.  The table holds one job, of the type [""],
    which is eligible at time 200; [has_jobs()] returns [False]. *)
Lemma has_jobs_counterexample :
  let w := Examples.world_of (Table [Examples.untyped] 1) 200 in
  Examples.untyped ∈ rows (db w)
  ∧ eligible (clock w) Examples.untyped
  ∧ Scheduler.has_jobs w = (Ok false, w).
Proof.
  cbv zeta. split; [apply list_elem_of_here|]. split.
  - unfold eligible. cbn. lia.
  - rewrite has_jobs_eq. rewrite bool_decide_eq_false_2; [reflexivity|].
    rewrite Exists_exists. intros (r & Hin & Hpf & _).
    apply list_elem_of_singleton in Hin. subst r. by apply Hpf.
Qed.

(** C10, amended.  [has_jobs()] returns [True] iff a job whose type is not
    the empty string is eligible at the current time, and leaves everything
    as it is; so it returns [False] while every row is claimed, deferred or
    without a type, even though the table is not empty. *)
Theorem has_jobs_iff_eligible (w : world) :
  ∃ b, Scheduler.has_jobs w = (Ok b, w)
    ∧ (b = true ↔ ∃ r, r ∈ rows (db w) ∧ pythonfile r ≠ "" ∧ eligible (clock w) r)
    ∧ ((∀ r, r ∈ rows (db w) →
             pythonfile r = "" ∨ timestamp_claimed r ≠ 0 ∨ clock w ≤ timestamp_after r) →
       b = false).
Proof.
  eexists. split; [apply has_jobs_eq|]. split.
  - by rewrite bool_decide_eq_true, Exists_exists.
  - intros Hbusy. apply bool_decide_eq_false. rewrite Exists_exists.
    intros (r & Hin & Hpf & Hc & Ha & _). destruct (Hbusy r Hin) as [?|[?|?]]; [done|lia|lia].
Qed.

Lemma fifo_within_type_witness :
  let w := Examples.world_of (Table [Examples.queued; Examples.waiting] 2) 200 in
  "w" ≠ "*"
  ∧ NoDup (timestamp <$> eligible_of "w" (clock w) (db w))
  ∧ NoDup (timestamp <$> eligible_of "w" (time_of 300 w) (db w))
  ∧ (∃ l, JobQueue.get_all_jobs "w" None true w = (Ok (handle <$> l), w)
          ∧ l ≡ₚ eligible_of "w" (clock w) (db w)
          ∧ StronglySorted earlier l)
  ∧ (∃ o, JobQueue.get_job "w" 300 w = (Ok (handle <$> o), w)
          ∧ match o with
            | Some r =>
                r ∈ eligible_of "w" (time_of 300 w) (db w)
                ∧ ∀ r', r' ∈ eligible_of "w" (time_of 300 w) (db w) → r' ≠ r →
                        earlier r r'
            | None => eligible_of "w" (time_of 300 w) (db w) = []
            end).
Proof.
  cbv zeta.
  assert (H1 : "w" ≠ "*") by done.
  assert (H2 : NoDup (timestamp <$> eligible_of "w" 200
                        (Table [Examples.queued; Examples.waiting] 2)))
    by compute_done.
  assert (H3 : NoDup (timestamp <$> eligible_of "w" 300
                        (Table [Examples.queued; Examples.waiting] 2)))
    by compute_done.
  split; [exact H1|]. split; [exact H2|]. split; [exact H3|].
  exact (fifo_within_type
           (Examples.world_of (Table [Examples.queued; Examples.waiting] 2) 200)
           "w" 300 H1 H2 H3).
Defined.

Lemma eligibility_exact_witness :
  let w := Examples.world_of Examples.two_rows 200 in
  ∃ jobs, JobQueue.get_all_jobs "w" None true w = (Ok jobs, w)
    ∧ (∀ j, j ∈ jobs ↔ ∃ r, r ∈ rows (db w) ∧ selects "w" None r
                            ∧ eligible (clock w) r ∧ j = handle r)
    ∧ (∀ r T, timestamp_after r = T
              ∨ (interval r ≠ 0 ∧ timestamp_lastclaimed r + interval r = T) →
              clock w ≤ T → handle r ∉ jobs).
Proof.
  exact (proj1 (eligibility_exact (Examples.world_of Examples.two_rows 200)
                  "w" None 200)).
Defined.

Lemma getint_some {S} (d : dict) k n (s : S) :
  d !! k = Some (VInt n) → getint d k s = (Ok n, s).
Proof. intros H. unfold getint, getitem, mbind, M_bind, bind. by rewrite H. Qed.

Lemma getstr_some {S} (d : dict) k x (s : S) :
  d !! k = Some (VStr x) → getstr d k s = (Ok x, s).
Proof. intros H. unfold getstr, getitem, mbind, M_bind, bind. by rewrite H. Qed.

Lemma filter_m_pure {S A} (p : A → M S bool) (f : A → bool) (l : list A) s :
  (∀ x, x ∈ l → p x s = (Ok (f x), s)) →
  filter_m p l s = (Ok (filter (λ x, f x) l), s).
Proof.
  induction l as [|x l IH]; intros Hp; [done|]. cbn [filter_m].
  erewrite bind_ok; [|apply Hp; by left].
  erewrite bind_ok; [|apply IH; intros y Hy; apply Hp; by right].
  unfold ret. rewrite filter_cons. by destruct (f x).
Qed.

(** What [get_place_in_queue] computes for the handle of a stored row: 0
    for a claimed job, and otherwise the number of the jobs that
    [get_all_jobs] returns for the type, eligible ones that is, whose
    [timestamp] is earlier or which are claimed. *)
Lemma get_place_in_queue_eq w r :
  JobQueue.get_place_in_queue (handle r) w
  = (Ok (if decide (timestamp_claimed r > 0) then 0
         else Z.of_nat (length (filter
                (λ q, timestamp q < timestamp r ∨ timestamp_claimed q > 0)
                (sql_select (Select (Some (where_of (pythonfile r) None true (clock w)))
                               true false) (db w))))), w).
Proof.
  unfold JobQueue.get_place_in_queue.
  erewrite bind_ok by (apply getint_some, col_timestamp_claimed).
  destruct (decide (timestamp_claimed r > 0)) as [|Hfree]; [done|].
  erewrite bind_ok by (apply getstr_some, col_pythonfile).
  erewrite bind_ok by apply get_all_jobs_eq.
  erewrite bind_ok by (apply getint_some, col_timestamp).
  set (l := sql_select _ (db w)). clearbody l.
  erewrite bind_ok.
  2:{ apply (filter_m_pure _ (λ j,
               match Job.data j !! "timestamp", Job.data j !! "timestamp_claimed" with
               | Some (VInt ts), Some (VInt tc) =>
                   bool_decide (ts < timestamp r) || bool_decide (tc > 0)
               | _, _ => false
               end)).
      intros j (q & -> & Hq)%list_elem_of_fmap.
      erewrite bind_ok by (apply getint_some, col_timestamp).
      change (Job.data (handle q) !! "timestamp") with (col "timestamp" q).
      change (Job.data (handle q) !! "timestamp_claimed") with (col "timestamp_claimed" q).
      rewrite col_timestamp, col_timestamp_claimed.
      destruct (decide (timestamp q < timestamp r)) as [Hlt|Hge].
      - by rewrite (bool_decide_eq_true_2 _ Hlt).
      - erewrite bind_ok by (apply getint_some, col_timestamp_claimed).
        by rewrite (bool_decide_eq_false_2 _ Hge). }
  unfold ret. f_equal. f_equal. f_equal.
  induction l as [|q l IH]; [done|].
  rewrite fmap_cons, !filter_cons.
  change (Job.data (handle q) !! "timestamp") with (col "timestamp" q).
  change (Job.data (handle q) !! "timestamp_claimed") with (col "timestamp_claimed" q).
  rewrite col_timestamp, col_timestamp_claimed.
  destruct (decide (timestamp q < timestamp r ∨ timestamp_claimed q > 0)) as [Hyes|Hno].
  - rewrite decide_True; [cbn; by rewrite IH|].
    apply Is_true_true, orb_true_iff. rewrite !bool_decide_eq_true. exact Hyes.
  - rewrite decide_False; [exact IH|].
    rewrite Is_true_true, orb_true_iff, !bool_decide_eq_true. exact Hno.
Qed.

(** An unclaimed job with no eligible job of its type before it is given
    the place 0, that of a job being processed, although it is queued. *)
Lemma front_of_queue_is_zero w r :
  ¬ timestamp_claimed r > 0 →
  pythonfile r ≠ "*" →
  (∀ q, q ∈ rows (db w) → pythonfile q = pythonfile r → eligible (clock w) q →
        timestamp r ≤ timestamp q) →
  JobQueue.get_place_in_queue (handle r) w = (Ok 0, w)
  ∧ 1 ≤ place_in_queue r (db w).
Proof.
  intros Hfree Htype Hfront. split.
  - rewrite get_place_in_queue_eq. rewrite decide_False by done.
    rewrite filter_none; [done|].
    apply Forall_forall. intros q Hq.
    apply elem_of_get_all_jobs in Hq as (Hin & Hsel & Hel).
    unfold selects in Hsel. simpl in Hsel.
    destruct (decide (pythonfile r ≠ "*")); [|done].
    pose proof (Hfront q Hin Hsel Hel). destruct Hel as (Hc & _). lia.
  - unfold place_in_queue. rewrite decide_False by done. lia.
Qed.

(** C7 at failing inputs.  With a job of the type being processed and
    [waiting] next in line, [get_place_in_queue(waiting)] is 0, the value
    that stands for a job being processed, where the place described is 2;
    for the only job of a table, unclaimed, it is 0 as well, where the
    front of the queue is place 1. *)
Theorem place_in_queue_of_waiting_job_is_zero :
  let w := Examples.world_of Examples.two_rows 200 in
  let w1 := Examples.world_of Examples.one_row 200 in
  JobQueue.get_place_in_queue (handle Examples.waiting) w = (Ok 0, w)
  ∧ place_in_queue Examples.waiting Examples.two_rows = 2
  ∧ JobQueue.get_place_in_queue (handle Examples.processing) w = (Ok 0, w)
  ∧ JobQueue.get_place_in_queue (handle Examples.queued) w1 = (Ok 0, w1)
  ∧ place_in_queue Examples.queued Examples.one_row = 1.
Proof. cbv zeta. split_and!; vm_compute; reflexivity. Qed.

End QueueFacts.

(** ** Enqueueing *)

Module EnqueueFacts.

Import Spec DatabaseFacts.

Lemma new_row_job_data next pf det now rid ca iv :
  new_row next (JobQueue.job_data pf det now rid ca iv)
  = Some (row_to_add next pf det now rid ca iv).
Proof. vm_compute. reflexivity. Qed.

Lemma job_data_no_id pf det now rid ca iv :
  JobQueue.job_data pf det now rid ca iv !! "id" = None.
Proof. reflexivity. Qed.

Lemma job_data_timestamp pf det now rid ca iv :
  JobQueue.job_data pf det now rid ca iv !! "timestamp" = Some (VInt now).
Proof. reflexivity. Qed.

Lemma same_pair_row_to_add id pf det now rid ca iv r :
  same_pair (row_to_add id pf det now rid ca iv) r ↔ pair_of r = (pf, rid).
Proof.
  unfold same_pair, pair_of, row_to_add. cbn [pythonfile remote_id].
  split; [intros [-> ->]; done | intros [= <- <-]; done].
Qed.

(** The insert of [add_job] on a table that obeys its schema: a no-op when
    the pair is there already, one more row otherwise. *)
Lemma insert_job t pf det now rid ca iv :
  Forall (λ r, row_id r ≤ seq t) (rows t) →
  sql_insert (JobQueue.job_data pf det now rid ca iv)
    (Some ["pythonfile"; "remote_id"]) t
  = if bool_decide (Exists (λ r, pair_of r = (pf, rid)) (rows t))
    then (Ok 0, Table (rows t) (seq t + 1))
    else (Ok 1, Table (rows t ++ [row_to_add (seq t + 1) pf det now rid ca iv])
                  (seq t + 1)).
Proof.
  intros Hids. unfold sql_insert. rewrite new_row_job_data.
  destruct (decide ("id" ∈ dom _)) as [Hin|_].
  { apply elem_of_dom in Hin. rewrite job_data_no_id in Hin. by destruct Hin. }
  change (infer_arbiter ["pythonfile"; "remote_id"]) with (Some PairConstraint).
  cbn beta iota zeta.
  rewrite (bool_decide_ext _ (Exists (λ r, pair_of r = (pf, rid)) (rows t))).
  2:{ rewrite !Exists_exists. by setoid_rewrite same_pair_row_to_add. }
  destruct (bool_decide (Exists _ (rows t))); [done|].
  rewrite bool_decide_eq_false_2; [done|].
  rewrite Exists_exists. intros (r & Hr & Hid).
  rewrite Forall_forall in Hids. specialize (Hids r Hr).
  unfold same_id in Hid. simpl in Hid. lia.
Qed.

Lemma add_job_eq w pf det rid ca iv :
  rid ≠ "" → Forall (λ r, row_id r ≤ seq (db w)) (rows (db w)) →
  JobQueue.add_job pf det (Some rid) ca iv w
  = (Ok (Job.get_by_data (JobQueue.job_data pf det (clock w) rid ca iv)),
     set_db (after_add (db w) pf det (clock w) rid ca iv) w).
Proof.
  intros Hrid Hids. unfold JobQueue.add_job, JobQueue.given, insert.
  destruct (decide (rid = "")); [done|].
  destruct (decide ("jobs" = "jobs")); [|done].
  unfold_m. rewrite (insert_job _ _ _ _ _ _ _ Hids). unfold after_add.
  by destruct (bool_decide (Exists _ _)).
Qed.

Lemma with_pair_at_most_one pf rid t :
  NoDup (pair_of <$> rows t) → (length (with_pair pf rid t) ≤ 1)%nat.
Proof.
  unfold with_pair. induction (rows t) as [|r l IH]; [simpl; lia|].
  rewrite fmap_cons, NoDup_cons. intros [Hr Hl].
  destruct (decide (pair_of r = (pf, rid))) as [Heq|Hne].
  - rewrite filter_cons_True by done.
    assert (filter (λ r0, pair_of r0 = (pf, rid)) l = []) as ->; [|simpl; lia].
    apply filter_none, Forall_forall. intros r' Hr' Heq'. apply Hr.
    rewrite Heq, <- Heq'. by apply list_elem_of_fmap_2.
  - rewrite filter_cons_False by done. auto.
Qed.

Lemma after_add_well_formed t pf det now rid ca iv :
  well_formed t → well_formed (after_add t pf det now rid ca iv).
Proof.
  intros [Hnd Hids]. unfold after_add, well_formed.
  destruct (bool_decide_reflect (Exists (λ r, pair_of r = (pf, rid)) (rows t)))
    as [Hex|Hno]; cbn [rows seq].
  - split; [done|]. eapply Forall_impl; [exact Hids|]. intros r Hr; cbn in *; lia.
  - split.
    + rewrite fmap_app. apply NoDup_app. split; [done|]. split.
      * intros p Hp [->|[]%elem_of_nil]%elem_of_cons. apply Hno.
        apply list_elem_of_fmap in Hp as (r & Hr & Hin).
        apply Exists_exists. exists r. split; [done|]. by rewrite <- Hr.
      * apply NoDup_singleton.
    + apply Forall_app. split.
      * eapply Forall_impl; [exact Hids|]. intros r Hr; cbn in *; lia.
      * apply Forall_singleton. cbn. lia.
Qed.

Lemma after_add_one t pf det now rid ca iv :
  well_formed t → length (with_pair pf rid (after_add t pf det now rid ca iv)) = 1%nat.
Proof.
  intros [Hnd Hids]. unfold after_add, with_pair.
  destruct (bool_decide_reflect (Exists (λ r, pair_of r = (pf, rid)) (rows t)))
    as [Hex|Hno]; cbn [rows seq].
  - pose proof (with_pair_at_most_one pf rid t Hnd) as Hle. unfold with_pair in Hle.
    destruct (filter (λ r, pair_of r = (pf, rid)) (rows t)) as [|r l] eqn:Hf.
    + by apply filter_nil_not_exists in Hf.
    + simpl in *. lia.
  - rewrite filter_app. apply (proj2 (filter_nil_not_exists _ _)) in Hno. rewrite Hno.
    by rewrite filter_cons_True.
Qed.

Lemma after_add_keeps t pf det now rid ca iv :
  with_pair pf rid t ≠ [] → rows (after_add t pf det now rid ca iv) = rows t.
Proof.
  intros Hne. unfold after_add.
  destruct (bool_decide_reflect (Exists (λ r, pair_of r = (pf, rid)) (rows t)))
    as [Hex|Hno]; [done|].
  by apply (proj2 (filter_nil_not_exists _ _)) in Hno.
Qed.

Lemma add_jobs_spec pf rid calls : rid ≠ "" → ∀ w,
  well_formed (db w) →
  ∃ w', add_jobs pf rid calls w = (Ok tt, w')
    ∧ well_formed (db w')
    ∧ (calls ≠ [] ∨ with_pair pf rid (db w) ≠ [] →
       length (with_pair pf rid (db w')) = 1%nat)
    ∧ (with_pair pf rid (db w) ≠ [] → rows (db w') = rows (db w)).
Proof.
  intros Hrid. induction calls as [|[[[now det] ca] iv] calls IH]; intros w Hwf.
  - exists w. split; [done|]. split; [done|]. split; [|done].
    intros [?|Hne]; [done|]. destruct Hwf as [Hnd _].
    pose proof (with_pair_at_most_one pf rid (db w) Hnd).
    destruct (with_pair pf rid (db w)); [done|simpl in *; lia].
  - cbn [add_jobs].
    set (w1 := at_time now w).
    set (w2 := set_db (after_add (db w1) pf det (clock w1) rid ca iv) w1).
    assert (Hwf2 : well_formed (db w2)) by by apply after_add_well_formed.
    destruct (IH w2 Hwf2) as (w' & Hrun & Hwf' & Hone & Hkeep).
    exists w'. split; [|split; [done|split]].
    + erewrite bind_ok; [|reflexivity].
      erewrite bind_ok; [|apply add_job_eq; [done|apply Hwf]].
      exact Hrun.
    + intros _. apply Hone. right.
      pose proof (after_add_one (db w1) pf det (clock w1) rid ca iv Hwf) as H1.
      intros Hnil. change (db w2) with (after_add (db w1) pf det (clock w1) rid ca iv) in Hnil.
      by rewrite Hnil in H1.
    + intros Hne. rewrite Hkeep.
      * by apply after_add_keeps.
      * unfold with_pair.
        change (rows (db w2)) with (rows (after_add (db w1) pf det (clock w1) rid ca iv)).
        by rewrite after_add_keeps.
Qed.

(** C2 at a failing input.  [add_job("w", ..., remote_id="")] is called
    twice on an empty table.  An empty remote id counts as none, so each call
    draws a UUID: the table holds two rows afterwards, and none with the
    pair [("w", "")]. *)
Lemma unique_enqueue_counterexample :
  let w := Examples.world_of Examples.no_rows 100 in
  let calls := [(200, "a", 0, 0); (210, "b", 0, 0)] in
  well_formed (db w)
  ∧ ∃ w', add_jobs "w" "" calls w = (Ok tt, w')
      ∧ rows (db w') = [row_to_add 1 "w" "a" 200 "uuid-0" 0 0;
                        row_to_add 2 "w" "b" 210 "uuid-1" 0 0]
      ∧ length (with_pair "w" "" (db w')) ≠ 1%nat.
Proof.
  cbv zeta. split; [split; constructor|].
  eexists. split; [vm_compute; reflexivity|]. split; [reflexivity|].
  vm_compute. discriminate.
Qed.

(** C2, amended.  For a pair [(pythonfile, remote_id)] whose remote id is not
    empty, calling [add_job] with that pair any number of times (at least
    once; at any times and with any other arguments) on a table that obeys
    its schema raises nothing and leaves exactly one row with that pair; a
    row that had the pair before is still the one stored. *)
Theorem unique_enqueue (w : world) (pf rid : string)
    (calls : list (Z * string * Z * Z)) :
  well_formed (db w) → rid ≠ "" → calls ≠ [] →
  ∃ w', add_jobs pf rid calls w = (Ok tt, w')
    ∧ length (with_pair pf rid (db w')) = 1%nat
    ∧ (with_pair pf rid (db w) ≠ [] → with_pair pf rid (db w') = with_pair pf rid (db w)).
Proof.
  intros Hwf Hrid Hcalls.
  destruct (add_jobs_spec pf rid calls Hrid w Hwf) as (w' & Hrun & _ & Hone & Hkeep).
  exists w'. split; [done|]. split; [auto|].
  intros Hne. unfold with_pair. by rewrite Hkeep.
Qed.

Lemma unique_enqueue_witness :
  let w := Examples.world_of Examples.one_row 200 in
  let calls := [(200, "b", 500, 0); (230, "c", 0, 60)] in
  well_formed (db w) ∧ "x" ≠ "" ∧ calls ≠ []
  ∧ ∃ w', add_jobs "w" "x" calls w = (Ok tt, w')
      ∧ length (with_pair "w" "x" (db w')) = 1%nat
      ∧ (with_pair "w" "x" (db w) ≠ [] →
         with_pair "w" "x" (db w') = with_pair "w" "x" (db w)).
Proof.
  assert (Hwf : well_formed (db (Examples.world_of Examples.one_row 200))).
  { split; [apply NoDup_singleton|apply Forall_singleton; reflexivity]. }
  split; [exact Hwf|]. split; [done|]. split; [done|].
  apply (unique_enqueue (Examples.world_of Examples.one_row 200) "w" "x"
           [(200, "b", 500, 0); (230, "c", 0, 60)] Hwf); done.
Defined.

(** C6 at a failing input.  The table holds a job for [("w", "x")] that
    was queued at time 100.  [add_job("w", "b", remote_id="x",
    claim_after=500)] at time 200 stores nothing, and the handle it returns
    is made of its own arguments: its [timestamp] is 200 and its
    [timestamp_after] 500 where the stored row has 100 and 0, and it has
    no [id]. *)
Theorem add_job_returns_its_arguments :
  let w := Examples.world_of Examples.one_row 200 in
  let j := Job.get_by_data (JobQueue.job_data "w" "b" 200 "x" 500 0) in
  JobQueue.add_job "w" "b" (Some "x") 500 0 w
    = (Ok j, set_db (Table [Examples.queued] 2) w)
  ∧ Job.data j !! "timestamp" = Some (VInt 200)
  ∧ timestamp Examples.queued = 100
  ∧ Job.data j !! "timestamp_after" = Some (VInt 500)
  ∧ timestamp_after Examples.queued = 0
  ∧ Job.data j !! "id" = None
  ∧ row_id Examples.queued = 1
  ∧ ¬ reflects j Examples.queued.
Proof.
  cbv zeta. split.
  { rewrite add_job_eq; [|done|apply Forall_singleton; reflexivity]. reflexivity. }
  do 6 (split; [reflexivity|]).
  intros Hsub.
  pose proof (lookup_weaken _ _ "timestamp" (VInt 200) (job_data_timestamp _ _ _ _ _ _) Hsub)
    as Hts.
  change (row_dict Examples.queued !! "timestamp") with (col "timestamp" Examples.queued)
    in Hts.
  rewrite col_timestamp in Hts. discriminate Hts.
Qed.

End EnqueueFacts.

(** ** Job handles and workers *)

Module WorkerFacts.

Import Spec.

Lemma release_eq j delay w id :
  Job.data j !! "id" = Some id →
  Job.release j delay w
  = (Ok tt, moved w (after_release id (clock w) delay (db w)) []
              [CallRelease (Some id) delay]).
Proof.
  intros Hid. unfold Job.release. unfold_m. rewrite Hid. unfold moved, after_release.
  cbn. by rewrite app_nil_r.
Qed.

Lemma finish_eq j w id iv :
  Job.data j !! "id" = Some id →
  Job.data j !! "interval" = Some (VInt iv) →
  Job.finish j w
  = (Ok tt, moved w (after_finish id iv (clock w) (db w)) [] [CallFinish (Some id)]).
Proof.
  intros Hid Hiv. unfold Job.finish. unfold_m. rewrite Hid, Hiv.
  unfold moved, after_finish. destruct (decide (iv = 0)); cbn; by rewrite app_nil_r.
Qed.

Lemma add_status_eq j text w id :
  Job.data j !! "id" = Some id →
  Job.add_status j text w
  = (Ok tt, moved w (after_status id (clock w) text (db w)) []
              [CallAddStatus (Some id) text]).
Proof.
  intros Hid. unfold Job.add_status. unfold_m. rewrite Hid. unfold moved, after_status.
  cbn. by rewrite app_nil_r.
Qed.

Lemma on_job_eq {A} (f : Job.t → M world A) s r w :
  f (Worker.job (Worker.self s)) (Worker.env s) = (r, w) →
  Worker.on_job f s = (r, Worker.set_env w s).
Proof. intros H. unfold Worker.on_job. unfold_m. by rewrite H. Qed.

Lemma moved_moved w t1 m1 c1 t2 m2 c2 :
  moved (moved w t1 m1 c1) t2 m2 c2 = moved w t2 (m1 ++ m2) (c1 ++ c2).
Proof. unfold moved. cbn. by rewrite !app_assoc. Qed.

Lemma log_msg_eq l msg w : log_msg l msg w = (Ok tt, moved w (db w) [(l, msg)] []).
Proof. unfold log_msg, modify, moved. by rewrite app_nil_r. Qed.

Lemma interrupt_derives e :
  Worker.is_interrupt e = true → derives_from_exception e = true.
Proof.
  unfold Worker.is_interrupt, derives_from_exception.
  intros H. apply bool_decide_eq_true in H. by rewrite H.
Qed.

(** What [run()] does when [work()] raises an exception that derives from
    [Exception] and is not a [WorkerInterruptedException]. *)
Lemma run_crash work s s1 e id iv :
  work s = (Raise e, s1) →
  derives_from_exception e = true →
  Worker.is_interrupt e = false →
  Job.data (Worker.job (Worker.self s1)) !! "id" = Some id →
  Job.data (Worker.job (Worker.self s1)) !! "interval" = Some (VInt iv) →
  let w := Worker.env s1 in
  let text := "Crash during execution" in
  Worker.run work s
  = (Ok tt,
     Worker.State
       (moved w (after_finish id iv (clock w) (after_status id (clock w) text (db w)))
          [(ERROR, Worker.crash_message (Worker.type (Worker.cls (Worker.self s1))) e)]
          [CallAddStatus (Some id) text; CallFinish (Some id)])
       (Worker.self s1)).
Proof.
  intros Hwork Hderives Hint Hid Hiv w text. unfold Worker.run.
  erewrite bind_ok.
  2:{ unfold try_except. rewrite Hwork, Hderives, Hint. cbn beta iota.
      erewrite bind_ok; [|reflexivity].
      erewrite bind_ok.
      2:{ unfold Worker.log_error. apply lift_eq, log_msg_eq. }
      apply on_job_eq. apply add_status_eq. exact Hid. }
  unfold Worker.after_work. erewrite on_job_eq.
  2:{ cbn [Worker.set_env Worker.self Worker.env]. apply finish_eq; [exact Hid|exact Hiv]. }
  cbn [Worker.set_env Worker.self Worker.env]. rewrite !moved_moved. reflexivity.
Qed.

(** What [run()] does when [work()] raises [WorkerInterruptedException]
    while the interrupt flag is [INTERRUPT_RETRY]. *)
Lemma run_interrupted_retry work s s1 e id iv :
  work s = (Raise e, s1) →
  Worker.is_interrupt e = true →
  Worker.interrupted (Worker.self s1) = Worker.INTERRUPT_RETRY →
  Job.data (Worker.job (Worker.self s1)) !! "id" = Some id →
  Job.data (Worker.job (Worker.self s1)) !! "interval" = Some (VInt iv) →
  let w := Worker.env s1 in
  Worker.run work s
  = (Ok tt,
     Worker.State
       (moved w (after_finish id iv (clock w) (after_release id (clock w) 10 (db w)))
          [(INFO, "Worker " +:+ Worker.type (Worker.cls (Worker.self s1)) +:+ " interrupted")]
          [CallRelease (Some id) 10; CallFinish (Some id)])
       (Worker.self s1)).
Proof.
  intros Hwork Hint Hflag Hid Hiv w.
  unfold Worker.run, try_except, mbind, M_bind, bind.
  rewrite Hwork, (interrupt_derives e Hint), Hint.
  unfold gets at 1 2. unfold Worker.log_info, lift.
  rewrite log_msg_eq. cbn [Worker.set_env Worker.self Worker.env]. rewrite Hflag.
  destruct (decide (Worker.INTERRUPT_RETRY = Worker.INTERRUPT_RETRY)); [|done].
  erewrite on_job_eq by (apply release_eq; exact Hid).
  unfold Worker.abort, ret, Worker.after_work.
  erewrite on_job_eq by (apply finish_eq; [exact Hid|exact Hiv]).
  cbn [Worker.set_env Worker.self Worker.env]. rewrite !moved_moved. reflexivity.
Qed.

Lemma finished_one_shot_gone id now t r :
  r ∈ rows (after_finish id 0 now t) → VInt (row_id r) ≠ id.
Proof.
  unfold after_finish, sql_delete. simpl. rewrite list_elem_of_filter.
  intros [Hno _] Heq. apply Hno. unfold Job.where_id, matches.
  cbn [eval_cond eval_expr]. rewrite DatabaseFacts.col_id. cbn beta iota.
  apply Is_true_true, bool_decide_eq_true. done.
Qed.

Lemma matches_where_id id r :
  matches (Job.where_id id) r = bool_decide (VInt (row_id r) = id).
Proof.
  unfold Job.where_id, matches. cbn [eval_cond eval_expr]. by rewrite DatabaseFacts.col_id.
Qed.

Lemma apply_set_status x r :
  apply_set [("status", Concat (Col "status") (Lit (VStr x)))] r
  = Row (row_id r) (pythonfile r) (remote_id r) (details r) (timestamp r)
      (timestamp_after r) (timestamp_claimed r) (timestamp_lastclaimed r) (interval r)
      (attempts r) (status r +:+ x).
Proof. by destruct r. Qed.

Lemma apply_set_unclaim now r :
  apply_set [("timestamp_claimed", Lit (VInt 0)); ("timestamp_lastclaimed", Lit (VInt now))] r
  = Row (row_id r) (pythonfile r) (remote_id r) (details r) (timestamp r)
      (timestamp_after r) 0 now (interval r) (attempts r) (status r).
Proof. by destruct r. Qed.

(** The table after a crash: the row of a one-shot job is gone, the row of a
    job with an interval is as [crashed] says, and the other rows are as
    they were. *)
Lemma rows_after_crash id iv now t :
  rows (after_finish id iv now (after_status id now "Crash during execution" t))
  = if decide (iv = 0) then filter (λ r, VInt (row_id r) ≠ id) (rows t)
    else (λ r, if decide (VInt (row_id r) = id) then crashed now r else r) <$> rows t.
Proof.
  unfold after_finish, after_status, sql_update, sql_delete. cbn [fst rows].
  destruct (decide (iv = 0)) as [_|_]; cbn [fst rows].
  - induction (rows t) as [|r l IH]; [reflexivity|].
    cbn [map]. rewrite !filter_cons, IH. rewrite (matches_where_id id r).
    destruct (decide (VInt (row_id r) = id)) as [Hid|Hid].
    + rewrite (bool_decide_eq_true_2 _ Hid), apply_set_status.
      rewrite matches_where_id. cbn [row_id].
      rewrite (bool_decide_eq_true_2 _ Hid).
      rewrite !decide_False by (intros H; by apply H). reflexivity.
    + rewrite (bool_decide_eq_false_2 _ Hid), matches_where_id.
      rewrite (bool_decide_eq_false_2 _ Hid).
      rewrite !decide_True by first [exact Hid|intros H; exact H]. reflexivity.
  - rewrite map_map. apply map_ext. intros r. rewrite (matches_where_id id r).
    destruct (decide (VInt (row_id r) = id)) as [Hid|Hid].
    + rewrite (bool_decide_eq_true_2 _ Hid), apply_set_status, matches_where_id.
      cbn [row_id]. rewrite (bool_decide_eq_true_2 _ Hid), apply_set_unclaim. reflexivity.
    + rewrite (bool_decide_eq_false_2 _ Hid), matches_where_id.
      by rewrite (bool_decide_eq_false_2 _ Hid).
Qed.

(** C5 at a failing input.  [work()] calls [sys.exit()], which raises
    [SystemExit]; that class does not derive from [Exception], so neither
    handler of [run()] catches it: the exception leaves [run()], nothing is
    logged, neither [add_status] nor [finish()] is called, and the job stays
    claimed. *)
Lemma crash_counterexample :
  let s := Examples.worker_on Examples.held 0 200 in
  Examples.exiting_work s = (Raise Examples.exit_, s)
  ∧ e_class Examples.exit_ ≠ WorkerInterruptedException
  ∧ Worker.run Examples.exiting_work s = (Raise Examples.exit_, s)
  ∧ log (Worker.env s) = []
  ∧ journal (Worker.env s) = []
  ∧ rows (db (Worker.env s)) = [Examples.held]
  ∧ timestamp_claimed Examples.held = 150.
Proof. cbv zeta. split_and!; (reflexivity || discriminate). Qed.

(** What [run()] does when [work()] raises an exception that does not
    derive from [Exception]. *)
Lemma run_escapes work s s1 e :
  work s = (Raise e, s1) →
  derives_from_exception e = false →
  Worker.run work s = (Raise e, s1).
Proof.
  intros Hwork Hderives. unfold Worker.run, try_except, mbind, M_bind, bind.
  by rewrite Hwork, Hderives.
Qed.

(** C5, amended.  When [work()] raises an exception that derives from
    [Exception] and is not a [WorkerInterruptedException], [run()] returns
    normally: nothing leaves the worker thread.  It has logged one error,
    which names the class and the message of the exception and the trail of
    its frames, has called [add_status("Crash during execution")] and then
    [finish()] on the job, and has not called [release].  A one-shot job is
    gone from the table; the row of a job with an interval holds the note
    in its status and is not claimed; every other row is as it was.  An
    exception that does not derive from [Exception] leaves [run()], which
    has then done nothing: the state is as [work()] left it. *)
Theorem crash_is_caught_and_job_finished (work : M Worker.state unit)
    (s s1 : Worker.state) (e : exc) (id : val) (iv : Z) :
  work s = (Raise e, s1) →
  e_class e ≠ WorkerInterruptedException →
  Job.data (Worker.job (Worker.self s1)) !! "id" = Some id →
  Job.data (Worker.job (Worker.self s1)) !! "interval" = Some (VInt iv) →
  (derives_from_exception e = false → Worker.run work s = (Raise e, s1))
  ∧ (derives_from_exception e = true →
     ∃ s2, Worker.run work s = (Ok tt, s2)
       ∧ log (Worker.env s2)
         = log (Worker.env s1)
           ++ [(ERROR, Worker.crash_message (Worker.type (Worker.cls (Worker.self s1))) e)]
       ∧ journal (Worker.env s2)
         = journal (Worker.env s1)
           ++ [CallAddStatus (Some id) "Crash during execution"; CallFinish (Some id)]
       ∧ db (Worker.env s2)
         = after_finish id iv (clock (Worker.env s1))
             (after_status id (clock (Worker.env s1)) "Crash during execution"
                (db (Worker.env s1)))
       ∧ (iv = 0 → ∀ r, r ∈ rows (db (Worker.env s2)) → VInt (row_id r) ≠ id)
       ∧ rows (db (Worker.env s2))
         = (if decide (iv = 0)
            then filter (λ r, VInt (row_id r) ≠ id) (rows (db (Worker.env s1)))
            else (λ r, if decide (VInt (row_id r) = id)
                       then crashed (clock (Worker.env s1)) r else r)
                 <$> rows (db (Worker.env s1)))).
Proof.
  intros Hwork Hclass Hid Hiv. split; [by apply run_escapes|]. intros Hderives.
  assert (Hint : Worker.is_interrupt e = false)
    by (unfold Worker.is_interrupt; by apply bool_decide_eq_false).
  eexists. split; [by apply (run_crash work s s1 e id iv)|].
  cbn [Worker.env moved log journal db]. split_and!; try reflexivity.
  - intros -> r. apply finished_one_shot_gone.
  - apply rows_after_crash.
Qed.

Lemma crash_is_caught_and_job_finished_witness :
  let s := Examples.worker_on Examples.held 0 200 in
  Examples.crashing_work s = (Raise Examples.boom, s)
  ∧ e_class Examples.boom ≠ WorkerInterruptedException
  ∧ derives_from_exception Examples.boom = true
  ∧ ∃ s2, Worker.run Examples.crashing_work s = (Ok tt, s2)
      ∧ log (Worker.env s2)
        = [(ERROR, "Worker w raised exception RuntimeError and will abort: boom at w.py:12->util.py:3")]
      ∧ journal (Worker.env s2)
        = [CallAddStatus (Some (VInt 1)) "Crash during execution";
           CallFinish (Some (VInt 1))]
      ∧ rows (db (Worker.env s2)) = [].
Proof.
  cbv zeta. split; [reflexivity|]. split; [discriminate|]. split; [reflexivity|].
  destruct (crash_is_caught_and_job_finished Examples.crashing_work
              (Examples.worker_on Examples.held 0 200)
              (Examples.worker_on Examples.held 0 200)
              Examples.boom (VInt 1) 0) as [_ Hcaught];
    [reflexivity|discriminate|reflexivity|reflexivity|].
  destruct (Hcaught eq_refl) as (s2 & Hrun & Hlog & Hjournal & Hdb & _ & _).
  exists s2. split; [exact Hrun|]. split; [exact Hlog|]. split; [exact Hjournal|].
  rewrite Hdb. reflexivity.
Defined.

(** C1 at a failing input.  A worker holds a one-shot job; its [work()]
    raises [WorkerInterruptedException] while its interrupt flag is
    [INTERRUPT_RETRY].  [run()] calls [release(delay=10)] and then, through
    [after_work()], [finish()], which deletes the row: nothing is left to
    claim again.  On a job with an interval the row stays, and [finish()] is
    called on it all the same. *)
Theorem retry_interrupt_ends_in_finish :
  let s := Examples.worker_on Examples.held Worker.INTERRUPT_RETRY 200 in
  let s' := Examples.worker_on Examples.held_recurring Worker.INTERRUPT_RETRY 200 in
  (∃ s2, Worker.run Examples.interrupted_work s = (Ok tt, s2)
     ∧ journal (Worker.env s2)
       = [CallRelease (Some (VInt 1)) 10; CallFinish (Some (VInt 1))]
     ∧ rows (db (Worker.env s2)) = [])
  ∧ (∃ s2, Worker.run Examples.interrupted_work s' = (Ok tt, s2)
     ∧ journal (Worker.env s2)
       = [CallRelease (Some (VInt 1)) 10; CallFinish (Some (VInt 1))]
     ∧ rows (db (Worker.env s2)) = [Row 1 "w" "x" "a" 100 210 0 200 60 1 ""]).
Proof.
  cbv zeta. split.
  - pose proof (run_interrupted_retry Examples.interrupted_work
                  (Examples.worker_on Examples.held Worker.INTERRUPT_RETRY 200)
                  (Examples.worker_on Examples.held Worker.INTERRUPT_RETRY 200)
                  (mk_exc WorkerInterruptedException "") (VInt 1) 0
                  eq_refl eq_refl eq_refl eq_refl eq_refl) as Hrun.
    eexists. split; [exact Hrun|]. split; reflexivity.
  - pose proof (run_interrupted_retry Examples.interrupted_work
                  (Examples.worker_on Examples.held_recurring Worker.INTERRUPT_RETRY 200)
                  (Examples.worker_on Examples.held_recurring Worker.INTERRUPT_RETRY 200)
                  (mk_exc WorkerInterruptedException "") (VInt 1) 60
                  eq_refl eq_refl eq_refl eq_refl eq_refl) as Hrun.
    eexists. split; [exact Hrun|]. split; reflexivity.
Qed.

End WorkerFacts.

(** ** The dispatcher *)

Module ManagerFacts.

Import Spec.

Lemma pool_get_set_eq t ws p : Manager.pool_get t (Manager.pool_set t ws p) = Some ws.
Proof.
  induction p as [|[k v] p IH]; simpl.
  - by destruct (decide (t = t)).
  - destruct (decide (k = t)) as [->|Hne]; simpl.
    + by destruct (decide (t = t)).
    + by destruct (decide (k = t)).
Qed.

Lemma pool_get_set_ne t t' ws p :
  t ≠ t' → Manager.pool_get t' (Manager.pool_set t ws p) = Manager.pool_get t' p.
Proof.
  intros Hne. induction p as [|[k v] p IH]; simpl.
  - by destruct (decide (t = t')).
  - destruct (decide (k = t)) as [->|Hk]; simpl.
    + by destruct (decide (t = t')).
    + destruct (decide (k = t')); [done|]. exact IH.
Qed.

(** Code that runs on the world leaves the rest of the state alone. *)
Lemma hoare_on_env {A} (P : Manager.state → Prop) (m : M world A) :
  (∀ s w, P s → P (Manager.set_env w s)) →
  hoare P (Manager.on_env m) (λ _ s, P s).
Proof.
  intros HP s Hs. unfold Manager.on_env, lift.
  destruct (m (Manager.env s)) as [r w]. simpl. by apply HP.
Qed.

Lemma capped_set_env s w : capped s → capped (Manager.set_env w s).
Proof. done. Qed.

Lemma find_elem_of {A} (f : A → bool) (l : list A) x : find f l = Some x → x ∈ l.
Proof.
  induction l as [|y l IH]; simpl; [done|].
  destruct (f y); [intros [= ->]; by left|]. intros H. right. auto.
Qed.

(** Resolving a worker class keeps the pool within its caps, and a class
    that is returned is the one that the map holds for the type. *)
Lemma get_worker_for_file_capped p :
  hoare capped (Manager.get_worker_for_file p)
    (λ r s, capped s
            ∧ ∀ c, r = Ok (Some c) →
                   Manager.worker_map s !! Manager.get_worker_type_for_file p = Some c).
Proof.
  intros s [Hcaps (Hmap & Hmods & Hfiles)]. unfold Manager.get_worker_for_file.
  cbv zeta. generalize (Manager.get_worker_type_for_file p). intros t.
  unfold_m.
  destruct (Manager.worker_map s !! t) as [c|] eqn:Hc; cbn.
  { split; [by split|]. by intros c' [= <-]. }
  assert (Hinsert : ∀ s' c', Manager.worker_pool s' = Manager.worker_pool s →
            Manager.worker_map s' = Manager.worker_map s →
            caps_not_negative s' → 0 ≤ Worker.max_workers c' →
            capped (Manager.set_worker_map (<[t:=c']> (Manager.worker_map s')) s')).
  { intros s' c' Hpool Hm (Hmap' & Hmods' & Hfiles') Hc'. split.
    - intros t' ws. cbn. rewrite Hpool, Hm. intros Hws.
      destruct (Hcaps t' ws Hws) as (c0 & Hc0 & Hlen).
      exists c0. split; [|done]. rewrite lookup_insert_ne; [done|]. congruence.
    - split; [|split]; cbn; [|done|done].
      intros t' c0. rewrite lookup_insert. case_decide.
      + intros [= <-]. done.
      + apply Hmap'. }
  destruct (Manager.sys_modules s !! t) as [m|] eqn:Hm; cbn.
  - rewrite Hm. cbn.
    destruct (find Manager.instantiable m) as [x|] eqn:Hfind; cbn.
    + split.
      * apply Hinsert; try done. eapply Hmods; [exact Hm|]. by eapply find_elem_of.
      * intros c' [= <-]. apply lookup_insert_eq.
    + split; [by split|]. intros c' [=].
  - destruct (Manager.files s !! p) as [wm|] eqn:Hfile; cbn.
    + rewrite lookup_insert_eq. cbn.
      assert (Hnn : caps_not_negative
                (Manager.set_sys_modules (<[t:=wm]> (Manager.sys_modules s)) s)).
      { split; [|split]; cbn; [done| |done].
        intros t' m' x. rewrite lookup_insert. case_decide.
        - intros [= <-]. by apply (Hfiles p).
        - apply Hmods. }
      destruct (find Manager.instantiable wm) as [x|] eqn:Hfind; cbn.
      * split.
        -- apply (Hinsert (Manager.set_sys_modules _ s)); try done.
           eapply Hfiles; [exact Hfile|]. by eapply find_elem_of.
        -- intros c' [= <-]. apply lookup_insert_eq.
      * split; [by split|]. intros c' [=].
    + split; [by split|]. intros c' [=].
Qed.

Lemma pool_le_refl p : pool_le p p.
Proof. intros t ws H. eauto. Qed.

Lemma capped_pool_le s s' :
  capped s → same_classes s s' →
  pool_le (Manager.worker_pool s') (Manager.worker_pool s) → capped s'.
Proof.
  intros [Hcaps (Hmap & Hmods & Hfiles)] (Em & Es & Ef) Hle. split.
  - intros t ws' Hws'. destruct (Hle t ws' Hws') as (ws & Hws & Hlen).
    destruct (Hcaps t ws Hws) as (c & Hc & Hcap). exists c. rewrite Em. split; [done|lia].
  - unfold caps_not_negative. rewrite Em, Es, Ef. done.
Qed.

Lemma capped_pool_set s s' t c ws :
  capped s → same_classes s s' →
  Manager.worker_pool s' = Manager.pool_set t ws (Manager.worker_pool s) →
  Manager.worker_map s !! t = Some c →
  Z.of_nat (length ws) ≤ Worker.max_workers c →
  capped s'.
Proof.
  intros [Hcaps (Hmap & Hmods & Hfiles)] (Em & Es & Ef) Hpool Hc Hlen. split.
  - intros t' ws'. rewrite Hpool, Em. destruct (decide (t = t')) as [<-|Hne].
    + rewrite pool_get_set_eq. intros [= <-]. eauto.
    + rewrite pool_get_set_ne by done. apply Hcaps.
  - unfold caps_not_negative. rewrite Em, Es, Ef. done.
Qed.

(** The rest of the loop body of [delegate], once the worker class [c] of
    the type [t] is known: the pool is entered under [t], the cap is
    tested, and a worker is added only below the cap. *)
Lemma start_below_cap job t c s :
  capped s → Manager.worker_map s !! t = Some c →
  capped
    ((modify (λ s, match Manager.pool_get t (Manager.worker_pool s) with
                   | None => Manager.set_worker_pool
                               (Manager.pool_set t [] (Manager.worker_pool s)) s
                   | Some _ => s
                   end);;
      running ← gets (λ s, default [] (Manager.pool_get t (Manager.worker_pool s)));
      if decide (Z.of_nat (length running) >= Worker.max_workers c) then ret tt
      else try_except
             (claimed ← Manager.on_env (Job.claim job);
              Manager.start_worker t c claimed)
             Manager.is_job_claimed (λ _, ret tt)) s).2.
Proof.
  intros Hs Hc.
  assert (Hnn : 0 ≤ Worker.max_workers c) by (destruct Hs as [_ (Hmap & _)]; eauto).
  unfold_m. cbn beta iota.
  set (s1 := match Manager.pool_get t (Manager.worker_pool s) with
             | None => Manager.set_worker_pool
                         (Manager.pool_set t [] (Manager.worker_pool s)) s
             | Some _ => s
             end).
  assert (Hs1 : capped s1 ∧ Manager.worker_map s1 !! t = Some c).
  { unfold s1. destruct (Manager.pool_get t (Manager.worker_pool s)); [done|].
    split; [|done]. eapply (capped_pool_set s _ t c []); try done. }
  destruct Hs1 as [Hs1 Hc1]. clearbody s1. clear Hs Hc s.
  destruct (decide (Z.of_nat (length (default [] (Manager.pool_get t (Manager.worker_pool s1))))
                    >= Worker.max_workers c)) as [Hfull|Hroom]; [exact Hs1|].
  cbn beta. unfold Manager.on_env, lift.
  destruct (Job.claim job (Manager.env s1)) as [[claimed|e] w] eqn:Hclaim; cbn.
  - unfold Manager.start_worker, modify. cbn.
    eapply (capped_pool_set s1 _ t c); [done|done|reflexivity|done|].
    rewrite length_app. cbn. lia.
  - destruct (Manager.is_job_claimed e); cbn; by apply capped_set_env.
Qed.

(** One round of the loop of [delegate] over the fetched jobs. *)
Lemma dispatch_capped job : hoare capped (Manager.dispatch job) (λ _ s, capped s).
Proof.
  unfold Manager.dispatch.
  eapply hoare_bind; [apply hoare_getstr| |done]. intros pythonfile.
  eapply hoare_bind; [apply hoare_gets| |by intros e s [? ?]]. intros file.
  eapply hoare_weaken with (P' := capped) (Q' := λ _ s, capped s);
    [|by intros s [_ ?]|done].
  destruct (bool_decide (file = None)).
  - eapply hoare_bind; [apply hoare_on_env, capped_set_env| |done].
    intros []. apply hoare_on_env, capped_set_env.
  - eapply hoare_bind; [apply get_worker_for_file_capped| |by intros e s [? ?]].
    intros [c|].
    + intros s [Hs Hc]. by apply start_below_cap, Hc.
    + intros s [Hs _]. done.
Qed.

(** *** Reaping and stopping do not add workers *)

Lemma length_remove_first id l : (length (Manager.remove_first id l) ≤ length l)%nat.
Proof.
  induction l as [|w l IH]; simpl; [lia|].
  destruct (decide (Manager.ident w = id)); simpl; lia.
Qed.

Lemma length_reap_from fuel : ∀ i l,
  (length (Manager.reap_from fuel i l).1 ≤ length l)%nat.
Proof.
  induction fuel as [|fuel IH]; intros i l; simpl; [lia|].
  destruct (l !! i) as [w|]; simpl; [|lia].
  destruct (Manager.alive w); [apply IH|].
  specialize (IH (S i) (Manager.remove_first (Manager.ident w) l)).
  destruct (Manager.reap_from fuel (S i) _) as [l' evs]. simpl in *.
  pose proof (length_remove_first (Manager.ident w) l). lia.
Qed.

Lemma reap_pool_le p : pool_le (Manager.reap_pool p).1 p.
Proof.
  induction p as [|[k ws] p IH]; simpl; [apply pool_le_refl|].
  pose proof (length_reap_from (length ws) 0 ws) as Hlen.
  unfold Manager.reap_list.
  destruct (Manager.reap_from (length ws) 0 ws) as [ws1 evs].
  destruct (Manager.reap_pool p) as [p1 evs1]. simpl in *.
  intros t ws'. simpl. destruct (decide (k = t)).
  - intros [= <-]. eauto.
  - apply IH.
Qed.

Lemma for_workers_le f p : pool_le (Manager.for_workers f p).1 p.
Proof.
  unfold Manager.for_workers. simpl.
  induction p as [|[k ws] p IH]; simpl; [apply pool_le_refl|].
  intros t ws'. simpl. destruct (decide (k = t)).
  - intros [= <-]. exists ws. by rewrite length_fmap.
  - apply IH.
Qed.

Lemma length_run_worker id work ws w :
  length (Manager.run_worker id work ws w).1 = length ws.
Proof.
  induction ws as [|x ws IH]; simpl; [done|].
  destruct (decide (Manager.ident x = id)); simpl; [done|].
  destruct (Manager.run_worker id work ws w). simpl in *. by rewrite IH.
Qed.

Lemma run_worker_in_le id work p w : pool_le (Manager.run_worker_in id work p w).1 p.
Proof.
  induction p as [|[k ws] p IH]; simpl; [apply pool_le_refl|].
  destruct (bool_decide (Exists (λ x, Manager.ident x = id) ws)).
  - pose proof (length_run_worker id work ws w) as Hlen.
    destruct (Manager.run_worker id work ws w) as [ws1 w1]. simpl in *.
    intros t ws'. simpl. destruct (decide (k = t)); [|eauto].
    intros [= <-]. exists ws. split; [done|lia].
  - destruct (Manager.run_worker_in id work p w) as [p1 w1]. simpl in *.
    intros t ws'. simpl. destruct (decide (k = t)); [eauto|]. apply IH.
Qed.

Lemma interrupt_first_length (P : Manager.state → Prop) id level ws :
  hoare P (Manager.interrupt_first id level ws)
    (λ r s, P s ∧ ∀ ws', r = Ok ws' → length ws' = length ws).
Proof.
  induction ws as [|w ws IH]; intros s Hs; cbn [Manager.interrupt_first].
  - split; [done|]. by intros ws' [= <-].
  - unfold getitem, mbind, M_bind, bind.
    destruct (Job.data (Worker.job (Manager.object w)) !! "id") as [wid|]; cbn.
    + destruct (decide (wid = id)); cbn.
      * split; [done|]. by intros ws' [= <-].
      * destruct (IH s Hs) as [Hs' Hlen].
        destruct (Manager.interrupt_first id level ws s) as [[rest|e] s']; cbn in *.
        -- split; [done|]. intros ws' [= <-]. simpl. by rewrite (Hlen rest).
        -- split; [done|]. by intros ws' [=].
    + split; [done|]. by intros ws' [=].
Qed.

(** *** Every step of every thread keeps the pool within its caps *)

Lemma delegate_capped : hoare capped Manager.delegate (λ _ s, capped s).
Proof.
  unfold Manager.delegate.
  apply hoare_bind_inv; [apply hoare_on_env, capped_set_env|]. intros jobs.
  apply hoare_bind_inv; [apply hoare_gets_inv|]. intros active.
  apply hoare_bind_inv; [apply hoare_on_env, capped_set_env|]. intros [].
  apply hoare_bind_inv.
  { apply hoare_modify_inv. intros s Hs.
    pose proof (reap_pool_le (Manager.worker_pool s)) as Hle.
    destruct (Manager.reap_pool (Manager.worker_pool s)) as [p evs].
    eapply capped_pool_le; [exact Hs|done|exact Hle]. }
  intros []. apply hoare_bind_inv; [|intros []; apply hoare_ret_inv].
  apply hoare_for_each. apply dispatch_capped.
Qed.

Lemma for_workers_capped f :
  hoare capped
    (modify (λ s, let '(p, evs) := Manager.for_workers f (Manager.worker_pool s) in
                  Manager.emit evs (Manager.set_worker_pool p s)))
    (λ _ s, capped s).
Proof.
  apply hoare_modify_inv. intros s Hs.
  pose proof (for_workers_le f (Manager.worker_pool s)) as Hle.
  destruct (Manager.for_workers f (Manager.worker_pool s)) as [p evs].
  eapply capped_pool_le; [exact Hs|done|exact Hle].
Qed.

Lemma stop_workers_capped : hoare capped Manager.stop_workers (λ _ s, capped s).
Proof.
  unfold Manager.stop_workers.
  apply hoare_bind_inv; [apply hoare_on_env, capped_set_env|]. intros [].
  apply for_workers_capped.
Qed.

Lemma join_workers_capped : hoare capped Manager.join_workers (λ _ s, capped s).
Proof.
  unfold Manager.join_workers.
  apply hoare_bind_inv; [apply hoare_on_env, capped_set_env|]. intros [].
  apply hoare_bind_inv; [apply hoare_gets_inv|]. intros p.
  apply hoare_bind_inv; [apply hoare_on_env, capped_set_env|]. intros [].
  apply hoare_bind_inv; [apply for_workers_capped|]. intros [].
  apply hoare_bind_inv; [apply hoare_ret_inv|]. intros [].
  apply hoare_on_env, capped_set_env.
Qed.

Lemma abort_capped : hoare capped Manager.abort (λ _ s, capped s).
Proof.
  unfold Manager.abort.
  apply hoare_bind_inv; [apply hoare_on_env, capped_set_env|]. intros [].
  apply hoare_modify_inv. done.
Qed.

Lemma request_interrupt_capped job level :
  hoare capped (Manager.request_interrupt job level) (λ _ s, capped s).
Proof.
  unfold Manager.request_interrupt.
  apply hoare_bind_inv; [apply hoare_getstr|]. intros pythonfile.
  eapply hoare_bind; [apply hoare_gets| |by intros e s [? ?]].
  intros [[|w ws]|]; try (by intros s [_ Hs]).
  eapply hoare_bind; [apply hoare_getitem| |by intros e s [? ?]]. intros id.
  eapply hoare_bind; [apply interrupt_first_length| |by intros e s [[? ?] ?]].
  intros ws' s [[[= Hget] Hs] Hlen]. unfold modify. cbn [fst snd].
  destruct (proj1 Hs pythonfile (w :: ws) (eq_sym Hget)) as (c & Hc & Hcap).
  eapply capped_pool_set; [exact Hs|done|reflexivity|exact Hc|].
  rewrite (Hlen ws' eq_refl). exact Hcap.
Qed.

Lemma run_step_capped c : capped (Manager.st c) → capped (Manager.st (Manager.run_step c)).
Proof.
  intros Hs. unfold Manager.run_step, Manager.after.
  destruct (Manager.at_ c); cbn [Manager.st]; try done.
  - pose proof (delegate_capped _ Hs) as H.
    destruct (Manager.delegate (Manager.st c)) as [[|] s']; exact H.
  - pose proof (stop_workers_capped _ Hs) as H.
    destruct (Manager.stop_workers (Manager.st c)) as [[|] s']; exact H.
  - destruct (Manager.any_alive _); [done|].
    pose proof (join_workers_capped _ Hs) as H.
    destruct (Manager.join_workers (Manager.st c)) as [[|] s']; exact H.
Qed.

Lemma exec_capped a c : capped (Manager.st c) → capped (Manager.st (Manager.exec a c)).
Proof.
  intros Hs. destruct a; cbn [Manager.exec Manager.st].
  - by apply run_step_capped.
  - apply (abort_capped _ Hs).
  - apply (hoare_on_env capped _ capped_set_env _ Hs).
  - apply (request_interrupt_capped _ _ _ Hs).
  - pose proof (run_worker_in_le id work (Manager.worker_pool (Manager.st c))
                  (Manager.env (Manager.st c))) as Hle.
    destruct (Manager.run_worker_in id work _ _) as [p w]. cbn [Manager.st].
    eapply capped_pool_le; [exact Hs|done|exact Hle].
  - done.
Qed.

Lemma exec_all_capped sched : ∀ c,
  capped (Manager.st c) → capped (Manager.st (Manager.exec_all sched c)).
Proof.
  unfold Manager.exec_all. induction sched as [|a sched IH]; intros c Hc; [done|].
  simpl. apply IH. by apply exec_capped.
Qed.

(** A job whose type is at its cap is passed over: nothing is claimed and no
    worker is added. *)
Lemma dispatch_at_cap s job pf m c ws :
  Job.data job !! "pythonfile" = Some (VStr pf) →
  Manager.files s !! pf = Some m →
  Manager.worker_map s !! Manager.get_worker_type_for_file pf = Some c →
  Manager.pool_get (Manager.get_worker_type_for_file pf) (Manager.worker_pool s) = Some ws →
  Z.of_nat (length ws) >= Worker.max_workers c →
  Manager.dispatch job s = (Ok tt, s).
Proof.
  intros Hpf Hfile Hc Hws Hfull. unfold Manager.dispatch, Manager.get_worker_for_file.
  cbv zeta. unfold_m. rewrite Hpf. cbn beta iota. rewrite Hfile. cbn beta iota.
  rewrite bool_decide_eq_false_2 by done. cbn beta iota. rewrite Hc. cbn beta iota.
  rewrite Hws. cbn beta iota. rewrite Hws. cbn [default].
  destruct (decide _) as [_|Hno]; [done|]. exfalso. apply Hno. exact Hfull.
Qed.

(** C9.  Let the [max_workers] of the worker classes not be negative.  If
    the pool is within its caps (as the empty pool of a new manager is), it
    is so after any steps of the threads, taken in any order: steps of the
    dispatcher thread through [run()], calls of [abort()], [add_job()] and
    [request_interrupt()], worker threads running to their end, time
    passing.  It is so after every round of the loop of [delegate()] over
    the jobs as well, and a round for a job whose type is at its cap changes
    nothing: no claim is made and no worker is added. *)
Theorem pool_within_caps (sched : list Manager.action) (c : Manager.config) :
  caps_not_negative (Manager.st c) →
  within_caps (Manager.st c) →
  let s := Manager.st (Manager.exec_all sched c) in
  within_caps s
  ∧ (∀ job, within_caps (Manager.dispatch job s).2)
  ∧ (∀ job pf m cls ws,
       Job.data job !! "pythonfile" = Some (VStr pf) →
       Manager.files s !! pf = Some m →
       Manager.worker_map s !! Manager.get_worker_type_for_file pf = Some cls →
       Manager.pool_get (Manager.get_worker_type_for_file pf) (Manager.worker_pool s)
         = Some ws →
       Z.of_nat (length ws) >= Worker.max_workers cls →
       Manager.dispatch job s = (Ok tt, s)).
Proof.
  intros Hnn Hcaps s.
  assert (Hs : capped s) by (apply exec_all_capped; by split).
  split; [apply Hs|]. split.
  - intros job. apply (dispatch_capped job s Hs).
  - intros job pf m cls ws. apply dispatch_at_cap.
Qed.

Lemma fresh_caps_not_negative : caps_not_negative (Manager.st Examples.fresh).
Proof.
  split; [|split]; cbn.
  - intros t c H. by rewrite lookup_empty in H.
  - intros t m x H. by rewrite lookup_empty in H.
  - intros p m x [<- <-]%lookup_singleton_Some Hx.
    apply elem_of_cons in Hx as [->|Hx]; [done|].
    apply elem_of_cons in Hx as [->|Hx]; [done|].
    by apply elem_of_nil in Hx.
Qed.

Lemma fresh_within_caps : within_caps (Manager.st Examples.fresh).
Proof. intros t ws. cbn. done. Qed.

Lemma pool_within_caps_witness :
  let s := Manager.st (Manager.exec_all Examples.two_jobs_two_rounds Examples.fresh) in
  caps_not_negative (Manager.st Examples.fresh)
  ∧ within_caps (Manager.st Examples.fresh)
  ∧ within_caps s
  ∧ (length <$> Manager.pool_get "srv.jobs.w.py" (Manager.worker_pool s)) = Some 1%nat
  ∧ Manager.events s = [Manager.Started 0].
Proof.
  cbv zeta. split; [exact fresh_caps_not_negative|]. split; [exact fresh_within_caps|].
  split.
  - exact (proj1 (pool_within_caps Examples.two_jobs_two_rounds Examples.fresh
                    fresh_caps_not_negative fresh_within_caps)).
  - split; vm_compute; reflexivity.
Defined.

(** *** The end of [run] *)

Lemma moved_same w : moved w (db w) [] [] = w.
Proof. destruct w. unfold moved. cbn. by rewrite !app_nil_r. Qed.

Lemma for_each_log msgs : ∀ w,
  for_each msgs (λ m, log_msg m.1 m.2) w = (Ok tt, moved w (db w) msgs []).
Proof.
  induction msgs as [|[l msg] msgs IH]; intros w; cbn [for_each].
  - unfold ret. by rewrite moved_same.
  - erewrite bind_ok; [|apply WorkerFacts.log_msg_eq]. rewrite IH.
    by rewrite WorkerFacts.moved_moved.
Qed.

Lemma for_workers_events f p :
  (Manager.for_workers f p).2 = (λ w, (f w).2) <$> workers p.
Proof.
  unfold Manager.for_workers, workers. cbn [snd].
  induction p as [|[k ws] p IH]; [done|].
  rewrite !fmap_cons, !mjoin_cons, fmap_app, IH. done.
Qed.

Lemma for_workers_workers f p :
  workers (Manager.for_workers f p).1 = (λ w, (f w).1) <$> workers p.
Proof.
  unfold Manager.for_workers, workers. cbn [fst].
  induction p as [|[k ws] p IH]; [done|].
  rewrite !fmap_cons, !mjoin_cons, fmap_app, IH. done.
Qed.

Lemma stop_worker_eq w : Manager.stop_worker w = (told_to_stop w, stop_event w).
Proof.
  unfold Manager.stop_worker, told_to_stop, stop_event.
  by destruct (Worker.has_request_abort _).
Qed.

Lemma stop_workers_eq s :
  Manager.stop_workers s
  = (Ok tt,
     Manager.emit (Manager.for_workers Manager.stop_worker (Manager.worker_pool s)).2
       (Manager.set_worker_pool
          (Manager.for_workers Manager.stop_worker (Manager.worker_pool s)).1
          (Manager.set_env
             (moved (Manager.env s) (db (Manager.env s))
                [(INFO, "Telling all workers to stop doing whatever they're doing...")] [])
             s))).
Proof.
  unfold Manager.stop_workers. erewrite bind_ok.
  2:{ unfold Manager.on_env. apply lift_eq, WorkerFacts.log_msg_eq. }
  unfold modify. cbn [Manager.worker_pool Manager.set_env].
  by destruct (Manager.for_workers _ _).
Qed.

Lemma join_workers_eq s :
  Manager.join_workers s
  = (Ok tt,
     Manager.set_env
       (moved (Manager.env s) (db (Manager.env s))
          ([(INFO, "Waiting for all workers to finish...")]
           ++ Manager.waiting_messages (Manager.worker_pool s) ++ [(INFO, "Bye!")]) [])
       (Manager.emit (Manager.for_workers Manager.join_worker (Manager.worker_pool s)).2
          (Manager.set_worker_pool
             (Manager.for_workers Manager.join_worker (Manager.worker_pool s)).1 s))).
Proof.
  unfold Manager.join_workers. erewrite bind_ok.
  2:{ unfold Manager.on_env. apply lift_eq, WorkerFacts.log_msg_eq. }
  erewrite bind_ok; [|reflexivity]. erewrite bind_ok.
  2:{ unfold Manager.on_env. apply lift_eq, for_each_log. }
  cbn [Manager.worker_pool Manager.set_env Manager.env].
  unfold modify at 1. unfold mbind, M_bind, bind.
  cbn [Manager.worker_pool Manager.set_env Manager.env].
  destruct (Manager.for_workers Manager.join_worker (Manager.worker_pool s)) as [p evs].
  unfold Manager.sleep, ret, Manager.on_env, lift.
  rewrite WorkerFacts.log_msg_eq.
  cbn [Manager.worker_pool Manager.set_env Manager.env Manager.emit Manager.set_worker_pool
       fst snd db].
  rewrite !WorkerFacts.moved_moved. reflexivity.
Qed.

Lemma stop_events_quiet p :
  filter (λ ev, is_start ev) (Manager.for_workers Manager.stop_worker p).2 = [].
Proof.
  rewrite for_workers_events. apply filter_none, Forall_fmap, Forall_forall.
  intros w _. unfold compose. rewrite stop_worker_eq. cbn [snd]. unfold stop_event.
  destruct (Worker.has_request_abort _); cbn; tauto.
Qed.

Lemma join_events_quiet p :
  filter (λ ev, is_start ev) (Manager.for_workers Manager.join_worker p).2 = [].
Proof.
  rewrite for_workers_events. apply filter_none, Forall_fmap, Forall_forall.
  intros w _. cbn. tauto.
Qed.

Lemma quiet_set_env evs n s w : quiet evs n s → quiet evs n (Manager.set_env w s).
Proof. done. Qed.

Lemma request_interrupt_quiet evs n job level :
  hoare (quiet evs n) (Manager.request_interrupt job level) (λ _ s, quiet evs n s).
Proof.
  unfold Manager.request_interrupt.
  apply hoare_bind_inv; [apply hoare_getstr|]. intros pythonfile.
  apply hoare_bind_inv; [apply hoare_gets_inv|].
  intros [[|w ws]|]; try apply hoare_ret_inv.
  apply hoare_bind_inv; [apply hoare_getitem|]. intros id.
  eapply hoare_bind; [apply interrupt_first_length| |by intros e s [? ?]].
  intros ws' s [Hs _]. exact Hs.
Qed.

(** Once the dispatcher thread has [looping = False] and is not inside
    [delegate()], no step of any thread starts a worker. *)
Lemma exec_winding_down evs n a c :
  winding_down evs n c → winding_down evs n (Manager.exec a c).
Proof.
  intros [Hat Hq]. destruct a; cbn [Manager.exec].
  - unfold Manager.run_step. destruct (Manager.at_ c) eqn:Hplace; try done.
    + destruct Hq as (Hloop & Hq). rewrite Hloop. by split.
    + rewrite stop_workers_eq. split; [done|].
      destruct Hq as (Hloop & Hev & Hn). split; [done|]. split; [|done].
      unfold Manager.after. cbn [fst snd Manager.st Manager.events Manager.emit].
      by rewrite filter_app, stop_events_quiet, app_nil_r.
    + destruct (Manager.any_alive _); [split; [congruence|done]|].
      rewrite join_workers_eq. split; [done|].
      destruct Hq as (Hloop & Hev & Hn). split; [done|]. split; [|done].
      unfold Manager.after.
      cbn [fst snd Manager.st Manager.events Manager.emit Manager.set_env].
      by rewrite filter_app, join_events_quiet, app_nil_r.
    + split; [congruence|done].
    + split; [congruence|done].
  - split; [done|]. unfold Manager.abort. erewrite bind_ok.
    2:{ unfold Manager.on_env. apply lift_eq, WorkerFacts.log_msg_eq. }
    destruct Hq as (Hloop & Hev & Hn). by split.
  - split; [done|]. apply (hoare_on_env _ _ (quiet_set_env evs n) _ Hq).
  - split; [done|]. apply (request_interrupt_quiet evs n _ _ _ Hq).
  - destruct (Manager.run_worker_in id work _ _) as [p w]. by split.
  - by split.
Qed.

Lemma exec_all_winding_down evs n sched : ∀ c,
  winding_down evs n c → winding_down evs n (Manager.exec_all sched c).
Proof.
  unfold Manager.exec_all. induction sched as [|a sched IH]; intros c Hc; [done|].
  simpl. apply IH. by apply exec_winding_down.
Qed.

(** C4, as stated, fails.  When [abort()] is called while a worker runs,
    the dispatcher leaves its loop and calls [request_abort()] without a
    level: the event carries the default, [INTERRUPT_RETRY], which is what
    the flag of the worker then holds, not [INTERRUPT_CANCEL].  And when
    [abort()] is called between the test of [looping] and the call of
    [delegate()], a job that is queued after the abort is claimed and a
    worker is started for it. *)
Lemma shutdown_counterexample :
  let c1 := Manager.exec_all Examples.abort_with_a_worker Examples.fresh in
  let c2 := Manager.exec_all Examples.abort_after_the_test Examples.fresh in
  (Manager.at_ c1 = Manager.Joining
   ∧ Manager.events (Manager.st c1)
     = [Manager.Started 0; Manager.AbortRequested 0 Worker.INTERRUPT_RETRY]
   ∧ (λ w, Worker.interrupted (Manager.object w))
       <$> workers (Manager.worker_pool (Manager.st c1)) = [Worker.INTERRUPT_RETRY]
   ∧ Worker.INTERRUPT_RETRY ≠ Worker.INTERRUPT_CANCEL)
  ∧ (Manager.looping (Manager.st c2) = false
     ∧ Manager.events (Manager.st c2) = [Manager.Started 0]
     ∧ journal (Manager.env (Manager.st c2)) = [CallClaim (Some (VInt 1))]
     ∧ (λ r, (remote_id r, timestamp_claimed r)) <$> rows (db (Manager.env (Manager.st c2)))
       = [("x", 100)]).
Proof. cbv zeta. split_and!; vm_compute; (reflexivity || discriminate). Qed.

(** C4, amended.  After [abort()] has set [looping] to false, [run()]
    leaves its loop when it next tests the flag; it then calls
    [request_abort()] with no argument on every worker in the pool, which
    sets the flag of the worker to the default level [INTERRUPT_RETRY]
    ([abort()] on a worker without [request_abort]); then it joins every
    worker, waiting as long as one is running.  From any point at which
    [looping] is false and the dispatcher thread is not inside the call of
    [delegate()] that its last test allowed, no worker is started any more,
    whatever the threads do and whatever jobs are queued. *)
Theorem shutdown_after_abort (c : Manager.config) (sched : list Manager.action) :
  Manager.looping (Manager.st c) = false →
  (Manager.at_ c = Manager.LoopTest →
   Manager.run_step c = Manager.Config Manager.Stopping (Manager.st c))
  ∧ (Manager.at_ c = Manager.Stopping →
     ∃ s1, Manager.run_step c = Manager.Config Manager.Joining s1
       ∧ Manager.events s1
         = Manager.events (Manager.st c)
           ++ (stop_event <$> workers (Manager.worker_pool (Manager.st c)))
       ∧ workers (Manager.worker_pool s1)
         = told_to_stop <$> workers (Manager.worker_pool (Manager.st c)))
  ∧ (Manager.at_ c = Manager.Joining →
     (Manager.any_alive (Manager.worker_pool (Manager.st c)) = true →
      Manager.run_step c = c)
     ∧ (Manager.any_alive (Manager.worker_pool (Manager.st c)) = false →
        ∃ s2, Manager.run_step c = Manager.Config Manager.Returned s2
          ∧ Manager.events s2
            = Manager.events (Manager.st c)
              ++ (join_event <$> workers (Manager.worker_pool (Manager.st c)))))
  ∧ (Manager.at_ c ≠ Manager.Delegate →
     let c' := Manager.exec_all sched c in
     Manager.at_ c' ≠ Manager.Delegate
     ∧ Manager.looping (Manager.st c') = false
     ∧ started (Manager.st c') = started (Manager.st c)
     ∧ Manager.threads (Manager.st c') = Manager.threads (Manager.st c)).
Proof.
  intros Hloop. split_and!.
  - intros Hat. unfold Manager.run_step. by rewrite Hat, Hloop.
  - intros Hat. unfold Manager.run_step. rewrite Hat, stop_workers_eq.
    eexists. split; [reflexivity|]. cbn [fst snd Manager.events Manager.emit
      Manager.worker_pool Manager.set_worker_pool Manager.set_env]. split.
    + rewrite for_workers_events. f_equal. apply list_fmap_ext.
      intros i w _. by rewrite stop_worker_eq.
    + rewrite for_workers_workers. apply list_fmap_ext.
      intros i w _. by rewrite stop_worker_eq.
  - intros Hat. unfold Manager.run_step. rewrite Hat. split; intros Halive; rewrite Halive.
    + done.
    + rewrite join_workers_eq. eexists. split; [reflexivity|].
      cbn [fst snd Manager.events Manager.emit Manager.set_env].
      by rewrite for_workers_events.
  - intros Hat c'.
    assert (Hw : winding_down (started (Manager.st c)) (Manager.threads (Manager.st c)) c)
      by done.
    apply (exec_all_winding_down _ _ sched) in Hw.
    destruct Hw as (Hat' & Hloop' & Hev & Hn). done.
Qed.

Lemma shutdown_after_abort_witness :
  let c := Examples.aborted in
  let c' := Manager.exec_all Examples.winding_up c in
  Manager.looping (Manager.st c) = false
  ∧ Manager.at_ c = Manager.LoopTest
  ∧ Manager.at_ c' = Manager.Returned
  ∧ started (Manager.st c') = started (Manager.st c)
  ∧ Manager.threads (Manager.st c') = Manager.threads (Manager.st c)
  ∧ Manager.events (Manager.st c')
    = [Manager.Started 0; Manager.AbortRequested 0 Worker.INTERRUPT_RETRY;
       Manager.Joined 0].
Proof.
  cbv zeta.
  assert (Hloop : Manager.looping (Manager.st Examples.aborted) = false)
    by (vm_compute; reflexivity).
  assert (Hat : Manager.at_ Examples.aborted = Manager.LoopTest)
    by (vm_compute; reflexivity).
  destruct (shutdown_after_abort Examples.aborted Examples.winding_up Hloop)
    as (_ & _ & _ & Hquiet).
  destruct Hquiet as (_ & _ & Hstarted & Hthreads); [rewrite Hat; discriminate|].
  split; [exact Hloop|]. split; [exact Hat|].
  split; [vm_compute; reflexivity|]. split; [exact Hstarted|]. split; [exact Hthreads|].
  vm_compute; reflexivity.
Defined.

End ManagerFacts.

(** ** More of the queue *)

Module QueueEffects.

Import Spec Effects DatabaseFacts QueueFacts EnqueueFacts.

Lemma apply_set_release r :
  apply_set [("timestamp_claimed", JobQueue.int 0)] r = released r.
Proof. by destruct r. Qed.

Lemma release_all_eq w :
  JobQueue.release_all w
  = (Ok tt, set_db (Table (released <$> rows (db w)) (seq (db w))) w).
Proof.
  unfold JobQueue.release_all. unfold_m. unfold sql_update. cbn [matches].
  do 3 f_equal. apply map_ext. intros r. apply apply_set_release.
Qed.

(** X1.  [release_all()] returns normally and clears the claim of every
    job: each row is as it was but for [timestamp_claimed], which is 0;
    no row is added, dropped or moved, and [timestamp_lastclaimed] and
    [attempts] stay.  A second call changes nothing. *)
Theorem release_all_clears_every_claim (w : world) :
  ∃ w', JobQueue.release_all w = (Ok tt, w')
    ∧ rows (db w') = released <$> rows (db w)
    ∧ Forall (λ r, timestamp_claimed r = 0) (rows (db w'))
    ∧ seq (db w') = seq (db w)
    ∧ clock w' = clock w ∧ journal w' = journal w
    ∧ JobQueue.release_all w' = (Ok tt, w').
Proof.
  eexists. split; [apply release_all_eq|]. cbn [set_db db rows seq clock log journal].
  split_and!; try reflexivity.
  - apply Forall_fmap, Forall_forall. by intros [] _.
  - rewrite release_all_eq. cbn [set_db db rows seq clock log journal uuid_src uuid_pos].
    by rewrite <- list_fmap_compose.
Qed.

Lemma get_job_count_eq pf w :
  JobQueue.get_job_count pf w
  = (Ok (Z.of_nat (length (filter (counted pf) (rows (db w))))), w).
Proof.
  unfold JobQueue.get_job_count, gets, sql_select. cbn [sel_where sel_order_by_timestamp sel_limit_1].
  do 4 f_equal. apply list_filter_iff. intros r. unfold counted.
  destruct (decide (pf = "*")) as [->|Hpf]; cbn [matches].
  - split; [by left|done].
  - rewrite Is_true_true. cbn [eval_cond eval_expr]. unfold JobQueue.str. cbn [eval_expr].
    rewrite col_pythonfile. cbn beta iota. rewrite bool_decide_eq_true.
    split; [intros [=]; by right|intros [?| ->]; done].
Qed.

(** X2.  [add_job] and [get_job_count] together: queueing a job for a pair
    [(pythonfile, remote_id)] that the table does not hold raises the count
    of its type, and the count of ["*"], by one and leaves the count of any
    other type as it is; queueing it for a pair that the table holds leaves
    every count as it is. *)
Theorem add_job_moves_the_count (w : world) (pf det rid : string) (ca iv : Z)
    (counted_type : string) :
  rid ≠ "" → well_formed (db w) →
  ∃ j w' n,
    JobQueue.add_job pf det (Some rid) ca iv w = (Ok j, w')
    ∧ JobQueue.get_job_count counted_type w = (Ok n, w)
    ∧ JobQueue.get_job_count counted_type w'
      = (Ok (if decide (with_pair pf rid (db w) = []
                        ∧ (counted_type = "*" ∨ counted_type = pf))
             then n + 1 else n), w').
Proof.
  intros Hrid [Hnd Hseq]. do 3 eexists.
  split; [by apply add_job_eq|]. split; [apply get_job_count_eq|].
  rewrite get_job_count_eq. f_equal. f_equal. cbn [set_db db].
  unfold after_add, with_pair.
  destruct (bool_decide_reflect (Exists (λ r, pair_of r = (pf, rid)) (rows (db w))))
    as [Hex|Hno].
  - rewrite decide_False; [reflexivity|]. intros [Hnil _].
    apply (proj1 (filter_nil_not_exists _ _)) in Hnil. by apply Hnil.
  - cbn [rows]. rewrite filter_app, length_app.
    assert (Hnil : filter (λ r, pair_of r = (pf, rid)) (rows (db w)) = [])
      by by apply filter_nil_not_exists.
    rewrite filter_cons, filter_nil. unfold counted at 2. cbn [pythonfile row_to_add].
    destruct (decide (counted_type = "*" ∨ pf = counted_type)) as [Hc|Hc].
    + rewrite decide_True; [cbn [length]; lia|]. split; [done|]. destruct Hc; auto.
    + rewrite decide_False; [cbn [length]; lia|]. intros [_ [?|?]]; apply Hc; auto.
Qed.

Lemma add_job_moves_the_count_witness :
  let w := Examples.world_of Examples.one_row 200 in
  "y" ≠ "" ∧ well_formed (db w)
  ∧ ∃ j w' n,
      JobQueue.add_job "w" "b" (Some "y") 0 0 w = (Ok j, w')
      ∧ JobQueue.get_job_count "w" w = (Ok n, w)
      ∧ JobQueue.get_job_count "w" w'
        = (Ok (if decide (with_pair "w" "y" (db w) = [] ∧ ("w" = "*" ∨ "w" = "w"))
               then n + 1 else n), w').
Proof.
  cbv zeta. split; [done|].
  assert (Hwf : well_formed (db (Examples.world_of Examples.one_row 200))).
  { split; [apply NoDup_singleton|apply Forall_singleton; reflexivity]. }
  split; [exact Hwf|].
  apply (add_job_moves_the_count (Examples.world_of Examples.one_row 200)
           "w" "b" "y" 0 0 "w"); [done|exact Hwf].
Defined.

Lemma sql_select_sorted c t :
  sql_select (Select (Some c) true false) t
  = order_by_timestamp (filter (λ r, eval_cond r c = true) (rows t)).
Proof.
  unfold sql_select. cbn [sel_where sel_order_by_timestamp sel_limit_1 matches].
  f_equal. apply list_filter_iff. intros r. apply Is_true_true.
Qed.

(** X3.  [get_all_jobs(pythonfile, remote_id, restrict_claimable=False)]
    returns one handle for every row that its arguments select, whether the
    job is claimed, deferred or neither, in ascending order of [timestamp];
    it changes nothing. *)
Theorem get_all_jobs_unrestricted (w : world) (pf : string) (rid : option string) :
  ∃ l, JobQueue.get_all_jobs pf rid false w = (Ok (handle <$> l), w)
    ∧ l ≡ₚ filter (selects pf rid) (rows (db w))
    ∧ StronglySorted by_timestamp l.
Proof.
  eexists. split; [apply get_all_jobs_eq|]. unfold where_of. rewrite sql_select_sorted.
  split; [|apply order_by_timestamp_sorted].
  rewrite order_by_timestamp_perm. erewrite list_filter_iff; [reflexivity|].
  intros r. apply eval_selection.
Qed.

(** X4.  [get_job_count] and [get_all_jobs] agree on how many jobs there
    are of a type: for a type other than ["*"], and for ["*"] when no row
    has an empty [pythonfile], [get_job_count(pythonfile)] is the length of
    [get_all_jobs(pythonfile, restrict_claimable=False)]. *)
Theorem get_job_count_is_length_of_all_jobs (w : world) (pf : string) :
  pf ≠ "*" ∨ Forall (λ r, pythonfile r ≠ "") (rows (db w)) →
  ∃ n jobs, JobQueue.get_job_count pf w = (Ok n, w)
    ∧ JobQueue.get_all_jobs pf None false w = (Ok jobs, w)
    ∧ n = Z.of_nat (length jobs).
Proof.
  intros Hpf. do 2 eexists. split; [apply get_job_count_eq|].
  split; [apply get_all_jobs_eq|]. f_equal. rewrite length_fmap.
  unfold where_of. rewrite sql_select_sorted, order_by_timestamp_perm.
  assert (Heq : ∀ r, r ∈ rows (db w) →
            (counted pf r ↔ eval_cond r (JobQueue.selection pf None) = true)).
  { intros r Hin. rewrite eval_selection. unfold selects, counted. cbn [JobQueue.given].
    destruct (decide (pf ≠ "*")) as [Hne|Heq].
    - split; [intros [?|?]; done|by right].
    - destruct Hpf as [?|Hall]; [done|]. rewrite Forall_forall in Hall.
      split; [intros _; by apply Hall|intros _; left; by destruct (decide (pf = "*"))]. }
  clear Hpf. induction (rows (db w)) as [|r l IH]; [reflexivity|].
  rewrite !filter_cons.
  pose proof (Heq r (list_elem_of_here _ _)) as Hr.
  assert (IH' := IH (λ r' Hin, Heq r' (list_elem_of_further _ _ _ Hin))).
  destruct (decide (counted pf r)) as [Hc|Hc];
    destruct (decide (eval_cond r (JobQueue.selection pf None) = true)) as [He|He];
    cbn [length]; try tauto; by rewrite IH'.
Qed.

Lemma get_job_count_is_length_of_all_jobs_witness :
  let w := Examples.world_of Examples.two_rows 200 in
  ("w" ≠ "*" ∨ Forall (λ r, pythonfile r ≠ "") (rows (db w)))
  ∧ ∃ n jobs, JobQueue.get_job_count "w" w = (Ok n, w)
      ∧ JobQueue.get_all_jobs "w" None false w = (Ok jobs, w)
      ∧ n = Z.of_nat (length jobs).
Proof.
  cbv zeta. split; [by left|].
  apply (get_job_count_is_length_of_all_jobs (Examples.world_of Examples.two_rows 200) "w").
  by left.
Defined.

(** X5.  [get_place_in_queue] of a handle made of a row whose type is not
    ["*"]: 0 when the job is claimed, and otherwise the number of the jobs of
    its type that are eligible now and whose [timestamp] is earlier.  A job
    of the type that is claimed, or deferred, is never counted, however
    early it was queued: the test of [timestamp_claimed] in the loop never
    holds, as the jobs it looks at are unclaimed ones. *)
Theorem place_in_queue_counts_earlier_eligible (w : world) (r : row) :
  pythonfile r ≠ "*" →
  JobQueue.get_place_in_queue (handle r) w
  = (Ok (if decide (timestamp_claimed r > 0) then 0
         else Z.of_nat (length (filter (λ q, timestamp q < timestamp r)
                                  (eligible_of (pythonfile r) (clock w) (db w))))), w).
Proof.
  intros Hpf. rewrite get_place_in_queue_eq.
  destruct (decide (timestamp_claimed r > 0)) as [|Hfree]; [reflexivity|].
  do 3 f_equal. unfold where_of. rewrite sql_select_sorted, order_by_timestamp_perm.
  rewrite selection_of_type by done. unfold eligible_of.
  rewrite !list_filter_filter. f_equal. apply list_filter_iff. intros q.
  cbn [eval_cond]. rewrite andb_true_iff, eval_claimable. unfold JobQueue.str.
  cbn [eval_expr]. rewrite col_pythonfile. cbn beta iota. rewrite bool_decide_eq_true.
  unfold eligible. split.
  - intros [[Hlt|Hc] (Heq & Hel)]; [|lia]. split; [exact Hlt|]. split; [congruence|exact Hel].
  - intros (Hlt & Heq & Hel). split; [by left|]. split; [congruence|exact Hel].
Qed.

Lemma place_in_queue_counts_earlier_eligible_witness :
  let w := Examples.world_of Examples.two_rows 200 in
  JobQueue.get_place_in_queue (handle Examples.waiting) w
  = (Ok (if decide (timestamp_claimed Examples.waiting > 0) then 0
         else Z.of_nat (length (filter (λ q, timestamp q < timestamp Examples.waiting)
                                  (eligible_of (pythonfile Examples.waiting) (clock w) (db w))))),
     w).
Proof.
  cbv zeta.
  apply (place_in_queue_counts_earlier_eligible
           (Examples.world_of Examples.two_rows 200) Examples.waiting).
  done.
Defined.

End QueueEffects.

Module EnqueueEffects.

Import Spec EnqueueFacts.

(** X6.  [add_job] without a [remote_id], or with an empty one, draws a
    UUID and queues the job under it: the handle it returns carries the UUID
    as [remote_id], and a row is added for it unless the table holds a job of
    the type with this very UUID.  So an empty [remote_id] does not identify
    a job: two such calls, given two UUIDs, queue two jobs. *)
Theorem add_job_without_remote_id (w : world) (pf det : string)
    (remote_id : option string) (ca iv : Z) :
  remote_id = None ∨ remote_id = Some "" →
  Forall (λ r, row_id r ≤ seq (db w)) (rows (db w)) →
  let drawn := uuid_src w (uuid_pos w) in
  ∃ w', JobQueue.add_job pf det remote_id ca iv w
        = (Ok (Job.get_by_data (JobQueue.job_data pf det (clock w) drawn ca iv)), w')
    ∧ uuid_pos w' = S (uuid_pos w)
    ∧ db w' = after_add (db w) pf det (clock w) drawn ca iv
    ∧ (with_pair pf drawn (db w) = [] →
       rows (db w')
       = rows (db w) ++ [row_to_add (seq (db w) + 1) pf det (clock w) drawn ca iv]).
Proof.
  intros Hnone Hids drawn.
  assert (Hgiven : JobQueue.given remote_id = None) by (by destruct Hnone as [->| ->]).
  exists (set_db (after_add (db w) pf det (clock w) drawn ca iv)
            (World (db w) (clock w) (uuid_src w) (S (uuid_pos w)) (log w) (journal w))).
  split.
  - unfold JobQueue.add_job, insert. rewrite Hgiven.
    destruct (decide ("jobs" = "jobs")); [|done].
    unfold uuid4. unfold_m. cbn [db clock]. rewrite (insert_job _ _ _ _ _ _ _ Hids).
    fold drawn. unfold after_add. by destruct (bool_decide (Exists _ _)).
  - unfold set_db. cbn [db uuid_pos]. split; [reflexivity|]. split; [reflexivity|].
    intros Hnil. unfold after_add. apply (proj1 (filter_nil_not_exists _ _)) in Hnil.
      rewrite bool_decide_eq_false_2 by exact Hnil. reflexivity.
Qed.

Lemma add_job_without_remote_id_witness :
  let w := Examples.world_of Examples.one_row 200 in
  let drawn := uuid_src w (uuid_pos w) in
  ∃ w', JobQueue.add_job "w" "b" (Some "") 0 0 w
        = (Ok (Job.get_by_data (JobQueue.job_data "w" "b" (clock w) drawn 0 0)), w')
    ∧ uuid_pos w' = S (uuid_pos w)
    ∧ db w' = after_add (db w) "w" "b" (clock w) drawn 0 0
    ∧ (with_pair "w" drawn (db w) = [] →
       rows (db w')
       = rows (db w) ++ [row_to_add (seq (db w) + 1) "w" "b" (clock w) drawn 0 0]).
Proof.
  cbv zeta.
  apply (add_job_without_remote_id (Examples.world_of Examples.one_row 200)
           "w" "b" (Some "") 0 0); [by right|].
  apply Forall_singleton. reflexivity.
Defined.

End EnqueueEffects.

(** ** More of the worker *)

Module WorkerEffects.

Import Spec Effects WorkerFacts.

(** What [run()] does when [work()] returns. *)
Lemma run_returns work s s1 id iv :
  work s = (Ok tt, s1) →
  Job.data (Worker.job (Worker.self s1)) !! "id" = Some id →
  Job.data (Worker.job (Worker.self s1)) !! "interval" = Some (VInt iv) →
  let w := Worker.env s1 in
  Worker.run work s
  = (Ok tt,
     Worker.State (moved w (after_finish id iv (clock w) (db w)) [] [CallFinish (Some id)])
       (Worker.self s1)).
Proof.
  intros Hwork Hid Hiv w.
  unfold Worker.run, try_except, mbind, M_bind, bind. rewrite Hwork.
  unfold Worker.after_work.
  erewrite on_job_eq by (apply finish_eq; [exact Hid|exact Hiv]).
  reflexivity.
Qed.

(** What [run()] does when [work()] raises [WorkerInterruptedException]
    while the interrupt flag is not [INTERRUPT_RETRY]. *)
Lemma run_interrupted_otherwise work s s1 e id iv :
  work s = (Raise e, s1) →
  Worker.is_interrupt e = true →
  Worker.interrupted (Worker.self s1) ≠ Worker.INTERRUPT_RETRY →
  Job.data (Worker.job (Worker.self s1)) !! "id" = Some id →
  Job.data (Worker.job (Worker.self s1)) !! "interval" = Some (VInt iv) →
  let w := Worker.env s1 in
  let cancel := bool_decide (Worker.interrupted (Worker.self s1) = Worker.INTERRUPT_CANCEL) in
  Worker.run work s
  = (Ok tt,
     Worker.State
       (moved w
          (if cancel
           then after_finish id iv (clock w) (after_finish id iv (clock w) (db w))
           else after_finish id iv (clock w) (db w))
          [(INFO, "Worker " +:+ Worker.type (Worker.cls (Worker.self s1)) +:+ " interrupted")]
          (if cancel then [CallFinish (Some id); CallFinish (Some id)]
           else [CallFinish (Some id)]))
       (Worker.self s1)).
Proof.
  intros Hwork Hint Hflag Hid Hiv w cancel.
  unfold Worker.run, try_except, mbind, M_bind, bind.
  rewrite Hwork, (interrupt_derives e Hint), Hint.
  unfold gets at 1 2. unfold Worker.log_info, lift.
  rewrite log_msg_eq. cbn [Worker.set_env Worker.self Worker.env].
  destruct (decide (Worker.interrupted (Worker.self s1) = Worker.INTERRUPT_RETRY));
    [done|].
  unfold cancel.
  destruct (decide (Worker.interrupted (Worker.self s1) = Worker.INTERRUPT_CANCEL))
    as [Hc|Hc].
  - rewrite (bool_decide_eq_true_2 _ Hc).
    erewrite on_job_eq by (apply finish_eq; [exact Hid|exact Hiv]).
    unfold Worker.abort, ret, Worker.after_work.
    erewrite on_job_eq by (apply finish_eq; [exact Hid|exact Hiv]).
    cbn [Worker.set_env Worker.self Worker.env]. rewrite !moved_moved. reflexivity.
  - rewrite (bool_decide_eq_false_2 _ Hc).
    unfold Worker.abort, ret, Worker.after_work.
    erewrite on_job_eq by (apply finish_eq; [exact Hid|exact Hiv]).
    cbn [Worker.set_env Worker.self Worker.env]. rewrite !moved_moved. reflexivity.
Qed.

(** X7.  [run()] and what [work()] does, for a worker whose job handle
    holds its [id] and its [interval].  An exception that does not derive
    from [Exception], as the [SystemExit] of [sys.exit()], leaves [run()] at
    once: [run()] makes no call on the job, which stays claimed.  In every
    other case (a return, [WorkerInterruptedException] under any value of
    the interrupt flag, an exception deriving from [Exception]) [run()]
    returns normally and the last call it makes on the job is [finish()]:
    the row of a one-shot job is gone afterwards.  When [work()] returns,
    [finish()] is the only call. *)
Theorem run_ends_in_finish_unless_work_escapes (work : M Worker.state unit)
    (s s1 : Worker.state) (r : res unit) (id : val) (iv : Z) :
  work s = (r, s1) →
  Job.data (Worker.job (Worker.self s1)) !! "id" = Some id →
  Job.data (Worker.job (Worker.self s1)) !! "interval" = Some (VInt iv) →
  (∀ e, r = Raise e → derives_from_exception e = false →
        Worker.run work s = (Raise e, s1))
  ∧ ((∀ e, r = Raise e → derives_from_exception e = true) →
     ∃ s2 calls,
       Worker.run work s = (Ok tt, s2)
       ∧ journal (Worker.env s2)
         = journal (Worker.env s1) ++ calls ++ [CallFinish (Some id)]
       ∧ Worker.self s2 = Worker.self s1
       ∧ (iv = 0 → ∀ x, x ∈ rows (db (Worker.env s2)) → VInt (row_id x) ≠ id)
       ∧ (r = Ok tt → calls = [])).
Proof.
  intros Hwork Hid Hiv. split.
  { intros e -> Hderives. by apply run_escapes. }
  intros Hcaught. destruct r as [[]|e].
  - eexists; exists [].
    split; [by apply (run_returns work s s1 id iv)|].
    cbn [Worker.env Worker.self moved log journal db]. split_and!; try reflexivity.
    intros -> x. apply finished_one_shot_gone.
  - specialize (Hcaught e eq_refl). destruct (Worker.is_interrupt e) eqn:Hint.
    + destruct (decide (Worker.interrupted (Worker.self s1) = Worker.INTERRUPT_RETRY))
        as [Hflag|Hflag].
      * eexists; exists [CallRelease (Some id) 10].
        split; [by apply (run_interrupted_retry work s s1 e id iv)|].
        cbn [Worker.env Worker.self moved log journal db]. split_and!; try done.
        intros -> x. apply finished_one_shot_gone.
      * eexists; exists
          (if bool_decide (Worker.interrupted (Worker.self s1) = Worker.INTERRUPT_CANCEL)
           then [CallFinish (Some id)] else []).
        split; [by apply (run_interrupted_otherwise work s s1 e id iv)|].
        cbn [Worker.env Worker.self moved log journal db]. split_and!; try done.
        -- by destruct (bool_decide _).
        -- intros -> x. destruct (bool_decide _); apply finished_one_shot_gone.
    + eexists; exists
        [CallAddStatus (Some id) "Crash during execution"].
      split; [by apply (run_crash work s s1 e id iv)|].
      cbn [Worker.env Worker.self moved log journal db]. split_and!; try done.
      intros -> x. apply finished_one_shot_gone.
Qed.

Lemma run_ends_in_finish_unless_work_escapes_witness :
  let s := Examples.worker_on Examples.held Worker.INTERRUPT_CANCEL 200 in
  let r : res unit := Raise (mk_exc WorkerInterruptedException "") in
  (∀ e, r = Raise e → derives_from_exception e = false →
        Worker.run Examples.interrupted_work s = (Raise e, s))
  ∧ ((∀ e, r = Raise e → derives_from_exception e = true) →
     ∃ s2 calls,
       Worker.run Examples.interrupted_work s = (Ok tt, s2)
       ∧ journal (Worker.env s2)
         = journal (Worker.env s) ++ calls ++ [CallFinish (Some (VInt 1))]
       ∧ Worker.self s2 = Worker.self s
       ∧ (0 = 0 → ∀ x, x ∈ rows (db (Worker.env s2)) → VInt (row_id x) ≠ VInt 1)
       ∧ (r = Ok tt → calls = [])).
Proof.
  cbv zeta.
  apply (run_ends_in_finish_unless_work_escapes Examples.interrupted_work
           (Examples.worker_on Examples.held Worker.INTERRUPT_CANCEL 200)
           (Examples.worker_on Examples.held Worker.INTERRUPT_CANCEL 200)
           (Raise (mk_exc WorkerInterruptedException "")) (VInt 1) 0);
    reflexivity.
Defined.

(** X8.  When [work()] raises [WorkerInterruptedException] and the
    interrupt flag is not [INTERRUPT_RETRY], [run()] never calls
    [release]: under [INTERRUPT_CANCEL] it calls [finish()] twice, once in
    the handler and once in [after_work()], and under any other value,
    [INTERRUPT_NONE] among them, once.  Either way it logs the one line
    that tells of the interrupt and returns normally. *)
Theorem interrupt_without_retry_only_finishes (work : M Worker.state unit)
    (s s1 : Worker.state) (e : exc) (id : val) (iv : Z) :
  work s = (Raise e, s1) →
  e_class e = WorkerInterruptedException →
  Worker.interrupted (Worker.self s1) ≠ Worker.INTERRUPT_RETRY →
  Job.data (Worker.job (Worker.self s1)) !! "id" = Some id →
  Job.data (Worker.job (Worker.self s1)) !! "interval" = Some (VInt iv) →
  ∃ s2, Worker.run work s = (Ok tt, s2)
    ∧ journal (Worker.env s2)
      = journal (Worker.env s1)
        ++ (if decide (Worker.interrupted (Worker.self s1) = Worker.INTERRUPT_CANCEL)
            then [CallFinish (Some id); CallFinish (Some id)]
            else [CallFinish (Some id)])
    ∧ log (Worker.env s2)
      = log (Worker.env s1)
        ++ [(INFO, "Worker " +:+ Worker.type (Worker.cls (Worker.self s1)) +:+ " interrupted")].
Proof.
  intros Hwork Hclass Hflag Hid Hiv.
  assert (Hint : Worker.is_interrupt e = true)
    by (unfold Worker.is_interrupt; by apply bool_decide_eq_true).
  eexists. split; [by apply (run_interrupted_otherwise work s s1 e id iv)|].
  cbn [Worker.env moved log journal]. split; [|reflexivity].
  by destruct (decide (Worker.interrupted (Worker.self s1) = Worker.INTERRUPT_CANCEL)) as [Hc|Hc];
    [rewrite (bool_decide_eq_true_2 _ Hc)|rewrite (bool_decide_eq_false_2 _ Hc)].
Qed.

Lemma interrupt_without_retry_only_finishes_witness :
  let s := Examples.worker_on Examples.held_recurring Worker.INTERRUPT_NONE 200 in
  Examples.interrupted_work s = (Raise (mk_exc WorkerInterruptedException ""), s)
  ∧ Worker.interrupted (Worker.self s) ≠ Worker.INTERRUPT_RETRY
  ∧ ∃ s2, Worker.run Examples.interrupted_work s = (Ok tt, s2)
      ∧ journal (Worker.env s2)
        = journal (Worker.env s)
          ++ (if decide (Worker.interrupted (Worker.self s) = Worker.INTERRUPT_CANCEL)
              then [CallFinish (Some (VInt 1)); CallFinish (Some (VInt 1))]
              else [CallFinish (Some (VInt 1))])
      ∧ log (Worker.env s2)
        = log (Worker.env s)
          ++ [(INFO, "Worker " +:+ Worker.type (Worker.cls (Worker.self s)) +:+ " interrupted")].
Proof.
  cbv zeta. split; [reflexivity|]. split; [done|].
  apply (interrupt_without_retry_only_finishes Examples.interrupted_work
           (Examples.worker_on Examples.held_recurring Worker.INTERRUPT_NONE 200)
           (Examples.worker_on Examples.held_recurring Worker.INTERRUPT_NONE 200)
           (mk_exc WorkerInterruptedException "") (VInt 1) 60);
    (reflexivity || done).
Defined.

End WorkerEffects.

(** ** The worker type of a path *)

Module StrFacts.

Import Shape.

Lemma lower_char_dot c :
  Ascii.eqb (Str.lower_char c) "."%char = Ascii.eqb c "."%char.
Proof. destruct c as [[] [] [] [] [] [] [] []]; reflexivity. Qed.

Lemma type_char_lower c : Str.word_char c = true → type_char (Str.lower_char c) = true.
Proof. destruct c as [[] [] [] [] [] [] [] []]; intros H; try reflexivity; discriminate H. Qed.

Lemma all_chars_keep_word_chars s : all_chars Str.word_char (Str.keep_word_chars s) = true.
Proof.
  induction s as [|c s IH]; [reflexivity|]. cbn [Str.keep_word_chars].
  destruct (Str.word_char c) eqn:Hc; [|exact IH]. cbn [all_chars]. by rewrite Hc, IH.
Qed.

Lemma all_chars_tail p c s : all_chars p (String c s) = true → all_chars p s = true.
Proof. cbn [all_chars]. by intros [_ ?]%andb_true_iff. Qed.

Lemma squeeze_dots_head s : ∀ c, ∃ r, Str.squeeze_dots (String c s) = String c r.
Proof.
  induction s as [|c' s IH]; intros c; [by exists EmptyString|].
  cbn [Str.squeeze_dots].
  destruct (Ascii.eqb c "."%char && Ascii.eqb c' "."%char) eqn:Hdots; [|by eexists].
  apply andb_true_iff in Hdots as [Hc Hc']. apply Ascii.eqb_eq in Hc, Hc'. subst.
  apply (IH "."%char).
Qed.

Lemma all_chars_squeeze_dots p s :
  all_chars p s = true → all_chars p (Str.squeeze_dots s) = true.
Proof.
  induction s as [|c s IH]; [done|]. intros H.
  pose proof (all_chars_tail _ _ _ H) as Hs.
  destruct s as [|c' s]; [exact H|].
  change (Str.squeeze_dots (String c (String c' s)))
    with (if Ascii.eqb c "."%char && Ascii.eqb c' "."%char
          then Str.squeeze_dots (String c' s)
          else String c (Str.squeeze_dots (String c' s))).
  destruct (Ascii.eqb c "."%char && Ascii.eqb c' "."%char); [by apply IH|].
  apply andb_true_iff in H as [Hc _]. cbn [all_chars]. rewrite Hc. by apply IH.
Qed.

Lemma no_double_dot_squeeze_dots s : no_double_dot (Str.squeeze_dots s) = true.
Proof.
  induction s as [|c s IH]; [done|].
  destruct s as [|c' s]; [done|].
  change (Str.squeeze_dots (String c (String c' s)))
    with (if Ascii.eqb c "."%char && Ascii.eqb c' "."%char
          then Str.squeeze_dots (String c' s)
          else String c (Str.squeeze_dots (String c' s))).
  destruct (Ascii.eqb c "."%char && Ascii.eqb c' "."%char) eqn:Hdots; [exact IH|].
  destruct (squeeze_dots_head s c') as [r Hr]. rewrite Hr in IH |- *.
  change (no_double_dot (String c (String c' r)))
    with (negb (Ascii.eqb c "."%char && Ascii.eqb c' "."%char)
          && no_double_dot (String c' r)).
  by rewrite Hdots, IH.
Qed.

Lemma no_double_dot_tail c s : no_double_dot (String c s) = true → no_double_dot s = true.
Proof.
  destruct s as [|c' s]; [done|]. cbn [no_double_dot]. by intros [_ ?]%andb_true_iff.
Qed.

Lemma strip_leading_dots_shape p s :
  all_chars p s = true → no_double_dot s = true →
  all_chars p (Str.strip_leading_dots s) = true
  ∧ no_double_dot (Str.strip_leading_dots s) = true
  ∧ no_leading_dot (Str.strip_leading_dots s) = true.
Proof.
  induction s as [|c s IH]; [done|]. intros Hp Hd. cbn [Str.strip_leading_dots].
  destruct (Ascii.eqb c "."%char) eqn:Hc.
  - apply IH; [by eapply all_chars_tail|by eapply no_double_dot_tail].
  - split; [done|]. split; [done|]. cbn [no_leading_dot]. by rewrite Hc.
Qed.

Lemma lower_shape s :
  all_chars Str.word_char s = true →
  all_chars type_char (Str.lower s) = true
  ∧ no_double_dot (Str.lower s) = no_double_dot s
  ∧ no_leading_dot (Str.lower s) = no_leading_dot s.
Proof.
  induction s as [|c s IH]; [done|]. intros H.
  apply andb_true_iff in H as [Hc Hs]. destruct (IH Hs) as (IH1 & IH2 & _).
  cbn [Str.lower all_chars no_leading_dot]. rewrite (type_char_lower _ Hc), IH1, lower_char_dot.
  split; [done|]. split; [|done].
  destruct s as [|c' s]; [done|].
  change (Str.lower (String c' s)) with (String (Str.lower_char c') (Str.lower s)) in *.
  change (no_double_dot (String (Str.lower_char c) (String (Str.lower_char c') (Str.lower s))))
    with (negb (Ascii.eqb (Str.lower_char c) "."%char && Ascii.eqb (Str.lower_char c') "."%char)
          && no_double_dot (String (Str.lower_char c') (Str.lower s))).
  change (no_double_dot (String c (String c' s)))
    with (negb (Ascii.eqb c "."%char && Ascii.eqb c' "."%char)
          && no_double_dot (String c' s)).
  by rewrite !lower_char_dot, IH2.
Qed.

(** The characters of a worker type are those of the class [[0-9a-z._]]. *)
Lemma worker_type_chars (pythonfile : string) :
  all_chars type_char (Manager.get_worker_type_for_file pythonfile) = true.
Proof.
  unfold Manager.get_worker_type_for_file. cbv zeta.
  set (joined := Str.dash_to_underscore _).
  pose proof (all_chars_keep_word_chars joined) as H1.
  pose proof (all_chars_squeeze_dots _ _ H1) as H2.
  pose proof (no_double_dot_squeeze_dots (Str.keep_word_chars joined)) as H3.
  destruct (strip_leading_dots_shape _ _ H2 H3) as (H4 & _).
  by destruct (lower_shape _ H4) as (H7 & _).
Qed.

(** X9.  The worker type that [get_worker_type_for_file] makes of a path
    consists of the characters [0-9], [a-z], [.] and [_] only; it does not
    begin with a dot, and no two dots follow each other in it.  So it has no
    [/], no hyphen and no capital letter, whatever the path. *)
Theorem worker_type_shape (pythonfile : string) :
  let t := Manager.get_worker_type_for_file pythonfile in
  all_chars type_char t = true ∧ no_double_dot t = true ∧ no_leading_dot t = true.
Proof.
  cbv zeta. unfold Manager.get_worker_type_for_file. cbv zeta.
  set (joined := Str.dash_to_underscore _).
  pose proof (all_chars_keep_word_chars joined) as H1.
  pose proof (all_chars_squeeze_dots _ _ H1) as H2.
  pose proof (no_double_dot_squeeze_dots (Str.keep_word_chars joined)) as H3.
  destruct (strip_leading_dots_shape _ _ H2 H3) as (H4 & H5 & H6).
  destruct (lower_shape _ H4) as (H7 & H8 & H9).
  by rewrite H8, H9.
Qed.

End StrFacts.

(** ** More of the dispatcher *)

Module ManagerEffects.

Import Spec Shape WorkerFacts ManagerFacts StrFacts.

(** *** Resolving a worker class *)

Lemma get_worker_for_file_cached pf s c :
  Manager.worker_map s !! Manager.get_worker_type_for_file pf = Some c →
  Manager.get_worker_for_file pf s = (Ok (Some c), s).
Proof.
  intros Hc. unfold Manager.get_worker_for_file. cbv zeta. unfold_m. by rewrite Hc.
Qed.

Lemma get_worker_for_file_loaded pf s m :
  let t := Manager.get_worker_type_for_file pf in
  Manager.worker_map s !! t = None →
  Manager.sys_modules s !! t = Some m →
  Manager.get_worker_for_file pf s
  = match find Manager.instantiable m with
    | Some x => (Ok (Some (Manager.as_class x)),
                 Manager.set_worker_map (<[t := Manager.as_class x]> (Manager.worker_map s)) s)
    | None => (Ok None, s)
    end.
Proof.
  intros t Hc Hm. unfold Manager.get_worker_for_file. cbv zeta. fold t. unfold_m.
  rewrite Hc. cbn beta iota. rewrite Hm. cbn beta iota. rewrite Hm. cbn [default]. unfold id.
  by destruct (find Manager.instantiable m).
Qed.

Lemma get_worker_for_file_fresh pf s m :
  let t := Manager.get_worker_type_for_file pf in
  Manager.worker_map s !! t = None →
  Manager.sys_modules s !! t = None →
  Manager.files s !! pf = Some m →
  let s1 := Manager.set_sys_modules (<[t := m]> (Manager.sys_modules s)) s in
  Manager.get_worker_for_file pf s
  = match find Manager.instantiable m with
    | Some x => (Ok (Some (Manager.as_class x)),
                 Manager.set_worker_map (<[t := Manager.as_class x]> (Manager.worker_map s1)) s1)
    | None => (Ok None, s1)
    end.
Proof.
  intros t Hc Hm Hf s1. unfold Manager.get_worker_for_file. cbv zeta. fold t. unfold_m.
  rewrite Hc. cbn beta iota. rewrite Hm. cbn beta iota. rewrite Hf. cbn beta iota.
  cbn [Manager.sys_modules Manager.set_sys_modules]. rewrite lookup_insert_eq. cbn [default]. unfold id.
  by destruct (find Manager.instantiable m).
Qed.

Lemma get_worker_for_file_missing pf s :
  let t := Manager.get_worker_type_for_file pf in
  Manager.worker_map s !! t = None →
  Manager.sys_modules s !! t = None →
  Manager.files s !! pf = None →
  Manager.get_worker_for_file pf s = (Raise (Manager.file_not_found pf), s).
Proof.
  intros t Hc Hm Hf. unfold Manager.get_worker_for_file. cbv zeta. fold t. unfold_m.
  rewrite Hc. cbn beta iota. rewrite Hm. cbn beta iota. by rewrite Hf.
Qed.

(** Resolving touches the two caches and nothing else; what it returns is
    in the cache afterwards, and when it returns [None] the module is loaded
    and has no class to offer. *)
Lemma get_worker_for_file_spec pf s :
  let t := Manager.get_worker_type_for_file pf in
  let r := (Manager.get_worker_for_file pf s).1 in
  let s' := (Manager.get_worker_for_file pf s).2 in
  same_but_caches s s'
  ∧ match r with
    | Ok (Some c) => Manager.worker_map s' !! t = Some c
    | Ok None =>
        Manager.worker_map s' !! t = None
        ∧ ∃ m, Manager.sys_modules s' !! t = Some m ∧ find Manager.instantiable m = None
    | Raise _ => s' = s
    end.
Proof.
  intros t. cbv zeta. fold t.
  destruct (Manager.worker_map s !! t) as [c|] eqn:Hc.
  { rewrite (get_worker_for_file_cached pf s c Hc). done. }
  destruct (Manager.sys_modules s !! t) as [m|] eqn:Hm.
  { rewrite (get_worker_for_file_loaded pf s m Hc Hm).
    destruct (find Manager.instantiable m) as [x|] eqn:Hx; cbn.
    - split; [done|]. apply lookup_insert_eq.
    - split; [done|]. split; [done|]. eauto. }
  destruct (Manager.files s !! pf) as [m|] eqn:Hf.
  - rewrite (get_worker_for_file_fresh pf s m Hc Hm Hf). fold t.
    destruct (find Manager.instantiable m) as [x|] eqn:Hx; cbn.
    + split; [done|]. apply lookup_insert_eq.
    + split; [done|]. split; [done|]. exists m. split; [apply lookup_insert_eq|done].
  - rewrite (get_worker_for_file_missing pf s Hc Hm Hf). done.
Qed.

(** X10.  The results of [get_worker_for_file] are cached by worker type.
    Once a call has returned, be it a class or [None], any later call for a
    path of the same type returns the same and changes nothing, as long as
    the two caches are as that call left them, and whatever the files then
    hold or the pool then is.  So a file that has changed is not loaded
    again, and two paths of one type share the class of the first. *)
Theorem resolved_class_is_cached (pf pf' : string) (s s' s'' : Manager.state)
    (r : option Worker.class) :
  Manager.get_worker_for_file pf s = (Ok r, s') →
  Manager.get_worker_type_for_file pf' = Manager.get_worker_type_for_file pf →
  same_caches s' s'' →
  Manager.get_worker_for_file pf' s'' = (Ok r, s'').
Proof.
  intros Hcall Htype [Hmap Hmods].
  pose proof (get_worker_for_file_spec pf s) as Hspec. cbv zeta in Hspec.
  rewrite Hcall in Hspec. cbn [fst snd] in Hspec. destruct Hspec as [_ Hr].
  destruct r as [c|].
  - apply get_worker_for_file_cached. by rewrite Htype, Hmap.
  - destruct Hr as (Hnone & m & Hm & Hfind).
    rewrite (get_worker_for_file_loaded pf' s'' m); rewrite ?Htype, ?Hmap, ?Hmods; try done.
    by rewrite Hfind.
Qed.

Lemma resolved_class_is_cached_witness :
  let s := Manager.st Examples.fresh in
  let s' := (Manager.get_worker_for_file Examples.path_w s).2 in
  Manager.get_worker_for_file "/srv/jobs/W.py" s' = (Ok (Some Examples.w_class), s').
Proof.
  cbv zeta.
  apply (resolved_class_is_cached Examples.path_w "/srv/jobs/W.py"
           (Manager.st Examples.fresh)
           (Manager.get_worker_for_file Examples.path_w (Manager.st Examples.fresh)).2
           (Manager.get_worker_for_file Examples.path_w (Manager.st Examples.fresh)).2
           (Some Examples.w_class));
    [vm_compute; reflexivity|vm_compute; reflexivity|split; reflexivity].
Defined.

Lemma find_split {A} (f : A → bool) (l : list A) x :
  find f l = Some x →
  ∃ before after, l = before ++ x :: after
    ∧ Forall (λ y, f y = false) before ∧ f x = true.
Proof.
  induction l as [|y l IH]; [done|]. cbn [find].
  destruct (f y) eqn:Hy.
  - intros [= ->]. by exists [], l.
  - intros Hfind. destruct (IH Hfind) as (before & after & -> & Hall & Hx).
    exists (y :: before), after. split; [done|]. split; [by constructor|done].
Qed.

(** X11.  A class that [get_worker_for_file] returns without having it in
    its map is the first member of the module, in the order of
    [inspect.getmembers], that is a class deriving from [BasicWorker], is not
    abstract and whose name does not begin with two underscores; every
    member before it fails that test.  The module is the one that
    [sys.modules] holds under the worker type, or, when there is none, the
    one that the file defines, which is then entered into [sys.modules].
    The class is in the map afterwards. *)
Theorem resolved_class_is_first_instantiable (pf : string) (s s' : Manager.state)
    (c : Worker.class) :
  let t := Manager.get_worker_type_for_file pf in
  Manager.worker_map s !! t = None →
  Manager.get_worker_for_file pf s = (Ok (Some c), s') →
  ∃ m before x after,
    (Manager.sys_modules s !! t = Some m
     ∨ Manager.sys_modules s !! t = None ∧ Manager.files s !! pf = Some m)
    ∧ m = before ++ x :: after
    ∧ Forall (λ y, Manager.instantiable y = false) before
    ∧ Manager.instantiable x = true
    ∧ c = Manager.as_class x
    ∧ Manager.sys_modules s' !! t = Some m
    ∧ Manager.worker_map s' !! t = Some c.
Proof.
  intros t Hc Hcall.
  destruct (Manager.sys_modules s !! t) as [m|] eqn:Hm.
  { rewrite (get_worker_for_file_loaded pf s m Hc Hm) in Hcall.
    destruct (find Manager.instantiable m) as [x|] eqn:Hx; [|done].
    injection Hcall as <- <-.
    destruct (find_split _ _ _ Hx) as (before & after & Hsplit & Hall & Hinst).
    exists m, before, x, after. split_and!; try done; [by left|].
    cbn. apply lookup_insert_eq. }
  destruct (Manager.files s !! pf) as [m|] eqn:Hf.
  - rewrite (get_worker_for_file_fresh pf s m Hc Hm Hf) in Hcall. fold t in Hcall.
    destruct (find Manager.instantiable m) as [x|] eqn:Hx; [|done].
    injection Hcall as <- <-.
    destruct (find_split _ _ _ Hx) as (before & after & Hsplit & Hall & Hinst).
    exists m, before, x, after. split_and!; try done; [by right| |].
    + cbn. apply lookup_insert_eq.
    + cbn. apply lookup_insert_eq.
  - by rewrite (get_worker_for_file_missing pf s Hc Hm Hf) in Hcall.
Qed.

Lemma resolved_class_is_first_instantiable_witness :
  let s := Manager.st Examples.fresh in
  let s' := (Manager.get_worker_for_file Examples.path_w s).2 in
  let t := Manager.get_worker_type_for_file Examples.path_w in
  ∃ m before x after,
    (Manager.sys_modules s !! t = Some m
     ∨ Manager.sys_modules s !! t = None ∧ Manager.files s !! Examples.path_w = Some m)
    ∧ m = before ++ x :: after
    ∧ Forall (λ y, Manager.instantiable y = false) before
    ∧ Manager.instantiable x = true
    ∧ Examples.w_class = Manager.as_class x
    ∧ Manager.sys_modules s' !! t = Some m
    ∧ Manager.worker_map s' !! t = Some Examples.w_class.
Proof.
  cbv zeta.
  apply (resolved_class_is_first_instantiable Examples.path_w (Manager.st Examples.fresh));
    [reflexivity|vm_compute; reflexivity].
Defined.

(** *** The clean-up loop *)

Lemma remove_first_delete (l : list Manager.worker) : ∀ i w,
  NoDup (Manager.ident <$> l) → l !! i = Some w →
  Manager.remove_first (Manager.ident w) l = base.delete i l.
Proof.
  induction l as [|x l IH]; intros i w Hnd Hi; [done|].
  rewrite fmap_cons, NoDup_cons in Hnd. destruct Hnd as [Hx Hnd].
  destruct i as [|i]; cbn in Hi |- *.
  - injection Hi as ->. by rewrite decide_True.
  - rewrite decide_False; [by rewrite (IH i w)|].
    intros Heq. apply Hx. rewrite Heq. apply list_elem_of_fmap_2.
    by eapply list_elem_of_lookup_2.
Qed.

Lemma NoDup_ident_delete (l : list Manager.worker) i :
  NoDup (Manager.ident <$> l) → NoDup (Manager.ident <$> base.delete i l).
Proof.
  intros Hnd. apply (sublist_NoDup _ (Manager.ident <$> l)); [exact Hnd|].
  apply fmap_sublist, sublist_delete.
Qed.

Lemma filter_alive_delete (l : list Manager.worker) : ∀ i w,
  l !! i = Some w → Manager.alive w = false →
  filter (λ x, Manager.alive x) (base.delete i l) = filter (λ x, Manager.alive x) l.
Proof.
  induction l as [|x l IH]; intros i w Hi Hw; [done|].
  destruct i as [|i]; cbn in Hi.
  - injection Hi as ->. change (base.delete 0%nat (w :: l)) with l.
    rewrite filter_cons_False; [done|]. rewrite Hw. intros [].
  - change (base.delete (S i) (x :: l)) with (x :: base.delete i l).
    rewrite !filter_cons. by rewrite (IH i w Hi Hw).
Qed.

Lemma take_S_eq {A} (a b : list A) i : take (S i) a = take (S i) b → take i a = take i b.
Proof.
  intros H. apply (f_equal (take i)) in H. rewrite !take_take in H.
  by rewrite Nat.min_l in H by lia.
Qed.

Lemma take_delete {A} (l : list A) i : take i (base.delete i l) = take i l.
Proof.
  apply list_eq. intros j. rewrite !lookup_take. case_decide; [|done].
  by apply list_lookup_delete_lt.
Qed.

(** The loop from position [i] on, for workers that are distinct threads:
    what is before [i] stays, the running workers stay, and the workers
    that go are dead and are the ones that were joined. *)
Lemma reap_from_spec fuel : ∀ i l,
  NoDup (Manager.ident <$> l) →
  let l' := (Manager.reap_from fuel i l).1 in
  let evs := (Manager.reap_from fuel i l).2 in
  take i l' = take i l
  ∧ sublist l' l
  ∧ filter (λ x, Manager.alive x) l' = filter (λ x, Manager.alive x) l
  ∧ ∃ gone, evs = joins gone
      ∧ l ≡ₚ l' ++ gone
      ∧ Forall (λ x, Manager.alive x = false) gone.
Proof.
  induction fuel as [|fuel IH]; intros i l Hnd; cbn [Manager.reap_from].
  { cbn. split_and!; try done. exists []. by rewrite app_nil_r. }
  destruct (l !! i) as [w|] eqn:Hi.
  2:{ cbn. split_and!; try done. exists []. by rewrite app_nil_r. }
  destruct (Manager.alive w) eqn:Hw.
  - destruct (IH (S i) l Hnd) as (Htake & Hsub & Hlive & gone & Hevs & Hperm & Hdead).
    split_and!; try done.
    + by apply take_S_eq.
    + by exists gone.
  - rewrite (remove_first_delete l i w Hnd Hi).
    destruct (IH (S i) (base.delete i l) (NoDup_ident_delete l i Hnd))
      as (Htake & Hsub & Hlive & gone & Hevs & Hperm & Hdead).
    destruct (Manager.reap_from fuel (S i) (base.delete i l)) as [l1 evs1]. cbn [fst snd] in *.
    split_and!.
    + rewrite (take_S_eq _ _ _ Htake). apply take_delete.
    + etrans; [exact Hsub|apply sublist_delete].
    + rewrite Hlive. by apply (filter_alive_delete l i w).
    + exists (w :: gone). split; [by rewrite Hevs|]. split.
      * rewrite (delete_Permutation l i w Hi), Hperm. by rewrite Permutation_middle.
      * by constructor.
Qed.

(** The loop ends because the list does: more rounds than the list is long
    do no more. *)
Lemma reap_from_enough fuel : ∀ fuel' i l,
  (length l ≤ fuel + i)%nat → (length l ≤ fuel' + i)%nat →
  Manager.reap_from fuel i l = Manager.reap_from fuel' i l.
Proof.
  induction fuel as [|fuel IH]; intros fuel' i l Hf Hf'.
  - cbn [Manager.reap_from]. destruct fuel' as [|fuel']; [done|]. cbn [Manager.reap_from].
    rewrite lookup_ge_None_2; [done|]. lia.
  - destruct fuel' as [|fuel'].
    + cbn [Manager.reap_from]. rewrite lookup_ge_None_2; [done|]. lia.
    + cbn [Manager.reap_from]. destruct (l !! i) as [w|] eqn:Hi; [|done].
      destruct (Manager.alive w).
      * apply IH; lia.
      * pose proof (length_remove_first (Manager.ident w) l).
        rewrite (IH fuel' (S i) (Manager.remove_first (Manager.ident w) l)); [done|lia|lia].
Qed.

(** X12.  The clean-up loop of [delegate] over the workers of one type,
    which are distinct threads: it keeps every worker that is still running,
    in the order they were in; it only drops workers that have ended; and it
    has joined exactly the workers it drops.  The loop ends with the list:
    more rounds than the list is long change nothing. *)
Theorem reap_keeps_the_running (l : list Manager.worker) :
  NoDup (Manager.ident <$> l) →
  let l' := (Manager.reap_list l).1 in
  let evs := (Manager.reap_list l).2 in
  filter (λ x, Manager.alive x) l' = filter (λ x, Manager.alive x) l
  ∧ sublist l' l
  ∧ (∃ gone, evs = joins gone
       ∧ l ≡ₚ l' ++ gone
       ∧ Forall (λ x, Manager.alive x = false) gone)
  ∧ ∀ fuel, (length l ≤ fuel)%nat → Manager.reap_from fuel 0 l = Manager.reap_list l.
Proof.
  intros Hnd. cbv zeta. unfold Manager.reap_list.
  destruct (reap_from_spec (length l) 0 l Hnd) as (_ & Hsub & Hlive & Hgone).
  split_and!; try done.
  intros fuel Hfuel. apply reap_from_enough; lia.
Qed.

Lemma reap_keeps_the_running_witness :
  let l' := (Manager.reap_list Cases.crowd).1 in
  let evs := (Manager.reap_list Cases.crowd).2 in
  filter (λ x, Manager.alive x) l' = filter (λ x, Manager.alive x) Cases.crowd
  ∧ sublist l' Cases.crowd
  ∧ (∃ gone, evs = joins gone
       ∧ Cases.crowd ≡ₚ l' ++ gone
       ∧ Forall (λ x, Manager.alive x = false) gone)
  ∧ ∀ fuel, (length Cases.crowd ≤ fuel)%nat →
            Manager.reap_from fuel 0 Cases.crowd = Manager.reap_list Cases.crowd.
Proof.
  apply (reap_keeps_the_running Cases.crowd). compute_done.
Defined.

Lemma reap_from_skip k : ∀ fuel i l,
  Forall (λ x, Manager.alive x = true) (take k (drop i l)) →
  (i + k ≤ length l)%nat →
  Manager.reap_from (k + fuel) i l = Manager.reap_from fuel (i + k) l.
Proof.
  induction k as [|k IH]; intros fuel i l Hall Hlen.
  - by rewrite Nat.add_0_r.
  - cbn [Nat.add Manager.reap_from].
    destruct (lookup_lt_is_Some_2 l i) as [w Hi]; [lia|]. rewrite Hi.
    rewrite (drop_S _ _ _ Hi) in Hall. cbn [take] in Hall.
    apply Forall_cons in Hall as [Hw Hall]. rewrite Hw.
    rewrite (IH fuel (S i) l Hall); [|lia]. f_equal. lia.
Qed.

(** X13.  The loop changes the list while it walks it by position, so it
    passes over the worker that follows one it drops.  If the workers before
    position [i] are running and the one at [i] has ended, the worker at
    [i + 1] is still in the list after the loop, and it was not joined,
    whether it has ended or not. *)
Theorem reap_passes_over_the_next (l : list Manager.worker) (i : nat)
    (ended next : Manager.worker) :
  NoDup (Manager.ident <$> l) →
  Forall (λ x, Manager.alive x = true) (take i l) →
  l !! i = Some ended → Manager.alive ended = false →
  l !! S i = Some next →
  (Manager.reap_list l).1 !! i = Some next
  ∧ Manager.Joined (Manager.ident next) ∉ (Manager.reap_list l).2.
Proof.
  intros Hnd Hrun Hi Hended Hnext.
  pose proof (lookup_lt_Some _ _ _ Hnext) as Hlen.
  unfold Manager.reap_list.
  replace (length l) with (i + (length l - i))%nat by lia.
  rewrite (reap_from_skip i (length l - i) 0 l); [|by rewrite drop_0|lia].
  cbn [Nat.add]. destruct (length l - i)%nat as [|fuel] eqn:Hfuel; [lia|].
  cbn [Manager.reap_from]. rewrite Hi, Hended.
  rewrite (remove_first_delete l i ended Hnd Hi).
  destruct (reap_from_spec fuel (S i) (base.delete i l) (NoDup_ident_delete l i Hnd))
    as (Htake & _ & _ & gone & Hevs & Hperm & _).
  destruct (Manager.reap_from fuel (S i) (base.delete i l)) as [l1 evs1]. cbn [fst snd] in *.
  assert (Hnext' : base.delete i l !! i = Some next)
    by (rewrite list_lookup_delete_ge by lia; exact Hnext).
  assert (Hl1 : l1 !! i = Some next).
  { rewrite <- (lookup_take_lt _ (S i)) by lia. rewrite Htake.
    rewrite lookup_take_lt by lia. exact Hnext'. }
  split; [exact Hl1|].
  assert (Hnd1 : NoDup (Manager.ident <$> (l1 ++ gone))).
  { rewrite <- Hperm. by apply NoDup_ident_delete. }
  rewrite fmap_app in Hnd1. apply NoDup_app in Hnd1 as (_ & Hdisj & _).
  rewrite Hevs. intros Hin. apply elem_of_cons in Hin as [Heq|Hin].
  - injection Heq as Heq.
    assert (Hne : i ≠ S i) by lia. apply Hne.
    apply (NoDup_lookup (Manager.ident <$> l) i (S i) (Manager.ident ended)); [exact Hnd| |].
    + by rewrite list_lookup_fmap, Hi.
    + rewrite list_lookup_fmap, Hnext. cbn. congruence.
  - apply (Hdisj (Manager.ident next)).
    + apply list_elem_of_fmap_2. by eapply list_elem_of_lookup_2.
    + unfold joins in Hin. apply list_elem_of_fmap in Hin as (x & Heq & Hx).
      cbn beta in Heq. injection Heq as Heq. rewrite Heq. by apply list_elem_of_fmap_2.
Qed.

Lemma reap_passes_over_the_next_witness :
  (Manager.reap_list Cases.crowd).1 !! 1%nat = Some (Manager.Worker 2 false Cases.worker_object)
  ∧ Manager.Joined 2 ∉ (Manager.reap_list Cases.crowd).2.
Proof.
  apply (reap_passes_over_the_next Cases.crowd 1
           (Manager.Worker 1 false Cases.worker_object)
           (Manager.Worker 2 false Cases.worker_object));
    [compute_done|compute_done|reflexivity|reflexivity|reflexivity].
Defined.

(** *** One round of the loop over the jobs *)

Ltac cbn_state :=
  cbn [fst snd Manager.set_env Manager.set_worker_pool Manager.emit Manager.set_threads
       Manager.set_looping Manager.set_worker_map Manager.set_sys_modules
       Manager.env Manager.looping Manager.worker_map Manager.worker_pool
       Manager.sys_modules Manager.files Manager.events Manager.threads].

(** X14.  A job whose script does not exist is cancelled by [delegate]:
    the round calls [add_status] with the reason and then [finish()] on it
    and returns; no worker class is looked up, nothing is claimed, no worker
    is started, and the pool and the caches stay as they are.  A one-shot
    job is gone from the table afterwards. *)
Theorem dispatch_cancels_job_without_script (job : Job.t) (s : Manager.state)
    (pf : string) (id : val) (iv : Z) :
  Job.data job !! "pythonfile" = Some (VStr pf) →
  Manager.files s !! pf = None →
  Job.data job !! "id" = Some id →
  Job.data job !! "interval" = Some (VInt iv) →
  let text := "Job script does not exist. Cancelling." in
  ∃ w', Manager.dispatch job s = (Ok tt, Manager.set_env w' s)
    ∧ journal w' = journal (Manager.env s)
                   ++ [CallAddStatus (Some id) text; CallFinish (Some id)]
    ∧ db w' = after_finish id iv (clock (Manager.env s))
                (after_status id (clock (Manager.env s)) text (db (Manager.env s)))
    ∧ (iv = 0 → ∀ r, r ∈ rows (db w') → VInt (row_id r) ≠ id).
Proof.
  intros Hpf Hfile Hid Hiv text. eexists. split.
  - unfold Manager.dispatch. erewrite bind_ok by (by apply QueueFacts.getstr_some).
    erewrite bind_ok by reflexivity. rewrite Hfile.
    rewrite bool_decide_eq_true_2 by done.
    erewrite bind_ok by (apply lift_eq, add_status_eq; exact Hid).
    unfold Manager.on_env. erewrite lift_eq by (apply finish_eq; [exact Hid|exact Hiv]).
    cbn [Manager.set_env Manager.env Manager.looping Manager.worker_map Manager.worker_pool
         Manager.sys_modules Manager.files Manager.events Manager.threads].
    rewrite moved_moved. reflexivity.
  - cbn [moved journal log db clock]. split_and!; try done.
    intros -> r. apply finished_one_shot_gone.
Qed.

Lemma dispatch_cancels_job_without_script_witness :
  let s := Cases.with_orphan in
  let text := "Job script does not exist. Cancelling." in
  ∃ w', Manager.dispatch (handle Cases.orphan) s = (Ok tt, Manager.set_env w' s)
    ∧ journal w' = journal (Manager.env s)
                   ++ [CallAddStatus (Some (VInt 1)) text; CallFinish (Some (VInt 1))]
    ∧ db w' = after_finish (VInt 1) 0 (clock (Manager.env s))
                (after_status (VInt 1) (clock (Manager.env s)) text (db (Manager.env s)))
    ∧ (0 = 0 → ∀ r, r ∈ rows (db w') → VInt (row_id r) ≠ VInt 1).
Proof.
  cbv zeta.
  apply (dispatch_cancels_job_without_script (handle Cases.orphan) Cases.with_orphan
           "/srv/jobs/gone.py" (VInt 1) 0); reflexivity.
Defined.

Lemma workers_pool_set_new t p :
  Manager.pool_get t p = None → workers (Manager.pool_set t [] p) = workers p.
Proof.
  unfold workers. induction p as [|[k ws] p IH]; [done|]. cbn [Manager.pool_get Manager.pool_set].
  destruct (decide (k = t)); [done|]. intros Hnone.
  rewrite !fmap_cons, !mjoin_cons. by rewrite (IH Hnone).
Qed.

Lemma pool_get_set t t' ws p :
  Manager.pool_get t' (Manager.pool_set t ws p)
  = if decide (t = t') then Some ws else Manager.pool_get t' p.
Proof.
  destruct (decide (t = t')) as [<-|Hne]; [apply pool_get_set_eq|by apply pool_get_set_ne].
Qed.

(** X15.  One round of the loop of [delegate] over the jobs starts at most
    one worker, and starts it only for a job that it has claimed in that
    round.  Either the round leaves the workers of the pool, the events and
    the number of threads as they were; or the type of the job was below
    the cap of its worker class, [claim()] returned, and the round has
    started one new thread and appended it to the list of that type: a
    worker of the resolved class, holding the handle that [claim()]
    returned, with its interrupt flag at [INTERRUPT_NONE].  The lists of
    the other types are as they were. *)
Theorem dispatch_starts_one_claimed_worker (job : Job.t) (s : Manager.state) :
  let s' := (Manager.dispatch job s).2 in
  (workers (Manager.worker_pool s') = workers (Manager.worker_pool s)
   ∧ Manager.events s' = Manager.events s
   ∧ Manager.threads s' = Manager.threads s)
  ∨ (∃ pf c claimed,
       let t := Manager.get_worker_type_for_file pf in
       Job.data job !! "pythonfile" = Some (VStr pf)
       ∧ Manager.worker_map s' !! t = Some c
       ∧ Z.of_nat (length (running t s)) < Worker.max_workers c
       ∧ Job.claim job (Manager.env s) = (Ok claimed, Manager.env s')
       ∧ running t s' = running t s ++ [new_worker s c claimed]
       ∧ (∀ t', t' ≠ t →
            Manager.pool_get t' (Manager.worker_pool s')
            = Manager.pool_get t' (Manager.worker_pool s))
       ∧ Manager.events s' = Manager.events s ++ [Manager.Started (Manager.threads s)]
       ∧ Manager.threads s' = S (Manager.threads s)
       ∧ Manager.dispatch job s = (Ok tt, s')).
Proof.
  cbv zeta. unfold Manager.dispatch.
  destruct (Job.data job !! "pythonfile") as [[n|pf]|] eqn:Hpf.
  { left. erewrite bind_raise; [done|]. unfold getstr, getitem. rewrite Hpf. reflexivity. }
  2:{ left. erewrite bind_raise; [done|]. unfold getstr, getitem. rewrite Hpf. reflexivity. }
  erewrite bind_ok by (by apply QueueFacts.getstr_some).
  erewrite bind_ok by reflexivity.
  destruct (bool_decide (Manager.files s !! pf = None)).
  { left. unfold Manager.on_env.
    destruct (Job.add_status job "Job script does not exist. Cancelling." (Manager.env s))
      as [[[]|e] w1] eqn:Hstatus.
    - erewrite bind_ok by (apply lift_eq, Hstatus). unfold lift. cbn_state.
      by destruct (Job.finish job w1) as [r w2].
    - erewrite bind_raise by (apply lift_eq, Hstatus). done. }
  pose proof (get_worker_for_file_spec pf s) as Hspec. cbv zeta in Hspec.
  destruct (Manager.get_worker_for_file pf s) as [[[c|]|e] s1] eqn:Hresolve;
    cbn [fst snd] in Hspec;
    destruct Hspec as [(Henv & _ & Hpool & _ & Hevents & Hthreads) Hr].
  2:{ left. erewrite bind_ok by exact Hresolve. cbn [snd ret].
      by rewrite Hpool, Hevents, Hthreads. }
  2:{ left. erewrite bind_raise by exact Hresolve. cbn [snd].
      by rewrite Hpool, Hevents, Hthreads. }
  erewrite bind_ok by exact Hresolve. cbv beta iota zeta.
  set (t := Manager.get_worker_type_for_file pf) in *.
  erewrite bind_ok by reflexivity.
  set (s2 := match Manager.pool_get t (Manager.worker_pool s1) with
             | None => Manager.set_worker_pool
                         (Manager.pool_set t [] (Manager.worker_pool s1)) s1
             | Some _ => s1
             end).
  assert (Hs2 : workers (Manager.worker_pool s2) = workers (Manager.worker_pool s)
                ∧ running t s2 = running t s
                ∧ (∀ t', t' ≠ t → Manager.pool_get t' (Manager.worker_pool s2)
                                  = Manager.pool_get t' (Manager.worker_pool s))
                ∧ Manager.env s2 = Manager.env s ∧ Manager.events s2 = Manager.events s
                ∧ Manager.threads s2 = Manager.threads s
                ∧ Manager.worker_map s2 !! t = Some c).
  { unfold s2, running. rewrite <- Hpool.
    destruct (Manager.pool_get t (Manager.worker_pool s1)) as [ws|] eqn:Hget.
    - rewrite Hget. split_and!; done.
    - cbn_state. rewrite pool_get_set_eq. split_and!; try done.
      + by apply workers_pool_set_new.
      + intros t' Hne. by apply pool_get_set_ne. }
  clearbody s2. clear Hr Henv Hpool Hevents Hthreads Hresolve s1.
  destruct Hs2 as (Hworkers & Hrunning & Hothers & Henv & Hevents & Hthreads & Hc).
  erewrite bind_ok by reflexivity. fold (running t s2).
  destruct (decide (Z.of_nat (length (running t s2)) >= Worker.max_workers c)) as [Hfull|Hroom].
  { left. cbn [snd ret]. done. }
  unfold try_except, Manager.on_env.
  destruct (Job.claim job (Manager.env s2)) as [[claimed|e] w'] eqn:Hclaim.
  - right. exists pf, c, claimed. cbv zeta. fold t.
    erewrite bind_ok by (apply lift_eq, Hclaim).
    unfold Manager.start_worker, modify. cbn_state.
    fold (running t s2). unfold running at 2.
    cbn_state. rewrite pool_get_set_eq. cbn [default].
    rewrite Hrunning in *. rewrite <- Henv, Hclaim, Hevents, Hthreads.
    unfold new_worker. rewrite <- Hthreads. split_and!; try done.
    + lia.
    + intros t' Hne. rewrite pool_get_set_ne by done. by apply Hothers.
  - left. erewrite bind_raise by (apply lift_eq, Hclaim).
    destruct (Manager.is_job_claimed e); cbn_state; done.
Qed.

(** *** The keys of the pool *)

Lemma typed_pool_set t ws p :
  typed_pool p → all_chars type_char t = true → typed_pool (Manager.pool_set t ws p).
Proof.
  unfold typed_pool. intros Hp Ht. induction p as [|[k v] p IH]; cbn [Manager.pool_set].
  - by constructor.
  - apply Forall_cons in Hp as [Hk Hp].
    destruct (decide (k = t)); constructor; auto.
Qed.

Lemma pool_get_typed t ws p :
  typed_pool p → Manager.pool_get t p = Some ws → all_chars type_char t = true.
Proof.
  unfold typed_pool. induction p as [|[k v] p IH]; [done|]. cbn [Manager.pool_get].
  intros [Hk Hp]%Forall_cons. destruct (decide (k = t)) as [<-|]; [done|]. by apply IH.
Qed.

Lemma reap_pool_typed p : typed_pool p → typed_pool (Manager.reap_pool p).1.
Proof.
  unfold typed_pool. induction p as [|[k ws] p IH]; [done|]. cbn [Manager.reap_pool].
  intros [Hk Hp]%Forall_cons. specialize (IH Hp).
  destruct (Manager.reap_list ws) as [ws1 evs]. destruct (Manager.reap_pool p) as [p1 evs1].
  by constructor.
Qed.

Lemma for_workers_typed f p : typed_pool p → typed_pool (Manager.for_workers f p).1.
Proof.
  unfold typed_pool, Manager.for_workers. cbn [fst]. intros Hp.
  apply Forall_fmap. eapply Forall_impl; [exact Hp|]. by intros [k ws].
Qed.

Lemma run_worker_in_typed id work p w :
  typed_pool p → typed_pool (Manager.run_worker_in id work p w).1.
Proof.
  unfold typed_pool. induction p as [|[k ws] p IH]; [done|]. cbn [Manager.run_worker_in].
  intros [Hk Hp]%Forall_cons. specialize (IH Hp).
  destruct (bool_decide (Exists (λ x, Manager.ident x = id) ws)).
  - destruct (Manager.run_worker id work ws w) as [ws1 w1]. by constructor.
  - destruct (Manager.run_worker_in id work p w) as [p1 w1]. by constructor.
Qed.

Lemma typed_set_env s w : typed s → typed (Manager.set_env w s).
Proof. done. Qed.

Lemma get_worker_for_file_typed pf :
  hoare typed (Manager.get_worker_for_file pf) (λ _ s, typed s).
Proof.
  intros s Hs. destruct (get_worker_for_file_spec pf s) as [(_ & _ & Hpool & _) _].
  unfold typed. by rewrite Hpool.
Qed.

Lemma dispatch_typed job : hoare typed (Manager.dispatch job) (λ _ s, typed s).
Proof.
  unfold Manager.dispatch.
  apply hoare_bind_inv; [apply hoare_getstr|]. intros pythonfile.
  apply hoare_bind_inv; [apply hoare_gets_inv|]. intros file.
  destruct (bool_decide (file = None)).
  - apply hoare_bind_inv; [apply hoare_on_env, typed_set_env|].
    intros []. apply hoare_on_env, typed_set_env.
  - apply hoare_bind_inv; [apply get_worker_for_file_typed|]. cbv zeta.
    pose proof (worker_type_chars pythonfile) as Ht.
    intros [c|]; [|apply hoare_ret_inv].
    apply hoare_bind_inv.
    { apply hoare_modify_inv. intros s Hs.
      destruct (Manager.pool_get _ (Manager.worker_pool s)); [done|].
      by apply typed_pool_set. }
    intros []. apply hoare_bind_inv; [apply hoare_gets_inv|]. intros ws.
    destruct (decide _); [apply hoare_ret_inv|].
    eapply hoare_try_except with (Q1 := λ _ s, typed s); [|done| |done].
    + apply hoare_bind_inv; [apply hoare_on_env, typed_set_env|]. intros claimed.
      apply hoare_modify_inv. intros s Hs. by apply typed_pool_set.
    + intros e _. apply hoare_ret_inv.
Qed.

Lemma for_workers_step_typed f :
  hoare typed
    (modify (λ s, let '(p, evs) := Manager.for_workers f (Manager.worker_pool s) in
                  Manager.emit evs (Manager.set_worker_pool p s)))
    (λ _ s, typed s).
Proof.
  apply hoare_modify_inv. intros s Hs.
  pose proof (for_workers_typed f (Manager.worker_pool s) Hs) as Hp.
  by destruct (Manager.for_workers f (Manager.worker_pool s)) as [p evs].
Qed.

Lemma delegate_typed : hoare typed Manager.delegate (λ _ s, typed s).
Proof.
  unfold Manager.delegate.
  apply hoare_bind_inv; [apply hoare_on_env, typed_set_env|]. intros jobs.
  apply hoare_bind_inv; [apply hoare_gets_inv|]. intros active.
  apply hoare_bind_inv; [apply hoare_on_env, typed_set_env|]. intros [].
  apply hoare_bind_inv.
  { apply hoare_modify_inv. intros s Hs.
    pose proof (reap_pool_typed (Manager.worker_pool s) Hs) as Hp.
    by destruct (Manager.reap_pool (Manager.worker_pool s)) as [p evs]. }
  intros []. apply hoare_bind_inv; [|intros []; apply hoare_ret_inv].
  apply hoare_for_each. apply dispatch_typed.
Qed.

Lemma request_interrupt_typed job level :
  hoare typed (Manager.request_interrupt job level) (λ _ s, typed s).
Proof.
  unfold Manager.request_interrupt.
  apply hoare_bind_inv; [apply hoare_getstr|]. intros pythonfile.
  eapply hoare_bind; [apply hoare_gets| |by intros e s [? ?]].
  intros [[|w ws]|]; try (by intros s [_ Hs]).
  eapply hoare_bind; [apply hoare_getitem| |by intros e s [? ?]]. intros id.
  eapply hoare_bind; [apply interrupt_first_length| |by intros e s [[? ?] ?]].
  intros ws' s [[[= Hget] Hs] Hlen]. unfold modify. cbn [fst snd].
  apply typed_pool_set; [exact Hs|]. by eapply pool_get_typed.
Qed.

Lemma run_step_typed c : typed (Manager.st c) → typed (Manager.st (Manager.run_step c)).
Proof.
  intros Hs. unfold Manager.run_step, Manager.after.
  destruct (Manager.at_ c); cbn [Manager.st]; try done.
  - pose proof (delegate_typed _ Hs) as H.
    destruct (Manager.delegate (Manager.st c)) as [[|] s']; exact H.
  - assert (H : typed (Manager.stop_workers (Manager.st c)).2).
    { revert Hs. generalize (Manager.st c). unfold Manager.stop_workers.
      apply hoare_bind_inv; [apply hoare_on_env, typed_set_env|]. intros [].
      apply for_workers_step_typed. }
    destruct (Manager.stop_workers (Manager.st c)) as [[|] s']; exact H.
  - destruct (Manager.any_alive _); [done|].
    assert (H : typed (Manager.join_workers (Manager.st c)).2).
    { revert Hs. generalize (Manager.st c). unfold Manager.join_workers.
      apply hoare_bind_inv; [apply hoare_on_env, typed_set_env|]. intros [].
      apply hoare_bind_inv; [apply hoare_gets_inv|]. intros p.
      apply hoare_bind_inv; [apply hoare_on_env, typed_set_env|]. intros [].
      apply hoare_bind_inv; [apply for_workers_step_typed|]. intros [].
      apply hoare_bind_inv; [apply hoare_ret_inv|]. intros [].
      apply hoare_on_env, typed_set_env. }
    destruct (Manager.join_workers (Manager.st c)) as [[|] s']; exact H.
Qed.

Lemma exec_typed a c : typed (Manager.st c) → typed (Manager.st (Manager.exec a c)).
Proof.
  intros Hs. destruct a; cbn [Manager.exec Manager.st].
  - by apply run_step_typed.
  - revert Hs. generalize (Manager.st c). unfold Manager.abort.
    apply hoare_bind_inv; [apply hoare_on_env, typed_set_env|]. intros [].
    apply hoare_modify_inv. done.
  - apply (hoare_on_env typed _ typed_set_env _ Hs).
  - apply (request_interrupt_typed _ _ _ Hs).
  - pose proof (run_worker_in_typed id work (Manager.worker_pool (Manager.st c))
                  (Manager.env (Manager.st c)) Hs) as Hp.
    destruct (Manager.run_worker_in id work _ _) as [p w]. exact Hp.
  - done.
Qed.

Lemma exec_all_typed sched : ∀ c,
  typed (Manager.st c) → typed (Manager.st (Manager.exec_all sched c)).
Proof.
  unfold Manager.exec_all. induction sched as [|a sched IH]; intros c Hc; [done|].
  simpl. apply IH. by apply exec_typed.
Qed.

Lemma pool_get_untyped t p :
  typed_pool p → all_chars type_char t = false → Manager.pool_get t p = None.
Proof.
  intros Hp Ht. destruct (Manager.pool_get t p) as [ws|] eqn:Hget; [|done].
  rewrite (pool_get_typed t ws p Hp Hget) in Ht. discriminate Ht.
Qed.

(** X16.  [delegate] files the workers under their worker type, and
    [request_interrupt] looks for them under [job.data["pythonfile"]].  The
    keys of the pool of a manager whose pool began empty (or with worker
    types for keys) are worker types after any steps of the threads, taken in
    any order.  So for a job whose [pythonfile] has a character that no
    worker type has, as the [/] of every absolute path is,
    [request_interrupt] returns without having found a worker: it changes
    nothing, and no interrupt flag is set. *)
Theorem request_interrupt_misses_paths (sched : list Manager.action) (c : Manager.config)
    (job : Job.t) (level : Z) (pf : string) :
  typed (Manager.st c) →
  Job.data job !! "pythonfile" = Some (VStr pf) →
  all_chars type_char pf = false →
  let s := Manager.st (Manager.exec_all sched c) in
  typed s ∧ Manager.request_interrupt job level s = (Ok tt, s).
Proof.
  intros Hc Hpf Hchars s.
  assert (Hs : typed s) by by apply exec_all_typed.
  split; [exact Hs|]. unfold Manager.request_interrupt.
  erewrite bind_ok by (by apply QueueFacts.getstr_some).
  erewrite bind_ok by reflexivity.
  by rewrite (pool_get_untyped pf (Manager.worker_pool s) Hs Hchars).
Qed.

Lemma request_interrupt_misses_paths_witness :
  let s := Manager.st (Manager.exec_all Examples.two_jobs_two_rounds Examples.fresh) in
  typed (Manager.st Examples.fresh)
  ∧ all_chars type_char Examples.path_w = false
  ∧ (λ w, Job.data (Worker.job (Manager.object w)) !! "id") <$> workers (Manager.worker_pool s)
    = [Some (VInt 1)]
  ∧ typed s
  ∧ Manager.request_interrupt (handle Cases.first_job) Worker.INTERRUPT_CANCEL s = (Ok tt, s).
Proof.
  cbv zeta. split; [constructor|]. split; [reflexivity|]. split; [vm_compute; reflexivity|].
  apply (request_interrupt_misses_paths Examples.two_jobs_two_rounds Examples.fresh
           (handle Cases.first_job) Worker.INTERRUPT_CANCEL Examples.path_w);
    [constructor|reflexivity|reflexivity].
Defined.

End ManagerEffects.

(** ** [update] and [delete] *)

Module DatabaseEffects.

Import Spec Rows DatabaseFacts.

Lemma col_set_col_ne c c' v r : c ≠ c' → col c' (set_col c v r) = col c' r.
Proof.
  intros Hne. destruct r, v; unfold set_col; repeat case_decide; subst;
    unfold col, row_dict; rewrite !lookup_insert; repeat case_decide;
    (reflexivity || congruence).
Qed.

Lemma col_set_col_eq c v r : fits_column c v → col c (set_col c v r) = Some v.
Proof.
  destruct r, v; unfold fits_column, int_columns, text_columns; intros H;
    repeat (apply elem_of_cons in H as [->|H]); try (by apply elem_of_nil in H);
    reflexivity.
Qed.

Lemma foldl_set_col_other c (l : list (string * val)) : ∀ r,
  c ∉ l.*1 →
  col c (foldl (λ r kv, set_col kv.1 kv.2 r) r l) = col c r.
Proof.
  induction l as [|[k v] l IH]; intros r Hc; [done|].
  rewrite fmap_cons, not_elem_of_cons in Hc. destruct Hc as [Hk Hl].
  cbn [foldl fst snd]. rewrite IH by done. apply col_set_col_ne. by intros ->.
Qed.

Lemma foldl_set_col_this c v (l : list (string * val)) : ∀ r,
  NoDup l.*1 → Forall (λ kv, fits_column kv.1 kv.2) l → (c, v) ∈ l →
  col c (foldl (λ r kv, set_col kv.1 kv.2 r) r l) = Some v.
Proof.
  induction l as [|[k u] l IH]; intros r Hnd Hfits Hin; [by apply elem_of_nil in Hin|].
  rewrite fmap_cons, NoDup_cons in Hnd. destruct Hnd as [Hk Hnd].
  apply Forall_cons in Hfits as [Hku Hfits]. cbn [foldl fst snd] in *.
  apply elem_of_cons in Hin as [[= -> ->]|Hin].
  - rewrite foldl_set_col_other by done. by apply col_set_col_eq.
  - by apply IH.
Qed.

Lemma apply_set_assignments (d : dict) r :
  apply_set (assignments d) r = foldl (λ r kv, set_col kv.1 kv.2 r) r (map_to_list d).
Proof.
  unfold apply_set, assignments. generalize r at 2 3. 
  induction (map_to_list d) as [|kv l IH]; intros r0; [done|].
  rewrite fmap_cons. cbn [foldl]. rewrite IH. done.
Qed.

(** What an UPDATE with the assignments of [d] makes of a row: the values of
    [d] in the columns of [d], and the row's own in the others. *)
Lemma row_dict_apply_set (d : dict) r :
  fits d → row_dict (apply_set (assignments d) r) = d ∪ row_dict r.
Proof.
  intros Hfits. rewrite apply_set_assignments. apply map_eq. intros c.
  change (col c (foldl (λ r kv, set_col kv.1 kv.2 r) r (map_to_list d))
          = (d ∪ row_dict r) !! c).
  destruct (d !! c) as [v|] eqn:Hc.
  - rewrite (lookup_union_Some_l _ _ _ _ Hc).
    apply foldl_set_col_this.
    + apply NoDup_fst_map_to_list.
    + apply Forall_forall. intros [k u] Hin. apply elem_of_map_to_list in Hin.
      by apply (Hfits k u).
    + by apply elem_of_map_to_list.
  - rewrite lookup_union_r by done. apply foldl_set_col_other.
    intros Hin. apply list_elem_of_fmap in Hin as ([k u] & -> & Hin).
    apply elem_of_map_to_list in Hin. cbn in Hc. congruence.
Qed.

Lemma eval_conjunction r c cs :
  eval_cond r (foldl And c cs) = eval_cond r c && forallb (eval_cond r) cs.
Proof.
  revert c. induction cs as [|c' cs IH]; intros c; cbn [foldl forallb].
  - by rewrite andb_true_r.
  - rewrite IH. cbn [eval_cond]. by rewrite andb_assoc.
Qed.

Lemma eval_equality r k v : eval_cond r (Eq (Col k) (Lit v)) = bool_decide (col k r = Some v).
Proof.
  cbn [eval_cond eval_expr]. destruct (col k r) as [x|].
  - apply bool_decide_ext. split; [by intros ->|by intros [= ->]].
  - by rewrite bool_decide_eq_false_2.
Qed.

(** The tests that [where_] makes are met by the rows that agree with it;
    when it has no key there is no WHERE clause, and every row is meant. *)
Lemma matches_equalities (d : dict) r :
  matches (conjunction (equalities d)) r ↔ agrees d r.
Proof.
  unfold agrees. rewrite map_Forall_to_list. unfold equalities.
  destruct (map_to_list d) as [|[k v] l]; cbn [fmap list_fmap conjunction matches].
  { split; [intros _; constructor|done]. }
  rewrite eval_conjunction, andb_True, eval_equality, bool_decide_spec, forallb_True.
  rewrite Forall_cons, Forall_fmap. cbn [uncurry fst snd]. apply and_iff_compat_l.
  apply Forall_iff. intros [k' v']. cbn [compose uncurry fst snd].
  by rewrite eval_equality, bool_decide_spec.
Qed.

Lemma filter_matches_equalities (d : dict) (l : list row) :
  filter (λ r, matches (conjunction (equalities d)) r) l = filter (agrees d) l.
Proof. apply list_filter_iff. intros r. apply matches_equalities. Qed.

Lemma apply_set_keeps_keys (d : dict) r :
  fits d → Forall (λ k, d !! k = None) key_columns →
  let r' := apply_set (assignments d) r in
  row_id r' = row_id r ∧ pythonfile r' = pythonfile r ∧ remote_id r' = remote_id r.
Proof.
  intros Hfits Hkeys r'.
  assert (Hcol : ∀ k, k ∈ key_columns → col k r' = col k r).
  { intros k Hk. rewrite Forall_forall in Hkeys. unfold col, r'.
    rewrite row_dict_apply_set by done. apply lookup_union_r. by apply Hkeys. }
  pose proof (Hcol "id") as Hid. pose proof (Hcol "pythonfile") as Hpf.
  pose proof (Hcol "remote_id") as Hrid.
  rewrite !col_id in Hid. rewrite !col_pythonfile in Hpf. rewrite !col_remote_id in Hrid.
  unfold key_columns in *.
  split_and!; [assert (H := Hid ltac:(set_solver))|assert (H := Hpf ltac:(set_solver))
               |assert (H := Hrid ltac:(set_solver))]; congruence.
Qed.

(** [update] on a table that obeys its constraints, with values that fit
    the columns and leave the key columns alone. *)
Lemma update_eq (w : world) (data : dict) (where_ : option dict) :
  data ≠ ∅ → fits data → fits (default ∅ where_) →
  Forall (λ k, data !! k = None) key_columns →
  unique_keys (rows (db w)) →
  update "jobs" data where_ w
  = (Ok (Z.of_nat (length (filter (agrees (default ∅ where_)) (rows (db w))))),
     set_db (Table ((λ r, if decide (agrees (default ∅ where_) r)
                           then apply_set (assignments data) r else r) <$> rows (db w))
               (seq (db w))) w).
Proof.
  intros Hdata Hfits Hwhere Hkeys Hunique. unfold update. cbv zeta.
  rewrite decide_False by done. rewrite decide_True by done. rewrite decide_True by done.
  unfold sql_update. rewrite filter_matches_equalities.
  assert (Hmap : map (λ r, if matches (conjunction (equalities (default ∅ where_))) r
                           then apply_set (assignments data) r else r) (rows (db w))
                 = (λ r, if decide (agrees (default ∅ where_) r)
                         then apply_set (assignments data) r else r) <$> rows (db w)).
  { apply list_fmap_ext. intros _ r _.
    pose proof (matches_equalities (default ∅ where_) r) as Hiff.
    destruct (matches _ r), (decide (agrees _ r)) as [Ha|Ha]; try done.
    - exfalso. apply Ha, Hiff. done.
    - exfalso. by apply Hiff in Ha. }
  rewrite Hmap. cbn [rows]. rewrite decide_True; [done|].
  destruct Hunique as [Hids Hpairs]. unfold unique_keys.
  rewrite <- !list_fmap_compose.
  erewrite (list_fmap_ext (row_id ∘ _) row_id), (list_fmap_ext (_ ∘ _) (λ r, (pythonfile r, remote_id r)));
    [done| |].
  - intros _ r _. cbn [compose]. destruct (decide (agrees _ r)); [|done].
    destruct (apply_set_keeps_keys data r Hfits Hkeys) as (_ & -> & ->). done.
  - intros _ r _. cbn [compose]. destruct (decide (agrees _ r)); [|done].
    by destruct (apply_set_keeps_keys data r Hfits Hkeys) as (-> & _).
Qed.

(** X17.  [update(table, data, where)] on the jobs table, for values that
    fit their columns and a [data] that has a key and names no column of a
    unique constraint: it returns the number of the rows that hold the
    values of [where] in the columns of [where], and these rows, and no
    others, now hold the values of [data] in the columns of [data]; every
    other column of every row, the number of rows and their order are as
    they were. *)
Theorem update_rewrites_the_rows_that_agree (w : world) (data : dict)
    (where_ : option dict) :
  data ≠ ∅ → fits data → fits (default ∅ where_) →
  Forall (λ k, data !! k = None) key_columns →
  unique_keys (rows (db w)) →
  ∃ rows',
    update "jobs" data where_ w
    = (Ok (Z.of_nat (length (filter (agrees (default ∅ where_)) (rows (db w))))),
       set_db (Table rows' (seq (db w))) w)
    ∧ Forall2 (λ r r', row_dict r' = if decide (agrees (default ∅ where_) r)
                                     then data ∪ row_dict r else row_dict r)
        (rows (db w)) rows'.
Proof.
  intros Hdata Hfits Hwhere Hkeys Hunique. eexists. split; [by apply update_eq|].
  apply Forall2_fmap_r, Forall_Forall2_diag, Forall_forall. intros r _. unfold compose.
  destruct (decide (agrees (default ∅ where_) r));
    [exact (row_dict_apply_set data r Hfits)|reflexivity].
Qed.

Lemma update_rewrites_the_rows_that_agree_witness :
  let w := Examples.world_of Examples.two_rows 200 in
  let data : dict := {[ "status" := VStr "seen" ]} in
  let where_ : option dict := Some {[ "remote_id" := VStr "b" ]} in
  ∃ rows',
    update "jobs" data where_ w
    = (Ok (Z.of_nat (length (filter (agrees (default ∅ where_)) (rows (db w))))),
       set_db (Table rows' (seq (db w))) w)
    ∧ Forall2 (λ r r', row_dict r' = if decide (agrees (default ∅ where_) r)
                                     then data ∪ row_dict r else row_dict r)
        (rows (db w)) rows'.
Proof.
  cbv zeta.
  apply (update_rewrites_the_rows_that_agree (Examples.world_of Examples.two_rows 200)
           {[ "status" := VStr "seen" ]} (Some {[ "remote_id" := VStr "b" ]}));
    compute_done.
Defined.

(** X18.  [update] without [where], or with an empty one, rewrites every
    row of the table: it returns the number of rows, and every row holds the
    values of [data] afterwards. *)
Theorem update_without_where_rewrites_every_row (w : world) (data : dict)
    (where_ : option dict) :
  where_ = None ∨ where_ = Some ∅ →
  data ≠ ∅ → fits data →
  Forall (λ k, data !! k = None) key_columns →
  unique_keys (rows (db w)) →
  ∃ rows',
    update "jobs" data where_ w
    = (Ok (Z.of_nat (length (rows (db w)))), set_db (Table rows' (seq (db w))) w)
    ∧ length rows' = length (rows (db w))
    ∧ Forall (λ r', data ⊆ row_dict r') rows'.
Proof.
  intros Hwhere Hdata Hfits Hkeys Hunique.
  assert (Hempty : default ∅ where_ = ∅) by (by destruct Hwhere as [->| ->]).
  assert (Hall : ∀ r, agrees (default ∅ where_) r).
  { intros r. rewrite Hempty. apply map_Forall_empty. }
  eexists. split; [|split].
  - rewrite update_eq; try done; [|rewrite Hempty; apply map_Forall_empty].
    do 3 f_equal. clear Hunique. induction (rows (db w)) as [|r l IH]; [done|].
    rewrite filter_cons_True by done. cbn [length]. by rewrite IH.
  - by rewrite length_fmap.
  - apply Forall_fmap, Forall_forall. intros r _. cbn [compose].
    rewrite decide_True by apply Hall. rewrite (row_dict_apply_set data r Hfits).
    apply map_union_subseteq_l.
Qed.

Lemma update_without_where_rewrites_every_row_witness :
  let w := Examples.world_of Examples.two_rows 200 in
  let data : dict := {[ "timestamp_after" := VInt 300 ]} in
  ∃ rows',
    update "jobs" data None w
    = (Ok (Z.of_nat (length (rows (db w)))), set_db (Table rows' (seq (db w))) w)
    ∧ length rows' = length (rows (db w))
    ∧ Forall (λ r', data ⊆ row_dict r') rows'.
Proof.
  cbv zeta.
  apply (update_without_where_rewrites_every_row (Examples.world_of Examples.two_rows 200)
           {[ "timestamp_after" := VInt 300 ]} None);
    [by left|compute_done|compute_done|compute_done|compute_done].
Defined.

Lemma delete_eq (w : world) (where_ : dict) :
  where_ ≠ ∅ → fits where_ →
  delete "jobs" where_ w
  = (Ok (Z.of_nat (length (filter (agrees where_) (rows (db w))))),
     set_db (Table (filter (λ r, ¬ agrees where_ r) (rows (db w))) (seq (db w))) w).
Proof.
  intros Hwhere Hfits. unfold delete.
  rewrite decide_False by done. rewrite decide_True by done. rewrite decide_True by done.
  unfold execute, sql_delete. rewrite filter_matches_equalities.
  do 3 f_equal. apply list_filter_iff. intros r. by rewrite matches_equalities.
Qed.

(** X19.  [delete(table, where)] on the jobs table, for a [where] that has a
    key and whose values fit their columns: the rows that hold the values of
    [where] are gone, the others are there as they were and in their order,
    and the number returned is the number of rows that went. *)
Theorem delete_removes_the_rows_that_agree (w : world) (where_ : dict) :
  where_ ≠ ∅ → fits where_ →
  ∃ n w',
    delete "jobs" where_ w = (Ok n, w')
    ∧ rows (db w') = filter (λ r, ¬ agrees where_ r) (rows (db w))
    ∧ n = Z.of_nat (length (rows (db w))) - Z.of_nat (length (rows (db w')))
    ∧ seq (db w') = seq (db w) ∧ log w' = log w ∧ journal w' = journal w.
Proof.
  intros Hwhere Hfits. do 2 eexists. split; [by apply delete_eq|].
  cbn [set_db db rows seq log journal]. split_and!; try reflexivity.
  induction (rows (db w)) as [|r l IH]; [reflexivity|].
  rewrite !filter_cons. destruct (decide (agrees where_ r)) as [Ha|Ha].
  - rewrite decide_False by (by intros Hn). cbn [length]. lia.
  - rewrite decide_True by exact Ha. cbn [length]. lia.
Qed.

Lemma delete_removes_the_rows_that_agree_witness :
  let w := Examples.world_of Examples.two_rows 200 in
  let where_ : dict := {[ "remote_id" := VStr "a" ]} in
  ∃ n w',
    delete "jobs" where_ w = (Ok n, w')
    ∧ rows (db w') = filter (λ r, ¬ agrees where_ r) (rows (db w))
    ∧ n = Z.of_nat (length (rows (db w))) - Z.of_nat (length (rows (db w')))
    ∧ seq (db w') = seq (db w) ∧ log w' = log w ∧ journal w' = journal w.
Proof.
  cbv zeta.
  apply (delete_removes_the_rows_that_agree (Examples.world_of Examples.two_rows 200)
           {[ "remote_id" := VStr "a" ]}); compute_done.
Defined.

(** A dictionary without keys makes a statement that does not parse:
    [delete] with an empty [where], and [update] with an empty [data], raise
    the error of the server, whatever the table, and change nothing.  So
    [delete] cannot be used to empty a table. *)
Lemma empty_dictionary_does_not_parse (table : string) (where_ : option dict)
    (w : world) :
  delete table ∅ w = (Raise syntax_error, w)
  ∧ update table ∅ where_ w = (Raise syntax_error, w).
Proof. split; [unfold delete|unfold update; cbv zeta]; by rewrite decide_True. Qed.

End DatabaseEffects.

(** ** [reconnect] *)

Module ReconnectFacts.

Import Reconnect Attempts.

Lemma round_fails e s tries wait n error :
  0 ≤ wait → fails_with e (outcome s (calls s)) →
  rounds (S n) tries wait error s = rounds n tries wait (Some e) (after_failures [e] wait s).
Proof.
  intros Hwait [Hout Hconn]. cbn [rounds].
  unfold mbind at 1, M_bind at 1, bind at 1. unfold try_except at 1.
  unfold mbind at 1, M_bind at 1, bind at 1. unfold connect at 1. rewrite Hout, Hconn.
  unfold sleep. rewrite decide_False by lia.
  unfold log_msg, modify, mbind, M_bind, bind, ret.
  cbn [outcome calls slept connections log].
  unfold after_failures, warning. cbn [length fmap list_fmap].
  do 2 f_equal; [lia|lia].
Qed.

Lemma round_connects s tries wait n error :
  outcome s (calls s) = Connects →
  rounds (S n) tries wait error s = (Ok tt, connected s).
Proof.
  intros Hout. cbn [rounds].
  unfold mbind at 1, M_bind at 1, bind at 1. unfold try_except at 1.
  unfold mbind at 1, M_bind at 1, bind at 1. unfold connect at 1. by rewrite Hout.
Qed.

Lemma round_raises e s tries wait n error :
  outcome s (calls s) = Fails e → is_connection_error e = false →
  rounds (S n) tries wait error s
  = (Raise e, State (outcome s) (S (calls s)) (slept s) (connections s) (log s)).
Proof.
  intros Hout Hconn. cbn [rounds].
  unfold mbind at 1, M_bind at 1, bind at 1. unfold try_except at 1.
  unfold mbind at 1, M_bind at 1, bind at 1. unfold connect at 1. by rewrite Hout, Hconn.
Qed.

Lemma after_failures_cons e es wait s :
  after_failures es wait (after_failures [e] wait s) = after_failures (e :: es) wait s.
Proof.
  unfold after_failures. cbn [outcome calls slept connections log length fmap list_fmap].
  rewrite <- app_assoc. f_equal; lia.
Qed.

(** The rounds that fail, one after the other. *)
Lemma rounds_fail es : ∀ s tries wait n error,
  0 ≤ wait → fail_with es (outcome s) (calls s) →
  rounds (length es + n) tries wait error s
  = rounds n tries wait (from_option Some error (last es)) (after_failures es wait s).
Proof.
  induction es as [|e es IH]; intros s tries wait n error Hwait Hfail.
  - cbn [length Nat.add last from_option]. f_equal. unfold after_failures.
    destruct s. cbn. f_equal; [lia|lia|by rewrite app_nil_r].
  - destruct Hfail as [He Hes]. cbn [length Nat.add].
    rewrite (round_fails e) by done.
    rewrite IH; [|done|cbn [outcome calls after_failures length]; by rewrite Nat.add_1_r].
    rewrite after_failures_cons. f_equal.
    destruct es as [|e' es]; [done|]. rewrite last_cons_cons.
    destruct (last (e' :: es)) as [x|] eqn:Hl; [done|]. by apply last_None in Hl.
Qed.

(** X20.  When every one of its [tries] attempts fails with an error of the
    connection, [reconnect(tries, wait)] raises the error of the last
    attempt.  It has then made exactly [tries] attempts and logged a warning
    for each and one error at the end, and it has slept [wait] seconds after
    every attempt, the last one too: [tries * wait] seconds in all. *)
Theorem reconnect_gives_up_after_tries (s : state) (tries wait : Z)
    (es : list exc) (e : exc) :
  0 ≤ wait →
  Z.of_nat (length es) = tries →
  fail_with es (outcome s) (calls s) →
  last es = Some e →
  reconnect tries wait s
  = (Raise e, logged (failure tries) (after_failures es wait s))
  ∧ calls (after_failures es wait s) = (calls s + Z.to_nat tries)%nat
  ∧ slept (after_failures es wait s) = slept s + tries * wait
  ∧ connections (after_failures es wait s) = connections s.
Proof.
  intros Hwait Hlen Hfail Hlast. unfold reconnect.
  replace (Z.to_nat tries) with (length es + 0)%nat by lia.
  split.
  - rewrite rounds_fail by done. rewrite Hlast. reflexivity.
  - cbn [after_failures calls slept connections]. split_and!; [lia|by rewrite Hlen|done].
Qed.

Lemma reconnect_gives_up_after_tries_witness :
  let es := [Cases.down; Cases.down; Cases.down] in
  Reconnect.reconnect 3 10 Cases.never_up
  = (Raise Cases.down, logged (failure 3) (after_failures es 10 Cases.never_up))
  ∧ Reconnect.calls (after_failures es 10 Cases.never_up) = 3%nat
  ∧ Reconnect.slept (after_failures es 10 Cases.never_up) = 30
  ∧ Reconnect.connections (after_failures es 10 Cases.never_up) = 0%nat.
Proof.
  cbv zeta.
  apply (reconnect_gives_up_after_tries Cases.never_up 3 10
           [Cases.down; Cases.down; Cases.down] Cases.down);
    [lia|reflexivity|vm_compute; repeat split|reflexivity].
Defined.

(** X21.  When the attempts of [reconnect(tries, wait)] fail with errors of
    the connection until one connects, within [tries] attempts, it returns
    normally with one new connection.  It has slept [wait] seconds after
    each failed attempt and not before the first: not at all when the first
    attempt connects. *)
Theorem reconnect_returns_at_first_success (s : state) (tries wait : Z)
    (es : list exc) :
  0 ≤ wait →
  Z.of_nat (length es) < tries →
  fail_with es (outcome s) (calls s) →
  outcome s (calls s + length es) = Connects →
  reconnect tries wait s = (Ok tt, connected (after_failures es wait s))
  ∧ slept (connected (after_failures es wait s)) = slept s + Z.of_nat (length es) * wait
  ∧ connections (connected (after_failures es wait s)) = S (connections s).
Proof.
  intros Hwait Hlen Hfail Hconn. unfold reconnect.
  replace (Z.to_nat tries) with (length es + S (Z.to_nat tries - length es - 1))%nat by lia.
  split; [|done].
  rewrite rounds_fail by done. by apply round_connects.
Qed.

Lemma reconnect_returns_at_first_success_witness :
  let es := [Cases.down; Cases.down] in
  Reconnect.reconnect 3 10 Cases.up_at_third
  = (Ok tt, connected (after_failures es 10 Cases.up_at_third))
  ∧ Reconnect.slept (connected (after_failures es 10 Cases.up_at_third)) = 20
  ∧ Reconnect.connections (connected (after_failures es 10 Cases.up_at_third)) = 1%nat.
Proof.
  cbv zeta.
  apply (reconnect_returns_at_first_success Cases.up_at_third 3 10 [Cases.down; Cases.down]);
    [lia|reflexivity|vm_compute; repeat split|reflexivity].
Defined.

(** X22.  [reconnect] with [tries] of 0 or less makes no attempt: it logs
    that it failed and then raises [TypeError], as there is no error to
    raise. *)
Theorem reconnect_without_tries_raises_type_error (s : state) (tries wait : Z) :
  tries ≤ 0 →
  reconnect tries wait s
  = (Raise (mk_exc TypeError "exceptions must derive from BaseException"),
     logged (failure tries) s).
Proof.
  intros Htries. unfold reconnect. replace (Z.to_nat tries) with 0%nat by lia. reflexivity.
Qed.

Lemma reconnect_without_tries_raises_type_error_witness :
  Reconnect.reconnect 0 10 Cases.never_up
  = (Raise (mk_exc TypeError "exceptions must derive from BaseException"),
     logged (failure 0) Cases.never_up).
Proof. apply (reconnect_without_tries_raises_type_error Cases.never_up 0 10). lia. Defined.

(** One round of the loop, whatever the attempt does. *)
Lemma rounds_bounded n : ∀ s tries wait error,
  0 ≤ wait →
  let r := (rounds n tries wait error s).1 in
  let s' := (rounds n tries wait error s).2 in
  (calls s ≤ calls s' ≤ calls s + n)%nat
  ∧ slept s ≤ slept s' ≤ slept s + Z.of_nat n * wait
  ∧ (connections s ≤ connections s' ≤ S (connections s))%nat
  ∧ (r = Ok tt ↔ connections s' = S (connections s))
  ∧ outcome s' = outcome s.
Proof.
  induction n as [|n IH]; intros s tries wait error Hwait; cbv zeta.
  - assert (Hgive : ∃ e, rounds 0 tries wait error s = (Raise e, logged (failure tries) s))
      by (destruct error as [e|]; eexists; reflexivity).
    destruct Hgive as [e ->]. cbn [fst snd logged calls slept connections outcome].
    split_and!; try lia; [|reflexivity]. split; [intros [=]|lia].
  - destruct (outcome s (calls s)) as [|e] eqn:Hout.
    + rewrite round_connects by done.
      cbn [fst snd connected calls slept connections outcome].
      split_and!; try lia; reflexivity || (split; reflexivity).
    + destruct (is_connection_error e) eqn:Hconn.
      * rewrite (round_fails e) by done.
        specialize (IH (after_failures [e] wait s) tries wait (Some e) Hwait).
        cbv zeta in IH. destruct (rounds n tries wait (Some e) _) as [r s'].
        cbn [fst snd after_failures calls slept connections outcome length] in *.
        destruct IH as (Hc & Hs & Hn & Hr & Ho). split_and!; try lia; done.
      * rewrite (round_raises e) by done. cbn [fst snd calls slept connections outcome].
        split_and!;
          first [lia | nia | reflexivity | (split; [intros [=]|lia])].
Qed.

(** X23.  Whatever the attempts do, [reconnect(tries, wait)] makes at most
    [tries] of them, sleeps at most [tries * wait] seconds, and makes at
    most one connection: exactly one when it returns, and none when it
    raises. *)
Theorem reconnect_is_bounded (s : state) (tries wait : Z) :
  0 ≤ wait →
  let r := (reconnect tries wait s).1 in
  let s' := (reconnect tries wait s).2 in
  (calls s ≤ calls s' ≤ calls s + Z.to_nat tries)%nat
  ∧ slept s ≤ slept s' ≤ slept s + Z.max 0 tries * wait
  ∧ (r = Ok tt ↔ connections s' = S (connections s))
  ∧ (r ≠ Ok tt ↔ connections s' = connections s).
Proof.
  intros Hwait. cbv zeta. unfold reconnect.
  destruct (rounds_bounded (Z.to_nat tries) s tries wait None Hwait)
    as (Hc & Hs & Hn & Hr & _).
  split_and!; [lia|lia|lia|nia|exact Hr|]. split.
  - intros Hno. destruct (decide (connections (rounds (Z.to_nat tries) tries wait None s).2
                                  = S (connections s))) as [Heq|Hne]; [|lia].
    by apply Hr in Heq.
  - intros Heq Hok. apply Hr in Hok. lia.
Qed.

Lemma reconnect_is_bounded_witness :
  let r := (Reconnect.reconnect 3 10 Cases.up_at_third).1 in
  let s' := (Reconnect.reconnect 3 10 Cases.up_at_third).2 in
  (Reconnect.calls Cases.up_at_third ≤ Reconnect.calls s'
   ≤ Reconnect.calls Cases.up_at_third + Z.to_nat 3)%nat
  ∧ Reconnect.slept Cases.up_at_third ≤ Reconnect.slept s'
    ≤ Reconnect.slept Cases.up_at_third + Z.max 0 3 * 10
  ∧ (r = Ok tt ↔ Reconnect.connections s' = S (Reconnect.connections Cases.up_at_third))
  ∧ (r ≠ Ok tt ↔ Reconnect.connections s' = Reconnect.connections Cases.up_at_third).
Proof. apply (reconnect_is_bounded Cases.up_at_third 3 10). lia. Defined.

End ReconnectFacts.

(** ** [get_cursor] *)

Module CursorFacts.

Import Attempts ReconnectFacts.

Lemma get_cursor_made s :
  Cursor.cursor_outcome s (Cursor.cursor_calls s) = Cursor.Made →
  Cursor.get_cursor s
  = (Ok tt, Cursor.State (Cursor.conn s) (Cursor.cursor_outcome s) (S (Cursor.cursor_calls s))).
Proof.
  intros Hout. unfold Cursor.get_cursor, try_except. unfold Cursor.cursor at 1.
  by rewrite Hout.
Qed.

Lemma get_cursor_raises s e :
  Cursor.cursor_outcome s (Cursor.cursor_calls s) = Cursor.NotMade e →
  Reconnect.is_connection_error e = false →
  Cursor.get_cursor s
  = (Raise e, Cursor.State (Cursor.conn s) (Cursor.cursor_outcome s)
                (S (Cursor.cursor_calls s))).
Proof.
  intros Hout Hconn. unfold Cursor.get_cursor, try_except. unfold Cursor.cursor at 1.
  by rewrite Hout, Hconn.
Qed.

(** The line that [get_cursor] logs before it reconnects. *)
Lemma get_cursor_reconnects s e :
  Cursor.cursor_outcome s (Cursor.cursor_calls s) = Cursor.NotMade e →
  Reconnect.is_connection_error e = true →
  let line := (WARNING, "Database Exception: " +:+ e_str e +:+ Job.newline
                        +:+ "Reconnecting and retrying query...") in
  let tried := Reconnect.reconnect 3 10 (logged line (Cursor.conn s)) in
  let s1 := Cursor.State tried.2 (Cursor.cursor_outcome s) (S (Cursor.cursor_calls s)) in
  Cursor.get_cursor s
  = match tried.1 with
    | Ok _ => Cursor.cursor s1
    | Raise e' => (Raise e', s1)
    end.
Proof.
  intros Hout Hconn line tried s1.
  unfold Cursor.get_cursor, try_except. unfold Cursor.cursor at 1. rewrite Hout, Hconn.
  unfold mbind, M_bind, bind, lift, Reconnect.log_msg, modify.
  cbn [Cursor.conn Cursor.set_conn Cursor.cursor_outcome Cursor.cursor_calls].
  subst s1 tried line. unfold logged.
  destruct (Reconnect.reconnect 3 10 _) as [[[]|e'] c2]; reflexivity.
Qed.

(** X24.  [get_cursor()] asks the connection for a cursor at its own two
    places at most twice.  When the first call gives one, it returns it and
    does nothing else: no attempt to connect, no sleep.  When the first call
    raises anything but an error of the connection, that is raised at once.
    Otherwise it reconnects with the defaults of [reconnect]: whatever
    happens then, it has made at most 3 attempts to connect and slept at
    most 30 seconds, and it has asked for a cursor a second time only after
    an attempt has connected.  As an attempt of [reconnect] asks for a
    cursor at most once, that is at most five calls for a cursor in all. *)
Theorem get_cursor_is_bounded (s : Cursor.state) :
  let r := (Cursor.get_cursor s).1 in
  let s' := (Cursor.get_cursor s).2 in
  (Cursor.cursor_calls s < Cursor.cursor_calls s' ≤ Cursor.cursor_calls s + 2)%nat
  ∧ (Reconnect.calls (Cursor.conn s) ≤ Reconnect.calls (Cursor.conn s')
     ≤ Reconnect.calls (Cursor.conn s) + 3)%nat
  ∧ Reconnect.slept (Cursor.conn s) ≤ Reconnect.slept (Cursor.conn s')
    ≤ Reconnect.slept (Cursor.conn s) + 30
  ∧ ((Cursor.cursor_calls s' - Cursor.cursor_calls s)
     + (Reconnect.calls (Cursor.conn s') - Reconnect.calls (Cursor.conn s)) ≤ 5)%nat
  ∧ (Cursor.cursor_calls s' = (Cursor.cursor_calls s + 2)%nat →
     Reconnect.connections (Cursor.conn s') = S (Reconnect.connections (Cursor.conn s)))
  ∧ (Cursor.cursor_outcome s (Cursor.cursor_calls s) = Cursor.Made →
     r = Ok tt
     ∧ s' = Cursor.State (Cursor.conn s) (Cursor.cursor_outcome s) (S (Cursor.cursor_calls s)))
  ∧ (∀ e, Cursor.cursor_outcome s (Cursor.cursor_calls s) = Cursor.NotMade e →
          Reconnect.is_connection_error e = false →
          r = Raise e ∧ Cursor.conn s' = Cursor.conn s).
Proof.
  cbv zeta.
  destruct (Cursor.cursor_outcome s (Cursor.cursor_calls s)) as [|e] eqn:Hout.
  { rewrite get_cursor_made by done. cbn [fst snd Cursor.conn Cursor.cursor_calls].
    split_and!; try lia; try done. }
  destruct (Reconnect.is_connection_error e) eqn:Hconn.
  2:{ rewrite (get_cursor_raises s e) by done. cbn [fst snd Cursor.conn Cursor.cursor_calls].
      split_and!; try lia; try done.
      intros e' [= <-] _. done. }
  rewrite (get_cursor_reconnects s e) by done. cbv zeta.
  set (line := (WARNING, _)).
  pose proof (rounds_bounded 3 (logged line (Cursor.conn s)) 3 10 None ltac:(lia)) as Hb.
  cbv zeta in Hb. change (Reconnect.rounds 3 3 10 None) with (Reconnect.reconnect 3 10) in Hb.
  destruct (Reconnect.reconnect 3 10 (logged line (Cursor.conn s))) as [[[]|e'] c2].
  - cbn [fst snd logged Reconnect.calls Reconnect.slept Reconnect.connections] in Hb.
    destruct Hb as (Hc & Hs & Hn & Hr & _).
    unfold Cursor.cursor. cbn [Cursor.conn Cursor.cursor_outcome Cursor.cursor_calls].
    destruct (Cursor.cursor_outcome s (S (Cursor.cursor_calls s)));
      cbn [fst snd Cursor.conn Cursor.cursor_calls];
      (split_and!; try lia; try done; [intros _; by apply Hr|intros x [= <-] Hx; congruence]).
  - cbn [fst snd logged Reconnect.calls Reconnect.slept Reconnect.connections] in Hb.
    destruct Hb as (Hc & Hs & Hn & Hr & _).
    cbn [fst snd Cursor.conn Cursor.cursor_calls].
    split_and!; try lia; try done. intros x [= <-] Hx. congruence.
Qed.

End CursorFacts.
